(** * Sierpinski tetrahedron ray marcher: a shallow embedding and its properties

    The repository holds two programs, [sierpinski.c] (the simple variant) and
    [sierpinski_enhanced.c] (the enhanced variant).  Each is a C host program
    that embeds a GLSL fragment shader as a string; the shader carries the
    distance estimator, the ray marcher and the colouring, the host program
    carries the window, the event loop and the camera state.

    Numbers.  Both the host's [float] and the shader's [float] are IEEE-754
    binary32.  They are modelled by [spec_float] of the standard library with
    24 bits of precision and exponent bound 128, every arithmetic operation
    rounding to nearest even, and every expression evaluated in binary32 (no
    wider intermediate results, no fused operations).  A decimal literal is
    its nearest binary32 value.  The GLSL built-ins that the marcher uses are
    taken by their defining formulas: [length v] is [sqrt (dot v v)],
    [min x y] is [y] when [y < x] and [x] otherwise, and [pow 2.0 k] for an
    integral [k] is the power of two.  The palette is the one place where the
    shader calls [cos]; GLSL does not fix the binary32 value that [cos]
    returns, so the built-in is a parameter of the model there (module
    [Palette]), and everything around it is binary32 like the rest.

    Variables a function declares without initialising them, and [out]
    parameters, hold an indeterminate value until they are assigned.  The
    model passes that value in explicitly, so that "the result does not
    depend on it" is a statement that can be proved. *)

From Stdlib Require Import ZArith List Bool Lia.
From Stdlib Require Import Floats.SpecFloat.
From Stdlib Require Import Reals Lra Machin.
Import ListNotations.

Local Open Scope Z_scope.

(** ** Binary32 arithmetic *)

Module F32.

Definition prec : Z := 24.
Definition emax : Z := 128.

Definition float : Type := spec_float.

Definition add : float -> float -> float := SFadd prec emax.
Definition sub : float -> float -> float := SFsub prec emax.
Definition mul : float -> float -> float := SFmul prec emax.
Definition div : float -> float -> float := SFdiv prec emax.
Definition sqrt : float -> float := SFsqrt prec emax.
Definition opp : float -> float := SFopp.
Definition abs : float -> float := SFabs.

Definition ltb : float -> float -> bool := SFltb.
Definition leb : float -> float -> bool := SFleb.
Definition eqb : float -> float -> bool := SFeqb.
(** [x > y] is [y < x]. *)
Definition gtb (x y : float) : bool := ltb y x.

(** The integer [n] rounded to binary32 (an [int] converted to [float]). *)
Definition of_Z (n : Z) : float := binary_normalize prec emax n 0 false.

(** The decimal literal [n / d], rounded once. *)
Definition lit (n : Z) (d : positive) : float := div (of_Z n) (of_Z (Zpos d)).

(** [pow(2.0, float(k))] for an [int] [k]. *)
Definition pow2 (k : Z) : float := SFldexp prec emax (of_Z 1) k.

(** GLSL [min]: "returns y if y < x, otherwise it returns x". *)
Definition fmin (x y : float) : float := if ltb y x then y else x.

Definition is_nan (x : float) : bool :=
  match x with S754_nan => true | _ => false end.

(** Zero or a finite non-zero number: neither an infinity nor a NaN. *)
Definition is_finite (x : float) : bool :=
  match x with S754_zero _ | S754_finite _ _ _ => true | _ => false end.

(** Not below zero: the sign bit is clear, or the value is a zero or a NaN. *)
Definition nonneg (x : float) : bool :=
  match x with
  | S754_zero _ | S754_nan => true
  | S754_infinity s | S754_finite s _ _ => negb s
  end.

(** GLSL [max]: "returns y if x < y, otherwise it returns x". *)
Definition fmax (x y : float) : float := if ltb x y then y else x.

(** GLSL [clamp]: [min (max (x, minVal), maxVal)]. *)
Definition clamp (x minVal maxVal : float) : float :=
  fmin (fmax x minVal) maxVal.

(** The content of a variable that was declared but not assigned yet.  Any
    value would do; theorems about functions that take such a value
    quantify over it. *)
Definition undef : float := S754_nan.

End F32.

Export F32.

Declare Scope f32_scope.
Delimit Scope f32_scope with f32.
Bind Scope f32_scope with float.
Infix "+" := add : f32_scope.
Infix "-" := sub : f32_scope.
Infix "*" := mul : f32_scope.
Infix "/" := div : f32_scope.
Notation "- x" := (opp x) : f32_scope.
Infix "<?" := ltb : f32_scope.
Infix ">?" := gtb : f32_scope.
Infix "<=?" := leb : f32_scope.

(** A zero, or a canonical finite number of magnitude at most [2 ^ k]. *)
Definition at_most_pow2 (k : Z) (x : float) : bool :=
  match x with
  | S754_zero _ => true
  | S754_finite _ m e =>
    SpecFloat.bounded prec emax m e && (e <=? k) && (Zpos m <=? 2 ^ (k - e))
  | _ => false
  end.

(** A number between 0 and 1. *)
Definition in_unit_range (x : float) : bool :=
  (lit 0 1 <=? x)%f32 && (x <=? lit 1 1)%f32.

(** A binary32 number between -1 and 1: what a cosine can be.  The first
    test excludes the triples of sign, mantissa and exponent that are not
    the canonical form of a binary32 number. *)
Definition cosine_value (c : float) : bool :=
  valid_binary prec emax c && (- lit 1 1 <=? c)%f32 && (c <=? lit 1 1)%f32.



(** ** GLSL vectors *)

Record vec3 : Type := Vec3 { vx : float; vy : float; vz : float }.

(** [vec3(s)] *)
Definition vec3_of (s : float) : vec3 := Vec3 s s s.

Definition vadd (a b : vec3) : vec3 :=
  Vec3 (vx a + vx b)%f32 (vy a + vy b)%f32 (vz a + vz b)%f32.
Definition vsub (a b : vec3) : vec3 :=
  Vec3 (vx a - vx b)%f32 (vy a - vy b)%f32 (vz a - vz b)%f32.
(** vector * scalar *)
Definition vmuls (a : vec3) (s : float) : vec3 :=
  Vec3 (vx a * s)%f32 (vy a * s)%f32 (vz a * s)%f32.
(** scalar * vector *)
Definition smulv (s : float) (a : vec3) : vec3 :=
  Vec3 (s * vx a)%f32 (s * vy a)%f32 (s * vz a)%f32.
(** scalar + vector *)
Definition saddv (s : float) (a : vec3) : vec3 :=
  Vec3 (s + vx a)%f32 (s + vy a)%f32 (s + vz a)%f32.
(** vector - scalar *)
Definition vsubs (a : vec3) (s : float) : vec3 :=
  Vec3 (vx a - s)%f32 (vy a - s)%f32 (vz a - s)%f32.
Definition vdot (a b : vec3) : float :=
  (vx a * vx b + vy a * vy b + vz a * vz b)%f32.
Definition vlength (a : vec3) : float := sqrt (vdot a a).
Definition vmin (a b : vec3) : vec3 :=
  Vec3 (fmin (vx a) (vx b)) (fmin (vy a) (vy b)) (fmin (vz a) (vz b)).
Definition vleb (a b : vec3) : bool :=
  ((vx a <=? vx b) && (vy a <=? vy b) && (vz a <=? vz b))%f32.

Definition not_nan3 (v : vec3) : bool :=
  negb (is_nan (vx v)) && negb (is_nan (vy v)) && negb (is_nan (vz v)).

Definition finite3 (v : vec3) : bool :=
  is_finite (vx v) && is_finite (vy v) && is_finite (vz v).

Definition nonneg3 (v : vec3) : Prop :=
  nonneg (vx v) = true /\ nonneg (vy v) = true /\ nonneg (vz v) = true.

Definition undef3 : vec3 := vec3_of undef.

(** ** Loops *)

(** [for (n = lo; n < hi; n++) body], for a body that leaves [n] and the
    bounds alone: [count] is [hi - lo], the result is the final state and the
    final value of [n]. *)
Fixpoint for_loop {St : Type} (count : nat) (n : Z) (body : Z -> St -> St)
  (s : St) : St * Z :=
  match count with
  | O => (s, n)
  | S k => for_loop k (n + 1) body (body n s)
  end.

(** How a loop with a [return] and a [break] in its body was left. *)
Inductive loop_exit (A B : Type) : Type :=
  | Returned (a : A)     (* a [return] inside the body *)
  | Broke (b : B)        (* a [break] *)
  | Exhausted (b : B).   (* the loop condition became false *)
Arguments Returned {A B} a.
Arguments Broke {A B} b.
Arguments Exhausted {A B} b.

(** ** The sequence of march parameters

    Both ray marchers walk the same way: sample the distance at parameter
    [t], stop when it is under the threshold, otherwise advance [t] by the
    sample times a relaxation factor and leave when [t] is past the far
    bound.  [t_seq k] is the parameter after [k] advances when nothing stops
    the walk; [walk] is the walk itself with the exits. *)
Section March.
Variable sample : float -> float.
Variables threshold relaxation far : float.

Definition advance (t : float) : float := (t + sample t * relaxation)%f32.

Definition t_seq (k : nat) (t0 : float) : float := Nat.iter k advance t0.

Definition hit_at (k : nat) (t0 : float) : bool :=
  (sample (t_seq k t0) <? threshold)%f32.

Definition far_at (k : nat) (t0 : float) : bool :=
  (t_seq (S k) t0 >? far)%f32.

(** Nothing stopped the walk during its first [j] passes. *)
Definition unstopped (j : nat) (t0 : float) : Prop :=
  forall i, (i < j)%nat -> hit_at i t0 = false /\ far_at i t0 = false.

Fixpoint walk (k : nat) (t : float) : loop_exit float float :=
  match k with
  | O => Exhausted t
  | S k' =>
    if (sample t <? threshold)%f32 then Returned t
    else
      let t := advance t in
      if (t >? far)%f32 then Broke t else walk k' t
  end.
End March.

(** ** The simple variant: the shader of [sierpinski.c] *)

Module Simple.

Definition iterations : Z := 12.
Definition scale : float := lit 2 1.

Definition a1 : vec3 := Vec3 (lit 1 1) (lit 1 1) (lit 1 1).
Definition a2 : vec3 := Vec3 (lit (-1) 1) (lit (-1) 1) (lit 1 1).
Definition a3 : vec3 := Vec3 (lit 1 1) (lit (-1) 1) (lit (-1) 1).
Definition a4 : vec3 := Vec3 (lit (-1) 1) (lit 1 1) (lit (-1) 1).

(** The variables of [sierpinskiSDF] that the loop reads and writes: the
    parameter [p] and the locals [c], [dist] and [d], which are declared
    without a value. *)
Record sdf_locals : Type :=
  { l_p : vec3; l_c : vec3; l_dist : float; l_d : float }.

(** One pass through the body of the folding loop. *)
Definition sdf_body (n : Z) (s : sdf_locals) : sdf_locals :=
  let p := l_p s in
  let c := a1 in
  let dist := vlength (vsub p a1) in
  let d := vlength (vsub p a2) in
  let '(c, dist) := if (d <? dist)%f32 then (a2, d) else (c, dist) in
  let d := vlength (vsub p a3) in
  let '(c, dist) := if (d <? dist)%f32 then (a3, d) else (c, dist) in
  let d := vlength (vsub p a4) in
  let '(c, dist) := if (d <? dist)%f32 then (a4, d) else (c, dist) in
  let p := vsub (smulv scale p) (vmuls c (scale - lit 1 1)%f32) in
  {| l_p := p; l_c := c; l_dist := dist; l_d := d |}.

(** [sierpinskiSDF], started with its locals in state [s]. *)
Definition sierpinskiSDF_from (s : sdf_locals) : float :=
  let '(s, n) := for_loop (Z.to_nat (iterations - 0)) 0 sdf_body s in
  (vlength (l_p s) * pow2 (- n))%f32.

Definition sierpinskiSDF (p : vec3) : float :=
  sierpinskiSDF_from
    {| l_p := p; l_c := undef3; l_dist := undef; l_d := undef |}.

Definition maxSteps : nat := 256.
Definition maxDist : float := lit 20 1.
Definition epsilon : float := lit 1 1000.

(** The marching loop of [rayMarch], with [k] passes left.  [steps] and [t]
    are the variables the loop updates. *)
Fixpoint march_loop (k : nat) (ro rd : vec3) (t : float) (steps : Z)
  : loop_exit (float * float * Z) (float * Z) :=
  match k with
  | O => Exhausted (t, steps)
  | S k' =>
    let pos := vadd ro (vmuls rd t) in
    let dist := sierpinskiSDF pos in
    if (dist <? epsilon)%f32 then Returned (dist, t, steps)
    else
      let t := (t + dist * lit 1 2)%f32 in
      let steps := steps + 1 in
      if (t >? maxDist)%f32 then Broke (t, steps)
      else march_loop k' ro rd t steps
  end.

(** What [rayMarch] hands back: the returned value and the two [out]
    parameters. *)
Record march_result : Type :=
  { ret : float; steps : Z; totalDist : float }.

Definition rayMarch (ro rd : vec3) : march_result :=
  match march_loop maxSteps ro rd (lit 0 1) 0 with
  | Returned (dist, t, steps) =>
    {| ret := dist; steps := steps; totalDist := t |}
  | Broke (t, steps) | Exhausted (t, steps) =>
    {| ret := (- lit 1 1)%f32; steps := steps; totalDist := t |}
  end.

(** The distance sampled at parameter [t] of the ray, and the march
    parameters of the ray. *)
Definition sample (ro rd : vec3) (t : float) : float :=
  sierpinskiSDF (vadd ro (vmuls rd t)).
Definition t_at (ro rd : vec3) (k : nat) : float :=
  t_seq (sample ro rd) (lit 1 2) k (lit 0 1).
Definition hits (ro rd : vec3) (k : nat) : bool :=
  hit_at (sample ro rd) epsilon (lit 1 2) k (lit 0 1).
Definition leaves (ro rd : vec3) (k : nat) : bool :=
  far_at (sample ro rd) (lit 1 2) maxDist k (lit 0 1).

(** The words of the specification: the nearest of the four vertices, the
    first one found winning a tie, as a scan over the vertices in their
    order that replaces the candidate only by a strictly nearer one. *)
Definition vertices : list vec3 := [a1; a2; a3; a4].
Definition dist_to (p v : vec3) : float := vlength (vsub p v).
Definition nearest_index (p : vec3) : nat :=
  fst (fold_left
         (fun '(best, i) v =>
            if (dist_to p v <? dist_to p (nth best vertices a1))%f32
            then (i, S i) else (best, S i))
         [a2; a3; a4] (O, 1%nat)).
Definition nearestVertex (p : vec3) : vec3 :=
  nth (nearest_index p) vertices a1.
(** [p <- scale * p - nearestVertex * (scale - 1)] *)
Definition contraction (p : vec3) : vec3 :=
  vsub (smulv scale p) (vmuls (nearestVertex p) (scale - lit 1 1)%f32).


(** [calcAO]: the two variables its loop updates, one pass, the function. *)
Record ao_locals : Type := { ao_occ : float; ao_sca : float }.

Definition ao_body (p n : vec3) (i : Z) (s : ao_locals) : ao_locals :=
  let h := (lit 1 100 + lit 12 100 * of_Z i / lit 4 1)%f32 in
  let d := sierpinskiSDF (vadd p (smulv h n)) in
  let occ := (ao_occ s + (h - d) * ao_sca s)%f32 in
  let sca := (ao_sca s * lit 95 100)%f32 in
  {| ao_occ := occ; ao_sca := sca |}.

Definition calcAO (p n : vec3) : float :=
  let '(s, _) :=
    for_loop (Z.to_nat (5 - 0)) 0 (ao_body p n)
      {| ao_occ := lit 0 1; ao_sca := lit 1 1 |} in
  clamp (lit 1 1 - lit 3 1 * ao_occ s)%f32 (lit 0 1) (lit 1 1).

(** The tail of [main], from the call of [rayMarch] on.  The lighting of a
    hit and the gamma correction call [sin], [exp] and [pow]; they are kept
    abstract: [shade ro rd steps totalDist] stands for the colour the body of
    [if (hit > -0.5)] leaves in [color], [gamma] for [pow(color, 0.4545)]. *)
Section Main.
Variable shade : vec3 -> vec3 -> Z -> float -> vec3.
Variable gamma : vec3 -> vec3.

Definition main_color (ro rd : vec3) : vec3 :=
  let r := rayMarch ro rd in
  let hit := ret r in
  let color := vec3_of (lit 0 1) in
  let color :=
    if (hit >? (- lit 5 10))%f32 then shade ro rd (steps r) (totalDist r)
    else color in
  gamma color.
End Main.

End Simple.

(** ** The enhanced variant: the shader and the host loop of
    [sierpinski_enhanced.c] *)

Module Enhanced.

Definition MAX_MARCH_STEPS : nat := 200.
Definition MAX_DIST : float := lit 50 1.
Definition HIT_THRESHOLD : float := lit 1 10000.
Definition FRACTAL_ITERATIONS : Z := 14.
Definition FRACTAL_SCALE : float := lit 2 1.

(** [vec3(1e10)], the value the orbit trap is reset to. *)
Definition trap_reset : vec3 := vec3_of (of_Z (10 ^ 10)).

(** The variables of [sdSierpinski] that its loop reads and writes. *)
Record sd_locals : Type :=
  { l_z : vec3; l_dr : float; l_orbitTrap : vec3; l_minDist : float }.

(** The four folds at the head of the loop body; each is an assignment to
    two components of [z] from the old values of the same two. *)
Definition fold_xy (z : vec3) : vec3 :=
  if (vx z + vy z <? lit 0 1)%f32
  then Vec3 (- vy z)%f32 (- vx z)%f32 (vz z) else z.
Definition fold_xz (z : vec3) : vec3 :=
  if (vx z + vz z <? lit 0 1)%f32
  then Vec3 (- vz z)%f32 (vy z) (- vx z)%f32 else z.
Definition fold_zy (z : vec3) : vec3 :=
  if (vy z + vz z <? lit 0 1)%f32
  then Vec3 (vx z) (- vz z)%f32 (- vy z)%f32 else z.
Definition fold_swap (z : vec3) : vec3 :=
  if (vx z - vy z <? lit 0 1)%f32
  then Vec3 (vy z) (vx z) (vz z) else z.

(** Folds, then scale and translate: the new [z] of one pass. *)
Definition next_z (z : vec3) : vec3 :=
  let z := fold_swap (fold_zy (fold_xz (fold_xy z))) in
  vsubs (vmuls z FRACTAL_SCALE) (lit 1 1 * (FRACTAL_SCALE - lit 1 1))%f32.

(** The three values one pass offers to the orbit trap. *)
Definition trap_sample (z : vec3) : vec3 :=
  Vec3 (vlength z) (abs (vx z) + abs (vy z) + abs (vz z))%f32 (vdot z z).

(** One pass through the body of the loop of [sdSierpinski]. *)
Definition sd_body (n : Z) (s : sd_locals) : sd_locals :=
  let z := next_z (l_z s) in
  let dr := (l_dr s * FRACTAL_SCALE)%f32 in
  let d := vlength z in
  let minDist := fmin (l_minDist s) d in
  let ot := l_orbitTrap s in
  let ot := Vec3 (fmin (vx ot) d) (vy ot) (vz ot) in
  let ot :=
    Vec3 (vx ot) (fmin (vy ot) (abs (vx z) + abs (vy z) + abs (vz z))%f32)
      (vz ot) in
  let ot := Vec3 (vx ot) (vy ot) (fmin (vz ot) (vdot z z)) in
  {| l_z := z; l_dr := dr; l_orbitTrap := ot; l_minDist := minDist |}.

(** The state of the locals when the loop is entered.  [orbitTrap] is the
    content of the [out] parameter at the call; the first statements
    overwrite it. *)
Definition sd_init (p : vec3) (orbitTrap : vec3) : sd_locals :=
  let z := p in
  let dr := lit 1 1 in
  let orbitTrap := trap_reset in
  let minDist := of_Z (10 ^ 10) in
  {| l_z := z; l_dr := dr; l_orbitTrap := orbitTrap; l_minDist := minDist |}.

(** The locals after the first [k] passes. *)
Definition sd_after (k : nat) (p : vec3) (orbitTrap : vec3) : sd_locals :=
  fst (for_loop k 0 sd_body (sd_init p orbitTrap)).

(** The words of the specification: the point of the orbit after [i] passes,
    and the running minimum of the samples of the first [k] passes, started
    from the reset value. *)
Definition orbit_point (p : vec3) (i : nat) : vec3 := Nat.iter i next_z p.
Definition running_minimum (p : vec3) (k : nat) : vec3 :=
  fold_left vmin
    (List.map (fun i => trap_sample (orbit_point p (S i))) (seq 0 k))
    trap_reset.

(** [sdSierpinski p orbitTrap]: the returned distance and the final content
    of the [out] parameter. *)
Definition sdSierpinski (p : vec3) (orbitTrap : vec3) : float * vec3 :=
  let s := sd_after (Z.to_nat (FRACTAL_ITERATIONS - 0)) p orbitTrap in
  let r := vlength (l_z s) in
  ((lit 1 2 * r / l_dr s)%f32, l_orbitTrap s).

(** [map]: the distance alone; [dummy] is declared without a value. *)
Definition map (p : vec3) : float :=
  let dummy := undef3 in
  fst (sdSierpinski p dummy).

(** The marching loop of [rayMarch], with [k] passes left. *)
Fixpoint march_loop (k : nat) (ro rd : vec3) (t : float) (orbitTrap : vec3)
  : loop_exit (float * vec3) (float * vec3) :=
  match k with
  | O => Exhausted (t, orbitTrap)
  | S k' =>
    let p := vadd ro (vmuls rd t) in
    let trap := undef3 in
    let '(d, trap) := sdSierpinski p trap in
    let orbitTrap := vmin orbitTrap trap in
    if (d <? HIT_THRESHOLD)%f32 then Returned (t, orbitTrap)
    else
      let t := (t + d * lit 6 10)%f32 in
      if (t >? MAX_DIST)%f32 then Broke (t, orbitTrap)
      else march_loop k' ro rd t orbitTrap
  end.

(** [rayMarch ro rd]: the returned value and the [out] parameter. *)
Definition rayMarch (ro rd : vec3) : float * vec3 :=
  match march_loop MAX_MARCH_STEPS ro rd (lit 0 1) trap_reset with
  | Returned (t, orbitTrap) => (t, orbitTrap)
  | Broke (_, orbitTrap) | Exhausted (_, orbitTrap) =>
    ((- lit 1 1)%f32, orbitTrap)
  end.

(** The distance sampled at parameter [t] of the ray, and the march
    parameters of the ray. *)
Definition sample (ro rd : vec3) (t : float) : float :=
  fst (sdSierpinski (vadd ro (vmuls rd t)) undef3).
Definition t_at (ro rd : vec3) (k : nat) : float :=
  t_seq (sample ro rd) (lit 6 10) k (lit 0 1).
Definition hits (ro rd : vec3) (k : nat) : bool :=
  hit_at (sample ro rd) HIT_THRESHOLD (lit 6 10) k (lit 0 1).
Definition leaves (ro rd : vec3) (k : nat) : bool :=
  far_at (sample ro rd) (lit 6 10) MAX_DIST k (lit 0 1).

(** Every component is a number between 0 and the reset value 1e10. *)
Definition in_trap_range (v : vec3) : bool :=
  ((lit 0 1 <=? vx v) && (vx v <=? of_Z (10 ^ 10)) &&
   (lit 0 1 <=? vy v) && (vy v <=? of_Z (10 ^ 10)) &&
   (lit 0 1 <=? vz v) && (vz v <=? of_Z (10 ^ 10)))%f32.

(** [calcAO]: the two variables its loop updates, one pass, the function. *)
Record ao_locals : Type := { ao_ao : float; ao_scale : float }.

Definition ao_body (p n : vec3) (i : Z) (s : ao_locals) : ao_locals :=
  let h := (lit 1 100 + lit 12 100 * of_Z i / lit 4 1)%f32 in
  let d := map (vadd p (vmuls n h)) in
  let ao := (ao_ao s + (h - d) * ao_scale s)%f32 in
  let scale := (ao_scale s * lit 85 100)%f32 in
  {| ao_ao := ao; ao_scale := scale |}.

Definition calcAO (p n : vec3) : float :=
  let '(s, _) :=
    for_loop (Z.to_nat (5 - 0)) 0 (ao_body p n)
      {| ao_ao := lit 0 1; ao_scale := lit 1 1 |} in
  clamp (lit 1 1 - lit 3 1 * ao_ao s)%f32 (lit 0 1) (lit 1 1).

(** The loop of [calcShadow], with [i] passes left; [res] and [t] are the
    variables it updates.  A [return] inside the loop hands back 0.0. *)
Fixpoint shadow_loop (i : nat) (ro rd : vec3) (maxt k : float)
  (res t : float) : loop_exit float float :=
  match i with
  | O => Exhausted res
  | S i' =>
      let h := map (vadd ro (vmuls rd t)) in
      if (h <? HIT_THRESHOLD)%f32 then Returned (lit 0 1)
      else
        let res := fmin res (k * h / t)%f32 in
        let t := (t + h)%f32 in
        if (t >? maxt)%f32 then Broke res
        else shadow_loop i' ro rd maxt k res t
  end.

Definition calcShadow (ro rd : vec3) (mint maxt k : float) : float :=
  match shadow_loop 32 ro rd maxt k (lit 1 1) mint with
  | Returned v => v
  | Broke res | Exhausted res => clamp res (lit 0 1) (lit 1 1)
  end.

(** *** One anti-aliasing sample of [main]

    The sky, the glow and the lighting of a hit call [sin], [cos], [exp]
    and [pow]; they are kept abstract.  [shade ro rd t orbitTrap] stands
    for the colour the body of [if (t > 0.0)] leaves in [col]. *)
Section Sample.
Variable getSkyColor : vec3 -> vec3.
Variable getVolumetricGlow : vec3 -> vec3 -> float -> vec3.
Variable shade : vec3 -> vec3 -> float -> vec3 -> vec3.

Definition sample_color (ro rd : vec3) : vec3 :=
  let col := getSkyColor rd in
  let '(t, orbitTrap) := rayMarch ro rd in
  let glow :=
    getVolumetricGlow ro rd (if (t >? lit 0 1)%f32 then t else MAX_DIST) in
  let col := if (t >? lit 0 1)%f32 then shade ro rd t orbitTrap else col in
  vadd col (vmuls glow (lit 2 1)).
End Sample.

(** *** The host program: application state and event handling *)

Inductive keysym : Type :=
  | SDLK_ESCAPE | SDLK_q | SDLK_SPACE
  | SDLK_UP | SDLK_DOWN | SDLK_LEFT | SDLK_RIGHT
  | SDLK_PLUS | SDLK_EQUALS | SDLK_MINUS | SDLK_r
  | SDLK_other.

Inductive event : Type :=
  | SDL_QUIT
  | SDL_KEYDOWN (sym : keysym)
  | SDL_WINDOWEVENT_RESIZED (data1 data2 : Z)
  | SDL_other.

Record app_state : Type :=
  { running : bool;
    colorPalette : Z;
    cameraOffsetX : float;
    cameraOffsetY : float;
    cameraDistance : float;
    windowWidth : Z;
    windowHeight : Z }.

(** A C [int]: 32 bits, two's complement. *)
Definition wrap_int (x : Z) : Z := (x + 2 ^ 31) mod 2 ^ 32 - 2 ^ 31.

Definition initial_state : app_state :=
  {| running := true;
     colorPalette := 0;
     cameraOffsetX := lit 0 1;
     cameraOffsetY := lit 0 1;
     cameraDistance := lit 9 2;
     windowWidth := 1920;
     windowHeight := 1080 |}.

Definition set_running (s : app_state) (b : bool) : app_state :=
  {| running := b; colorPalette := colorPalette s;
     cameraOffsetX := cameraOffsetX s; cameraOffsetY := cameraOffsetY s;
     cameraDistance := cameraDistance s;
     windowWidth := windowWidth s; windowHeight := windowHeight s |}.
Definition set_colorPalette (s : app_state) (c : Z) : app_state :=
  {| running := running s; colorPalette := c;
     cameraOffsetX := cameraOffsetX s; cameraOffsetY := cameraOffsetY s;
     cameraDistance := cameraDistance s;
     windowWidth := windowWidth s; windowHeight := windowHeight s |}.
Definition set_cameraOffsetX (s : app_state) (x : float) : app_state :=
  {| running := running s; colorPalette := colorPalette s;
     cameraOffsetX := x; cameraOffsetY := cameraOffsetY s;
     cameraDistance := cameraDistance s;
     windowWidth := windowWidth s; windowHeight := windowHeight s |}.
Definition set_cameraOffsetY (s : app_state) (y : float) : app_state :=
  {| running := running s; colorPalette := colorPalette s;
     cameraOffsetX := cameraOffsetX s; cameraOffsetY := y;
     cameraDistance := cameraDistance s;
     windowWidth := windowWidth s; windowHeight := windowHeight s |}.
Definition set_cameraDistance (s : app_state) (d : float) : app_state :=
  {| running := running s; colorPalette := colorPalette s;
     cameraOffsetX := cameraOffsetX s; cameraOffsetY := cameraOffsetY s;
     cameraDistance := d;
     windowWidth := windowWidth s; windowHeight := windowHeight s |}.
Definition set_window (s : app_state) (w h : Z) : app_state :=
  {| running := running s; colorPalette := colorPalette s;
     cameraOffsetX := cameraOffsetX s; cameraOffsetY := cameraOffsetY s;
     cameraDistance := cameraDistance s;
     windowWidth := w; windowHeight := h |}.

(** The [switch] on the key of an [SDL_KEYDOWN] event. *)
Definition handle_key (sym : keysym) (s : app_state) : app_state :=
  match sym with
  | SDLK_ESCAPE | SDLK_q => set_running s false
  | SDLK_SPACE =>
    set_colorPalette s (Z.rem (wrap_int (colorPalette s + 1)) 4)
  | SDLK_UP => set_cameraOffsetY s (cameraOffsetY s + lit 1 10)%f32
  | SDLK_DOWN => set_cameraOffsetY s (cameraOffsetY s - lit 1 10)%f32
  | SDLK_LEFT => set_cameraOffsetX s (cameraOffsetX s - lit 1 10)%f32
  | SDLK_RIGHT => set_cameraOffsetX s (cameraOffsetX s + lit 1 10)%f32
  | SDLK_PLUS | SDLK_EQUALS =>
    let d := (cameraDistance s - lit 2 10)%f32 in
    set_cameraDistance s (if (d <? lit 2 1)%f32 then lit 2 1 else d)
  | SDLK_MINUS =>
    let d := (cameraDistance s + lit 2 10)%f32 in
    set_cameraDistance s (if (d >? lit 10 1)%f32 then lit 10 1 else d)
  | SDLK_r =>
    set_cameraDistance
      (set_cameraOffsetY (set_cameraOffsetX s (lit 0 1)) (lit 0 1))
      (lit 9 2)
  | SDLK_other => s
  end.

(** The body of [while (SDL_PollEvent(&event))]. *)
Definition handle_event (s : app_state) (e : event) : app_state :=
  match e with
  | SDL_QUIT => set_running s false
  | SDL_KEYDOWN sym => handle_key sym s
  | SDL_WINDOWEVENT_RESIZED data1 data2 => set_window s data1 data2
  | SDL_other => s
  end.

(** The inner loop: the events that are pending at one frame, in order. *)
Definition poll_events (s : app_state) (pending : list event) : app_state :=
  fold_left handle_event pending s.

(** The outer loop [while (running)]: one list of pending events per frame.
    The frames after the one that cleared [running] are never reached. *)
Fixpoint main_loop (frames : list (list event)) (s : app_state) : app_state :=
  match frames with
  | [] => s
  | pending :: rest =>
    if running s then main_loop rest (poll_events s pending) else s
  end.

(** Which events can touch which part of the state. *)
Definition is_quit (e : event) : bool :=
  match e with
  | SDL_QUIT | SDL_KEYDOWN SDLK_ESCAPE | SDL_KEYDOWN SDLK_q => true
  | _ => false
  end.
Definition is_space (e : event) : bool :=
  match e with SDL_KEYDOWN SDLK_SPACE => true | _ => false end.
Definition moves_distance (e : event) : bool :=
  match e with
  | SDL_KEYDOWN (SDLK_PLUS | SDLK_EQUALS | SDLK_MINUS | SDLK_r) => true
  | _ => false
  end.
Definition moves_offsetX (e : event) : bool :=
  match e with
  | SDL_KEYDOWN (SDLK_LEFT | SDLK_RIGHT | SDLK_r) => true
  | _ => false
  end.
Definition moves_offsetY (e : event) : bool :=
  match e with
  | SDL_KEYDOWN (SDLK_UP | SDLK_DOWN | SDLK_r) => true
  | _ => false
  end.
Definition is_resize (e : event) : bool :=
  match e with SDL_WINDOWEVENT_RESIZED _ _ => true | _ => false end.

(** The frames the main loop runs: up to and including the first one in
    which a quit event is pending. *)
Fixpoint frames_run (frames : list (list event)) : list (list event) :=
  match frames with
  | [] => []
  | pending :: rest =>
      if existsb is_quit pending then [pending] else pending :: frames_run rest
  end.

(** [multiplyMat3].  Pointers are addresses into a memory of floats; [temp]
    is the local array, with indeterminate content at first. *)
Definition memory : Type := Z -> float.
Definition store (m : memory) (a : Z) (v : float) : memory :=
  fun x => if x =? a then v else m x.

Definition multiplyMat3 (mem : memory) (result a b : Z) : memory :=
  let temp : memory := fun _ => undef in
  let '(temp, _) :=
    for_loop (Z.to_nat (3 - 0)) 0 (fun (i : Z) (temp : memory) =>
      fst (for_loop (Z.to_nat (3 - 0)) 0 (fun (j : Z) (temp : memory) =>
        let temp := store temp (i * 3 + j) (lit 0 1) in
        fst (for_loop (Z.to_nat (3 - 0)) 0 (fun (k : Z) (temp : memory) =>
          store temp (i * 3 + j)
            (add (temp (i * 3 + j))
               (mul (mem (a + (i * 3 + k))) (mem (b + (k * 3 + j))))))
          temp)) temp)) temp in
  fst (for_loop (Z.to_nat (9 - 0)) 0 (fun (i : Z) (mem : memory) =>
         store mem (result + i) (temp i)) mem).

(** The camera distances that key presses can produce from 4.5: the closure
    of the initial distance under the two zoom handlers, found breadth
    first.  [zoom_in] and [zoom_out] are the handlers of '+' and '-' read as
    functions of the distance. *)
Definition zoom_in (d : float) : float :=
  cameraDistance (handle_key SDLK_PLUS (set_cameraDistance initial_state d)).
Definition zoom_out (d : float) : float :=
  cameraDistance (handle_key SDLK_MINUS (set_cameraDistance initial_state d)).

Definition mem_float (x : float) (l : list float) : bool :=
  existsb (fun y =>
    match x, y with
    | S754_finite s m e, S754_finite s' m' e' =>
        Bool.eqb s s' && Pos.eqb m m' && Z.eqb e e'
    | _, _ => false
    end) l.

Fixpoint close_under (fuel : nat) (seen frontier : list float) : list float :=
  match fuel with
  | O => seen
  | S fuel' =>
    let step :=
      fold_left (fun acc d =>
        let acc := if mem_float (zoom_in d) acc then acc
                   else zoom_in d :: acc in
        if mem_float (zoom_out d) acc then acc else zoom_out d :: acc)
        frontier [] in
    let fresh := filter (fun d => negb (mem_float d seen)) step in
    match fresh with
    | [] => seen
    | _ => close_under fuel' (fresh ++ seen) fresh
    end
  end.

Definition reachable_distances : list float :=
  Eval vm_compute in close_under 200 [lit 9 2] [lit 9 2].

(** What the event handlers keep: the camera distance is one of the
    reachable ones and the palette index is one of the four. *)
Definition camera_invariant (s : app_state) : Prop :=
  In (cameraDistance s) reachable_distances /\ 0 <= colorPalette s <= 3.

End Enhanced.

(** ** The palette of the enhanced variant

    [getColorPalette] is binary32 arithmetic around one call of the GLSL
    built-in [cos] on a vector.  GLSL leaves the precision of [cos] to the
    implementation, so the built-in is a parameter here: a function from
    binary32 to binary32 about which nothing is assumed.  A theorem that
    needs the built-in to be close to the cosine says how close, with
    [cos_within]. *)

Module Palette.

(** [const float TAU = 6.28318530718], as the binary32 nearest to it. *)
Definition TAU : float := lit 628318530718 100000000000.

Section Cosine.
Variable cos : float -> float.

(** [cos] of a vector, component by component. *)
Definition vcos (v : vec3) : vec3 :=
  Vec3 (cos (vx v)) (cos (vy v)) (cos (vz v)).

Definition getColorPalette (t : float) (palette : Z) : vec3 :=
  if palette =? 0 then
    saddv (lit 5 10)
      (smulv (lit 5 10)
         (vcos (smulv TAU
                  (saddv t (Vec3 (lit 0 1) (lit 33 100) (lit 67 100))))))
  else if palette =? 1 then
    saddv (lit 5 10)
      (smulv (lit 5 10)
         (vcos (smulv TAU
                  (saddv t (Vec3 (lit 0 1) (lit 1 10) (lit 2 10))))))
  else if palette =? 2 then
    saddv (lit 5 10)
      (smulv (lit 5 10)
         (vcos (smulv TAU
                  (saddv t (Vec3 (lit 6 10) (lit 5 10) (lit 8 10))))))
  else
    saddv (lit 5 10)
      (smulv (lit 5 10)
         (vcos (smulv TAU
                  (saddv t (Vec3 (lit 15 100) (lit 1 10) (lit 0 1)))))).

End Cosine.

(** The vector that [getColorPalette] hands to [cos]. *)
Definition cos_argument (t : float) (palette : Z) : vec3 :=
  if palette =? 0 then
    smulv TAU (saddv t (Vec3 (lit 0 1) (lit 33 100) (lit 67 100)))
  else if palette =? 1 then
    smulv TAU (saddv t (Vec3 (lit 0 1) (lit 1 10) (lit 2 10)))
  else if palette =? 2 then
    smulv TAU (saddv t (Vec3 (lit 6 10) (lit 5 10) (lit 8 10)))
  else
    smulv TAU (saddv t (Vec3 (lit 15 100) (lit 1 10) (lit 0 1))).



End Palette.

(** ** The host programs: start-up, shader set-up and shut-down

    The host functions act through calls to SDL, GLEW and OpenGL.  A run is
    modelled by the list of the calls it makes, each with the handle it
    concerns and the value the library handed back; what the libraries
    answer is given by a [platform].  [compileShader] and
    [createShaderProgram] record every call they make.  [main] records the
    calls that create or destroy an object, the GLEW start-up and the
    messages to [stderr]; the calls that set attributes, fill the vertex
    buffer, look up and set uniforms, draw, swap buffers and print to
    [stdout] are not recorded. *)

Inductive shader_type : Type := GL_VERTEX_SHADER | GL_FRAGMENT_SHADER.

Inductive message : Type :=
  | SDL_initialization_failed
  | Window_creation_failed
  | OpenGL_context_creation_failed
  | GLEW_initialization_failed
  | Shader_compilation_failed
  | Program_linking_failed.

Inductive call : Type :=
  | SDL_Init (result : Z)
  | SDL_CreateWindow (result : Z)
  | SDL_GL_CreateContext (window result : Z)
  | glewInit (result : Z)
  | glCreateShader (type : shader_type) (result : Z)
  | glShaderSource (shader : Z)
  | glCompileShader (shader : Z)
  | glGetShaderiv (shader success : Z)
  | glGetShaderInfoLog (shader : Z)
  | glCreateProgram (result : Z)
  | glAttachShader (program shader : Z)
  | glLinkProgram (program : Z)
  | glGetProgramiv (program success : Z)
  | glGetProgramInfoLog (program : Z)
  | glDeleteShader (shader : Z)
  | glGenVertexArrays (result : Z)
  | glGenBuffers (result : Z)
  | glDeleteVertexArrays (array : Z)
  | glDeleteBuffers (buffer : Z)
  | glDeleteProgram (program : Z)
  | SDL_GL_DeleteContext (context : Z)
  | SDL_DestroyWindow (window : Z)
  | SDL_Quit
  | fprintf_stderr (text : message).

(** What the libraries answer.  [SDL_Init] reports failure by a negative
    value, [SDL_CreateWindow] and [SDL_GL_CreateContext] by a null pointer,
    [glewInit] by a value other than [GLEW_OK], which is 0; a compile or
    link status of 0 is a failure. *)
Record platform : Type :=
  { SDL_Init_result : Z;
    window : Z;
    glContext : Z;
    glewError : Z;
    shader_name : shader_type -> Z;
    COMPILE_STATUS : shader_type -> Z;
    program_name : Z;
    LINK_STATUS : Z;
    vao : Z;
    vbo : Z }.

(** A computation that makes calls and hands back a value. *)
Definition prog (A : Type) : Type := list call * A.

Definition ret {A : Type} (a : A) : prog A := ([], a).
Definition bind {A B : Type} (m : prog A) (k : A -> prog B) : prog B :=
  let '(calls, a) := m in
  let '(calls', b) := k a in
  (calls ++ calls', b).
Definition do (c : call) : prog unit := ([c], tt).

Declare Scope prog_scope.
Delimit Scope prog_scope with prog.
Notation "x <- m ;; k" := (bind m (fun x => k))
  (at level 61, m at next level, right associativity) : prog_scope.
Notation "m ;; k" := (bind m (fun _ => k))
  (at level 61, right associativity) : prog_scope.

Definition calls_of {A : Type} (m : prog A) : list call := fst m.
Definition value_of {A : Type} (m : prog A) : A := snd m.

(** The SDL objects: the library itself, a window, a context.  The programs
    acquire them in this order. *)
Inductive resource : Type :=
  | The_library
  | The_window (window : Z)
  | The_context (context : Z).

Definition is_context (r : resource) : bool :=
  match r with The_context _ => true | _ => false end.

(** Calls that need a current OpenGL context. *)
Definition needs_context (c : call) : bool :=
  match c with
  | SDL_Init _ | SDL_CreateWindow _ | SDL_GL_CreateContext _ _
  | SDL_GL_DeleteContext _ | SDL_DestroyWindow _ | SDL_Quit
  | fprintf_stderr _ => false
  | _ => true
  end.

(** The effect of one call on the stack of live SDL objects, most recent
    first.  [None]: the call releases an object that is not the most recent
    live one, creates a window without the library or a context without its
    window, or needs a context while none is live. *)
Definition sdl_step (live : list resource) (c : call)
  : option (list resource) :=
  match c with
  | SDL_Init result =>
    match live with
    | [] => if result <? 0 then Some live else Some (The_library :: live)
    | _ => None
    end
  | SDL_CreateWindow result =>
    match live with
    | The_library :: _ =>
      if result =? 0 then Some live else Some (The_window result :: live)
    | _ => None
    end
  | SDL_GL_CreateContext w result =>
    match live with
    | The_window w' :: _ =>
      if w =? w' then
        if result =? 0 then Some live else Some (The_context result :: live)
      else None
    | _ => None
    end
  | SDL_GL_DeleteContext context =>
    match live with
    | The_context c' :: rest => if context =? c' then Some rest else None
    | _ => None
    end
  | SDL_DestroyWindow w =>
    match live with
    | The_window w' :: rest => if w =? w' then Some rest else None
    | _ => None
    end
  | SDL_Quit =>
    match live with
    | The_library :: rest => Some rest
    | _ => None
    end
  | _ =>
    if needs_context c then
      if existsb is_context live then Some live else None
    else Some live
  end.

Fixpoint sdl_run (live : list resource) (calls : list call)
  : option (list resource) :=
  match calls with
  | [] => Some live
  | c :: rest =>
    match sdl_step live c with
    | Some live' => sdl_run live' rest
    | None => None
    end
  end.

(** The OpenGL objects a run has created and not deleted, by kind.  A name
    of 0 is no object: the [glCreate] functions answer 0 when they fail,
    and the [glDelete] functions ignore it. *)
Inductive gl_object : Type :=
  | A_shader (name : Z)
  | A_program (name : Z)
  | A_vertex_array (name : Z)
  | A_buffer (name : Z).

Definition gl_object_eqb (x y : gl_object) : bool :=
  match x, y with
  | A_shader a, A_shader b | A_program a, A_program b
  | A_vertex_array a, A_vertex_array b | A_buffer a, A_buffer b => a =? b
  | _, _ => false
  end.

Definition created (c : call) : option gl_object :=
  match c with
  | glCreateShader _ result => Some (A_shader result)
  | glCreateProgram result => Some (A_program result)
  | glGenVertexArrays result => Some (A_vertex_array result)
  | glGenBuffers result => Some (A_buffer result)
  | _ => None
  end.

Definition deleted (c : call) : option gl_object :=
  match c with
  | glDeleteShader name => Some (A_shader name)
  | glDeleteProgram name => Some (A_program name)
  | glDeleteVertexArrays name => Some (A_vertex_array name)
  | glDeleteBuffers name => Some (A_buffer name)
  | _ => None
  end.

Definition name_of (x : gl_object) : Z :=
  match x with
  | A_shader n | A_program n | A_vertex_array n | A_buffer n => n
  end.

Fixpoint remove_one (x : gl_object) (l : list gl_object) : list gl_object :=
  match l with
  | [] => []
  | y :: rest => if gl_object_eqb x y then rest else y :: remove_one x rest
  end.

Definition gl_step (live : list gl_object) (c : call) : list gl_object :=
  match created c, deleted c with
  | Some x, _ => if name_of x =? 0 then live else x :: live
  | None, Some x => remove_one x live
  | None, None => live
  end.

Definition gl_live (calls : list call) : list gl_object :=
  fold_left gl_step calls [].

(** *** [sierpinski.c] *)

Module SimpleHost.
Local Open Scope prog_scope.

Definition compileShader (gl : platform) (type : shader_type) : prog Z :=
  let shader := shader_name gl type in
  do (glCreateShader type shader) ;;
  do (glShaderSource shader) ;;
  do (glCompileShader shader) ;;
  let success := COMPILE_STATUS gl type in
  do (glGetShaderiv shader success) ;;
  (if success =? 0 then
     do (glGetShaderInfoLog shader) ;;
     do (fprintf_stderr Shader_compilation_failed)
   else ret tt) ;;
  ret shader.

Definition createShaderProgram (gl : platform) : prog Z :=
  vertShader <- compileShader gl GL_VERTEX_SHADER ;;
  fragShader <- compileShader gl GL_FRAGMENT_SHADER ;;
  let program := program_name gl in
  do (glCreateProgram program) ;;
  do (glAttachShader program vertShader) ;;
  do (glAttachShader program fragShader) ;;
  do (glLinkProgram program) ;;
  let success := LINK_STATUS gl in
  do (glGetProgramiv program success) ;;
  (if success =? 0 then
     do (glGetProgramInfoLog program) ;;
     do (fprintf_stderr Program_linking_failed)
   else ret tt) ;;
  do (glDeleteShader vertShader) ;;
  do (glDeleteShader fragShader) ;;
  ret program.

(** The event loop: a window close or ESC clears [running]. *)
Definition handle_event (running : bool) (e : Enhanced.event) : bool :=
  match e with
  | Enhanced.SDL_QUIT => false
  | Enhanced.SDL_KEYDOWN Enhanced.SDLK_ESCAPE => false
  | _ => running
  end.

Definition is_quit (e : Enhanced.event) : bool :=
  match e with
  | Enhanced.SDL_QUIT | Enhanced.SDL_KEYDOWN Enhanced.SDLK_ESCAPE => true
  | _ => false
  end.

Definition poll_events (running : bool) (pending : list Enhanced.event)
  : bool :=
  fold_left handle_event pending running.

Fixpoint main_loop (frames : list (list Enhanced.event)) (running : bool)
  : bool :=
  match frames with
  | [] => running
  | pending :: rest =>
    if running then main_loop rest (poll_events running pending)
    else running
  end.

(** [main]: the value is the exit status, or [None] when the frames given
    run out while [running] still holds. *)
Definition main (gl : platform) (frames : list (list Enhanced.event))
  : prog (option Z) :=
  do (SDL_Init (SDL_Init_result gl)) ;;
  if SDL_Init_result gl <? 0 then
    do (fprintf_stderr SDL_initialization_failed) ;;
    ret (Some 1)
  else
  let window := window gl in
  do (SDL_CreateWindow window) ;;
  if window =? 0 then
    do (fprintf_stderr Window_creation_failed) ;;
    do SDL_Quit ;;
    ret (Some 1)
  else
  let context := glContext gl in
  do (SDL_GL_CreateContext window context) ;;
  if context =? 0 then
    do (fprintf_stderr OpenGL_context_creation_failed) ;;
    do (SDL_DestroyWindow window) ;;
    do SDL_Quit ;;
    ret (Some 1)
  else
  let glewStatus := glewError gl in
  do (glewInit glewStatus) ;;
  if negb (glewStatus =? 0) then
    do (fprintf_stderr GLEW_initialization_failed) ;;
    do (SDL_GL_DeleteContext context) ;;
    do (SDL_DestroyWindow window) ;;
    do SDL_Quit ;;
    ret (Some 1)
  else
  shaderProgram <- createShaderProgram gl ;;
  let VAO := vao gl in
  let VBO := vbo gl in
  do (glGenVertexArrays VAO) ;;
  do (glGenBuffers VBO) ;;
  let running := true in
  let running := main_loop frames running in
  if running then ret None
  else
  do (glDeleteVertexArrays VAO) ;;
  do (glDeleteBuffers VBO) ;;
  do (glDeleteProgram shaderProgram) ;;
  do (SDL_GL_DeleteContext context) ;;
  do (SDL_DestroyWindow window) ;;
  do SDL_Quit ;;
  ret (Some 0).

End SimpleHost.

(** *** [sierpinski_enhanced.c] *)

Module EnhancedHost.
Local Open Scope prog_scope.

Definition compileShader (gl : platform) (type : shader_type) : prog Z :=
  let shader := shader_name gl type in
  do (glCreateShader type shader) ;;
  do (glShaderSource shader) ;;
  do (glCompileShader shader) ;;
  let success := COMPILE_STATUS gl type in
  do (glGetShaderiv shader success) ;;
  if success =? 0 then
    do (glGetShaderInfoLog shader) ;;
    do (fprintf_stderr Shader_compilation_failed) ;;
    ret 0
  else
  ret shader.

Definition createShaderProgram (gl : platform) : prog Z :=
  vertShader <- compileShader gl GL_VERTEX_SHADER ;;
  fragShader <- compileShader gl GL_FRAGMENT_SHADER ;;
  if (vertShader =? 0) || (fragShader =? 0) then ret 0
  else
  let program := program_name gl in
  do (glCreateProgram program) ;;
  do (glAttachShader program vertShader) ;;
  do (glAttachShader program fragShader) ;;
  do (glLinkProgram program) ;;
  let success := LINK_STATUS gl in
  do (glGetProgramiv program success) ;;
  if success =? 0 then
    do (glGetProgramInfoLog program) ;;
    do (fprintf_stderr Program_linking_failed) ;;
    ret 0
  else
  do (glDeleteShader vertShader) ;;
  do (glDeleteShader fragShader) ;;
  ret program.

(** [main]: the value is the exit status, or [None] when the frames given
    run out while [running] still holds. *)
Definition main (gl : platform) (frames : list (list Enhanced.event))
  : prog (option Z) :=
  do (SDL_Init (SDL_Init_result gl)) ;;
  if SDL_Init_result gl <? 0 then
    do (fprintf_stderr SDL_initialization_failed) ;;
    ret (Some 1)
  else
  let window := window gl in
  do (SDL_CreateWindow window) ;;
  if window =? 0 then
    do (fprintf_stderr Window_creation_failed) ;;
    do SDL_Quit ;;
    ret (Some 1)
  else
  let glContext := glContext gl in
  do (SDL_GL_CreateContext window glContext) ;;
  if glContext =? 0 then
    do (fprintf_stderr OpenGL_context_creation_failed) ;;
    do (SDL_DestroyWindow window) ;;
    do SDL_Quit ;;
    ret (Some 1)
  else
  let glewError := glewError gl in
  do (glewInit glewError) ;;
  if negb (glewError =? 0) then
    do (fprintf_stderr GLEW_initialization_failed) ;;
    do (SDL_GL_DeleteContext glContext) ;;
    do (SDL_DestroyWindow window) ;;
    do SDL_Quit ;;
    ret (Some 1)
  else
  shaderProgram <- createShaderProgram gl ;;
  if shaderProgram =? 0 then
    do (SDL_GL_DeleteContext glContext) ;;
    do (SDL_DestroyWindow window) ;;
    do SDL_Quit ;;
    ret (Some 1)
  else
  let vao := vao gl in
  let vbo := vbo gl in
  do (glGenVertexArrays vao) ;;
  do (glGenBuffers vbo) ;;
  let s := Enhanced.main_loop frames Enhanced.initial_state in
  if Enhanced.running s then ret None
  else
  do (glDeleteVertexArrays vao) ;;
  do (glDeleteBuffers vbo) ;;
  do (glDeleteProgram shaderProgram) ;;
  do (SDL_GL_DeleteContext glContext) ;;
  do (SDL_DestroyWindow window) ;;
  do SDL_Quit ;;
  ret (Some 0).

End EnhancedHost.

(** *** The runs in pieces

    The calls of one [compileShader] up to the status query, the calls that
    report a failed compile, and the same for the link.  They serve to write
    down the call list of a run. *)

Definition compile_calls (gl : platform) (type : shader_type) : list call :=
  [glCreateShader type (shader_name gl type);
   glShaderSource (shader_name gl type);
   glCompileShader (shader_name gl type);
   glGetShaderiv (shader_name gl type) (COMPILE_STATUS gl type)].

Definition compile_report (gl : platform) (type : shader_type) : list call :=
  if COMPILE_STATUS gl type =? 0
  then [glGetShaderInfoLog (shader_name gl type);
        fprintf_stderr Shader_compilation_failed]
  else [].

Definition link_calls (gl : platform) : list call :=
  [glCreateProgram (program_name gl);
   glAttachShader (program_name gl) (shader_name gl GL_VERTEX_SHADER);
   glAttachShader (program_name gl) (shader_name gl GL_FRAGMENT_SHADER);
   glLinkProgram (program_name gl);
   glGetProgramiv (program_name gl) (LINK_STATUS gl)].

Definition link_report (gl : platform) : list call :=
  if LINK_STATUS gl =? 0
  then [glGetProgramInfoLog (program_name gl);
        fprintf_stderr Program_linking_failed]
  else [].

(** * Properties *)

(** ** Facts about binary32 *)

Section FloatFacts.

Lemma round_aux_nonneg (m : Z) (e : Z) (l : location) :
  nonneg (binary_round_aux prec emax false m e l) = true.
Proof.
  unfold binary_round_aux.
  destruct (shr_fexp prec emax m e l) as [mrs e'].
  destruct (shr_fexp prec emax _ e' loc_Exact) as [mrs' e''].
  destruct (shr_m mrs'); [reflexivity | | reflexivity].
  destruct (e'' <=? emax - prec); reflexivity.
Qed.

Lemma round_nonneg (m : positive) (e : Z) :
  nonneg (binary_round prec emax false m e) = true.
Proof.
  unfold binary_round.
  destruct (shl_align m e _) as [mz ez].
  apply round_aux_nonneg.
Qed.

Lemma nonneg_mul (x y : float) :
  nonneg x = true -> nonneg y = true -> nonneg (x * y)%f32 = true.
Proof.
  destruct x as [sx | sx | | sx mx ex], y as [sy | sy | | sy my ey];
    simpl; intros Hx Hy; try reflexivity;
    try (apply negb_true_iff in Hx; subst sx);
    try (apply negb_true_iff in Hy; subst sy);
    try reflexivity.
  apply round_aux_nonneg.
Qed.

Lemma nonneg_div (x : float) (my : positive) (ey : Z) :
  nonneg x = true -> nonneg (x / S754_finite false my ey)%f32 = true.
Proof.
  destruct x as [sx | sx | | sx mx ex]; simpl; intros Hx;
    try reflexivity;
    try (apply negb_true_iff in Hx; subst sx; reflexivity).
  apply negb_true_iff in Hx; subst sx.
  unfold div, SFdiv.
  destruct (SFdiv_core_binary prec emax (Z.pos mx) ex (Z.pos my) ey)
    as [[mz ez] lz].
  apply round_aux_nonneg.
Qed.

Lemma nonneg_add (x y : float) :
  nonneg x = true -> nonneg y = true -> nonneg (x + y)%f32 = true.
Proof.
  destruct x as [sx | sx | | sx mx ex], y as [sy | sy | | sy my ey];
    simpl; intros Hx Hy; try reflexivity;
    try (apply negb_true_iff in Hx; subst sx);
    try (apply negb_true_iff in Hy; subst sy);
    try reflexivity;
    try (destruct sx, sy; reflexivity);
    try (destruct sx; reflexivity);
    try (destruct sy; reflexivity).
  unfold add, SFadd, cond_Zopp.
  apply round_nonneg.
Qed.

Lemma nonneg_sqrt (x : float) : nonneg (sqrt x) = true.
Proof.
  destruct x as [sx | [|] | | [|] mx ex]; try reflexivity.
  unfold sqrt, SFsqrt.
  destruct (SFsqrt_core_binary prec emax (Z.pos mx) ex) as [[mz ez] lz].
  apply round_aux_nonneg.
Qed.

Lemma mul_nan_r (x : float) : (x * S754_nan)%f32 = S754_nan.
Proof. destruct x; reflexivity. Qed.

Lemma add_nan_r (x : float) : (x + S754_nan)%f32 = S754_nan.
Proof. destruct x; reflexivity. Qed.

Lemma ltb_nan_l (y : float) : (S754_nan <? y)%f32 = false.
Proof. reflexivity. Qed.

(** A value under a finite bound that is not below zero is a number. *)
Lemma nonneg_ltb_finite (x y : float) :
  nonneg x = true -> (x <? y)%f32 = true -> is_finite x = true.
Proof.
  destruct x as [sx | sx | | sx mx ex]; simpl; intros Hx Hlt;
    try reflexivity; try discriminate.
  apply negb_true_iff in Hx; subst sx.
  destruct y as [sy | [|] | | sy my ey]; discriminate.
Qed.

Lemma nonneg_not_gtb_finite (x y : float) :
  nonneg x = true -> is_nan x = false -> is_finite y = true ->
  (x >? y)%f32 = false -> is_finite x = true.
Proof.
  destruct x as [sx | sx | | sx mx ex]; simpl; intros Hx Hn Hy Hgt;
    try reflexivity; try discriminate.
  apply negb_true_iff in Hx; subst sx.
  destruct y as [sy | [|] | | sy my ey]; discriminate.
Qed.

Lemma nonneg_finite_leb_zero (x : float) :
  nonneg x = true -> is_finite x = true -> (lit 0 1 <=? x)%f32 = true.
Proof.
  destruct x as [sx | sx | | sx mx ex]; simpl; intros Hx Hf;
    try reflexivity; try discriminate.
  apply negb_true_iff in Hx; subst sx. reflexivity.
Qed.

Lemma nonneg_not_minus_one (x : float) :
  nonneg x = true -> x <> (- lit 1 1)%f32.
Proof. intros Hx ->. discriminate. Qed.

(** The order of the comparison on the values that are not NaN. *)
Lemma compare_refl (x : float) :
  is_nan x = false -> SFcompare x x = Some Eq.
Proof.
  destruct x as [sx | [|] | | [|] mx ex]; simpl; intros H;
    try reflexivity; try discriminate;
    rewrite Z.compare_refl, Pos.compare_cont_refl; reflexivity.
Qed.

Lemma leb_refl (x : float) : is_nan x = false -> (x <=? x)%f32 = true.
Proof. intros H. unfold leb, SFleb. now rewrite compare_refl. Qed.

Lemma ltb_leb (x y : float) : (x <? y)%f32 = true -> (x <=? y)%f32 = true.
Proof.
  unfold ltb, leb, SFltb, SFleb.
  destruct (SFcompare x y) as [[| |]|]; congruence.
Qed.

Lemma ltb_not_nan_l (x y : float) : (x <? y)%f32 = true -> is_nan x = false.
Proof. destruct x; try reflexivity. discriminate. Qed.

Lemma fmin_leb (x y : float) :
  is_nan x = false -> (fmin x y <=? x)%f32 = true.
Proof.
  intros Hx. unfold fmin. destruct (y <? x)%f32 eqn:E.
  - now apply ltb_leb.
  - now apply leb_refl.
Qed.

Lemma fmin_not_nan (x y : float) :
  is_nan x = false -> is_nan (fmin x y) = false.
Proof.
  intros Hx. unfold fmin. destruct (y <? x)%f32 eqn:E; [|exact Hx].
  now apply ltb_not_nan_l in E.
Qed.

End FloatFacts.
Section FloatOrder.

Ltac cmp_cases :=
  repeat match goal with
  | |- context [Z.compare ?a ?b] =>
      let H := fresh in destruct (Z.compare_spec a b) as [H | H | H];
      [try subst | |]
  | |- context [Pos.compare_cont Eq ?a ?b] =>
      change (Pos.compare_cont Eq a b) with (Pos.compare a b)
  | |- context [Pos.compare ?a ?b] =>
      let H := fresh in destruct (Pos.compare_spec a b) as [H | H | H];
      [try subst | |]
  end; simpl in *; try discriminate; try reflexivity; try lia.

Lemma ltb_irrefl (x : float) : (x <? x)%f32 = false.
Proof.
  destruct x as [s | [|] | | [|] m e]; try reflexivity;
    unfold ltb, SFltb, SFcompare;
    rewrite Z.compare_refl, Pos.compare_cont_refl; reflexivity.
Qed.

Lemma ltb_trans (x y z : float) :
  (x <? y)%f32 = true -> (y <? z)%f32 = true -> (x <? z)%f32 = true.
Proof.
  unfold ltb, SFltb, SFcompare.
  destruct x as [sx | [|] | | [|] mx ex], y as [sy | [|] | | [|] my ey],
    z as [sz | [|] | | [|] mz ez]; try discriminate; try reflexivity;
    intros H1 H2; revert H1 H2; cmp_cases.
Qed.

Lemma eqb_ltb_trans (x y z : float) :
  eqb x y = true -> (y <? z)%f32 = true -> (x <? z)%f32 = true.
Proof.
  unfold eqb, ltb, SFeqb, SFltb, SFcompare.
  destruct x as [sx | [|] | | [|] mx ex], y as [sy | [|] | | [|] my ey],
    z as [sz | [|] | | [|] mz ez]; try discriminate; try reflexivity;
    intros H1 H2; revert H1 H2; cmp_cases.
Qed.

Lemma ltb_asym (x y : float) : (x <? y)%f32 = true -> (y <? x)%f32 = false.
Proof.
  intros H. destruct (y <? x)%f32 eqn:E; [|reflexivity].
  pose proof (ltb_trans _ _ _ H E) as C. now rewrite ltb_irrefl in C.
Qed.

Lemma eqb_not_ltb (x y : float) : eqb x y = true -> (y <? x)%f32 = false.
Proof.
  intros H. destruct (y <? x)%f32 eqn:E; [|reflexivity].
  pose proof (eqb_ltb_trans _ _ _ H E) as C. now rewrite ltb_irrefl in C.
Qed.

End FloatOrder.

(** Closes a goal about the order of a handful of values: saturates the
    strict comparisons in the context and looks for a cycle. *)
Ltac order_saturate :=
  repeat match goal with
  | H1 : (?a <? ?b)%f32 = true, H2 : (?b <? ?c)%f32 = true |- _ =>
      lazymatch goal with
      | _ : (a <? c)%f32 = true |- _ => fail
      | _ => pose proof (ltb_trans _ _ _ H1 H2)
      end
  | H1 : eqb ?a ?b = true, H2 : (?b <? ?c)%f32 = true |- _ =>
      lazymatch goal with
      | _ : (a <? c)%f32 = true |- _ => fail
      | _ => pose proof (eqb_ltb_trans _ _ _ H1 H2)
      end
  end.

Ltac order_contra :=
  order_saturate;
  repeat match goal with
  | H : (?a <? ?a)%f32 = true |- _ => rewrite ltb_irrefl in H; discriminate
  | H : eqb ?a ?b = true |- _ =>
      lazymatch goal with
      | _ : (b <? a)%f32 = false |- _ => fail
      | _ => pose proof (eqb_not_ltb _ _ H)
      end
  end;
  congruence.

Ltac order_false :=
  match goal with
  | |- (?a <? ?b)%f32 = false =>
      let E := fresh "E" in
      destruct (a <? b)%f32 eqn:E; [exfalso; order_contra | reflexivity]
  end.

Section SimpleNearest.
Import Simple.

Lemma nearest_index_range (p : vec3) : (nearest_index p < 4)%nat.
Proof.
  unfold nearest_index. cbn [fold_left fst].
  repeat match goal with
  | |- context [if ?b then _ else _] => destruct b
  end; cbn [fst]; lia.
Qed.

Ltac scan_cases :=
  unfold nearestVertex, nearest_index;
  cbn [fold_left fst vertices nth];
  repeat match goal with
  | |- context [if (?a <? ?b)%f32 then _ else _] =>
      destruct (a <? b)%f32 eqn:?; cbn [fst nth]
  end.

(** No vertex is strictly nearer than the selected one. *)
Lemma nearest_is_nearest (p : vec3) (i : nat) :
  (i < 4)%nat ->
  (dist_to p (nth i vertices a1) <? dist_to p (nearestVertex p))%f32 = false.
Proof.
  intros Hi. scan_cases;
    destruct i as [|[|[|[|i]]]]; try lia; cbn [nth vertices];
    order_false.
Qed.

(** A vertex as near as the selected one does not come before it. *)
Lemma nearest_first_wins (p : vec3) (i : nat) :
  (i < 4)%nat ->
  eqb (dist_to p (nth i vertices a1)) (dist_to p (nearestVertex p)) = true ->
  (nearest_index p <= i)%nat.
Proof.
  intros Hi. scan_cases;
    destruct i as [|[|[|[|i]]]]; try lia; cbn [nth vertices];
    intros Heq; exfalso; order_contra.
Qed.
End SimpleNearest.

(** ** Facts about the walk of a ray marcher *)

Section MarchFacts.
Variable sample : float -> float.
Variables threshold relaxation far : float.

Abbreviation adv := (advance sample relaxation).
Abbreviation tseq := (t_seq sample relaxation).
Abbreviation hit := (hit_at sample threshold relaxation).
Abbreviation gone := (far_at sample relaxation far).
Abbreviation clear := (unstopped sample threshold relaxation far).
Abbreviation go := (walk sample threshold relaxation far).

Ltac conjs := repeat match goal with |- _ /\ _ => split end.

Lemma t_seq_shift (k : nat) (t0 : float) : tseq (S k) t0 = tseq k (adv t0).
Proof. unfold t_seq. apply Nat.iter_succ_r. Qed.

Lemma hit_at_shift (k : nat) (t0 : float) : hit (S k) t0 = hit k (adv t0).
Proof. unfold hit_at. now rewrite t_seq_shift. Qed.

Lemma far_at_shift (k : nat) (t0 : float) : gone (S k) t0 = gone k (adv t0).
Proof. unfold far_at. now rewrite (t_seq_shift (S k)). Qed.

Lemma unstopped_S (j : nat) (t0 : float) :
  clear (S j) t0 <->
  (sample t0 <? threshold)%f32 = false /\ (adv t0 >? far)%f32 = false /\
  clear j (adv t0).
Proof.
  split.
  - intros H. destruct (H O ltac:(lia)) as [H0 H1].
    split; [exact H0 | split; [exact H1 |]].
    intros i Hi. destruct (H (S i) ltac:(lia)) as [A B].
    rewrite hit_at_shift in A. rewrite far_at_shift in B. now split.
  - intros (H0 & H1 & H) [|i] Hi.
    + split; assumption.
    + rewrite hit_at_shift, far_at_shift. apply H. lia.
Qed.

(** From the exit of the walk to the sequence. *)
Lemma walk_returned (k : nat) (t0 t : float) :
  go k t0 = Returned t ->
  exists j, (j < k)%nat /\ t = tseq j t0 /\ hit j t0 = true /\ clear j t0.
Proof.
  revert t0. induction k as [|k IH]; intros t0; cbn [walk]; [discriminate|].
  destruct (sample t0 <? threshold)%f32 eqn:Hh.
  - intros [= <-]. exists O. conjs; auto; try lia; intros i Hi; lia.
  - destruct (adv t0 >? far)%f32 eqn:Hf; [discriminate|].
    intros H. destruct (IH _ H) as (j & Hj & -> & Hhit & Hc).
    exists (S j). rewrite t_seq_shift, hit_at_shift, unstopped_S.
    conjs; auto; lia.
Qed.

Lemma walk_broke (k : nat) (t0 t : float) :
  go k t0 = Broke t ->
  exists j, (j < k)%nat /\ t = tseq (S j) t0 /\
            hit j t0 = false /\ gone j t0 = true /\ clear j t0.
Proof.
  revert t0. induction k as [|k IH]; intros t0; cbn [walk]; [discriminate|].
  destruct (sample t0 <? threshold)%f32 eqn:Hh; [discriminate|].
  destruct (adv t0 >? far)%f32 eqn:Hf.
  - intros [= <-]. exists O. conjs; auto; try lia; intros i Hi; lia.
  - intros H. destruct (IH _ H) as (j & Hj & -> & Hhit & Hg & Hc).
    exists (S j).
    rewrite (t_seq_shift (S j)), hit_at_shift, far_at_shift, unstopped_S.
    conjs; auto; lia.
Qed.

Lemma walk_exhausted (k : nat) (t0 t : float) :
  go k t0 = Exhausted t -> t = tseq k t0 /\ clear k t0.
Proof.
  revert t0. induction k as [|k IH]; intros t0; cbn [walk].
  - intros [= <-]. split; [reflexivity|]. intros i Hi. lia.
  - destruct (sample t0 <? threshold)%f32 eqn:Hh; [discriminate|].
    destruct (adv t0 >? far)%f32 eqn:Hf; [discriminate|].
    intros H. destruct (IH _ H) as (-> & Hc).
    rewrite t_seq_shift, unstopped_S. auto.
Qed.

(** From the sequence to the exit of the walk. *)
Lemma walk_hit (k j : nat) (t0 : float) :
  (j < k)%nat -> clear j t0 -> hit j t0 = true ->
  go k t0 = Returned (tseq j t0).
Proof.
  revert k t0. induction j as [|j IH]; intros k t0 Hk Hc Hh;
    (destruct k as [|k]; [lia|]); cbn [walk].
  - unfold hit_at in Hh. simpl in Hh. now rewrite Hh.
  - apply unstopped_S in Hc. destruct Hc as (H0 & H1 & Hc).
    rewrite H0, H1, t_seq_shift. rewrite hit_at_shift in Hh.
    apply IH; auto. lia.
Qed.

Lemma walk_far (k j : nat) (t0 : float) :
  (j < k)%nat -> clear j t0 -> hit j t0 = false -> gone j t0 = true ->
  go k t0 = Broke (tseq (S j) t0).
Proof.
  revert k t0. induction j as [|j IH]; intros k t0 Hk Hc Hh Hg;
    (destruct k as [|k]; [lia|]); cbn [walk].
  - unfold hit_at in Hh. unfold far_at in Hg. simpl in Hh, Hg.
    now rewrite Hh, Hg.
  - apply unstopped_S in Hc. destruct Hc as (H0 & H1 & Hc).
    rewrite H0, H1, (t_seq_shift (S j)).
    rewrite hit_at_shift in Hh. rewrite far_at_shift in Hg.
    apply IH; auto. lia.
Qed.

Lemma walk_out (k : nat) (t0 : float) :
  clear k t0 -> go k t0 = Exhausted (tseq k t0).
Proof.
  revert t0. induction k as [|k IH]; intros t0 Hc; cbn [walk]; [reflexivity|].
  apply unstopped_S in Hc. destruct Hc as (H0 & H1 & Hc).
  rewrite H0, H1, t_seq_shift. now apply IH.
Qed.

(** The walk leaves without a hit exactly when it is past the far bound
    after some pass, or no pass was stopped at all. *)
Lemma walk_miss_iff (k : nat) (t0 : float) :
  (exists t, go k t0 = Broke t \/ go k t0 = Exhausted t) <->
  (exists j, (j < k)%nat /\ clear j t0 /\
             hit j t0 = false /\ gone j t0 = true) \/
  clear k t0.
Proof.
  split.
  - intros [t [H | H]].
    + left. destruct (walk_broke _ _ _ H) as (j & ? & ? & ? & ? & ?).
      exists j. auto.
    + right. now destruct (walk_exhausted _ _ _ H).
  - intros [(j & Hj & Hc & Hh & Hg) | Hc].
    + eexists. left. now apply walk_far with (j := j).
    + eexists. right. now apply walk_out.
Qed.

(** When the samples and the relaxation factor are not below zero, no march
    parameter is. *)
Hypothesis sample_nonneg : forall t, nonneg (sample t) = true.
Hypothesis relaxation_nonneg : nonneg relaxation = true.

Lemma t_seq_nonneg (k : nat) (t0 : float) :
  nonneg t0 = true -> nonneg (tseq k t0) = true.
Proof.
  intros H0. induction k as [|k IH]; [exact H0|].
  unfold t_seq in *. simpl. unfold advance at 1.
  apply nonneg_add; [exact IH|]. now apply nonneg_mul.
Qed.

(** A NaN sample is never a hit; when a hit is found, the parameter is a
    number, given that the sample at a NaN parameter is NaN. *)
Hypothesis sample_nan : sample S754_nan = S754_nan.
Hypothesis far_finite : is_finite far = true.

Lemma hit_parameter_finite (j : nat) (t0 : float) :
  nonneg t0 = true -> is_finite t0 = true ->
  clear j t0 -> hit j t0 = true -> is_finite (tseq j t0) = true.
Proof.
  intros Hn Hf Hc Hh. destruct j as [|j]; [exact Hf|].
  destruct (Hc j ltac:(lia)) as [_ Hg]. unfold far_at in Hg.
  apply nonneg_not_gtb_finite with (y := far); auto.
  - now apply t_seq_nonneg.
  - unfold hit_at in Hh. destruct (tseq (S j) t0); try reflexivity.
    rewrite sample_nan in Hh. discriminate.
Qed.

(** What a hit hands back: a number that is not below zero, at which the
    sample is under the threshold. *)
Lemma walk_returned_number (k : nat) (t : float) :
  go k (lit 0 1) = Returned t ->
  is_finite t = true /\ nonneg t = true /\ (sample t <? threshold)%f32 = true.
Proof.
  intros H. destruct (walk_returned _ _ _ H) as (j & Hj & -> & Hh & Hc).
  split; [|split].
  - now apply hit_parameter_finite.
  - now apply t_seq_nonneg.
  - exact Hh.
Qed.

End MarchFacts.

(** ** Facts about counted loops *)

Section ForLoop.
Context {St : Type}.
Variable body : Z -> St -> St.

Lemma for_loop_counter (k : nat) (n : Z) (s : St) :
  snd (for_loop k n body s) = n + Z.of_nat k.
Proof.
  revert n s. induction k as [|k IH]; intros n s.
  - simpl. lia.
  - cbn [for_loop]. rewrite IH. lia.
Qed.

(** A body that does not read the counter is iterated. *)
Hypothesis body_counter_free : forall n n' s, body n s = body n' s.

Lemma for_loop_state (k : nat) (n : Z) (s : St) :
  fst (for_loop k n body s) = Nat.iter k (body 0) s.
Proof.
  revert n s. induction k as [|k IH]; intros n s; [reflexivity|].
  cbn [for_loop]. rewrite IH, Nat.iter_succ_r.
  now rewrite (body_counter_free n 0).
Qed.

Lemma for_loop_unfold (k : nat) (n : Z) (s : St) :
  for_loop k n body s = (Nat.iter k (body 0) s, n + Z.of_nat k).
Proof.
  rewrite (surjective_pairing (for_loop k n body s)).
  now rewrite for_loop_state, for_loop_counter.
Qed.
End ForLoop.

(** ** The simple distance estimator *)

Section SimpleSDF.
Import Simple.

Lemma sdf_body_counter_free (n n' : Z) (s : sdf_locals) :
  sdf_body n s = sdf_body n' s.
Proof. reflexivity. Qed.

(** The straight-line selection of the body is the scan of the
    specification, and the new point is the contraction of the old. *)
Lemma sdf_body_point (n : Z) (s : sdf_locals) :
  l_p (sdf_body n s) = contraction (l_p s).
Proof.
  unfold sdf_body, contraction, nearestVertex, nearest_index, dist_to.
  cbn [fold_left vertices nth fst].
  destruct (vlength (vsub (l_p s) a2) <? vlength (vsub (l_p s) a1))%f32;
    cbn [nth];
    destruct (vlength (vsub (l_p s) a3) <? _)%f32; cbn [nth];
    destruct (vlength (vsub (l_p s) a4) <? _)%f32; reflexivity.
Qed.

Lemma sdf_points (k : nat) (s : sdf_locals) :
  l_p (Nat.iter k (sdf_body 0) s) = Nat.iter k contraction (l_p s).
Proof.
  induction k as [|k IH]; [reflexivity|].
  now rewrite !Nat.iter_succ, sdf_body_point, IH.
Qed.

Lemma sierpinskiSDF_from_eq (s : sdf_locals) :
  sierpinskiSDF_from s =
  (vlength (Nat.iter 12 contraction (l_p s)) * pow2 (-12))%f32.
Proof.
  unfold sierpinskiSDF_from.
  rewrite (for_loop_unfold sdf_body sdf_body_counter_free).
  change (Z.to_nat (iterations - 0)) with 12%nat.
  now rewrite sdf_points.
Qed.

Lemma sierpinskiSDF_eq (p : vec3) :
  sierpinskiSDF p = (vlength (Nat.iter 12 contraction p) * pow2 (-12))%f32.
Proof. unfold sierpinskiSDF. now rewrite sierpinskiSDF_from_eq. Qed.

Lemma sierpinskiSDF_nonneg (p : vec3) : nonneg (sierpinskiSDF p) = true.
Proof.
  rewrite sierpinskiSDF_eq. apply nonneg_mul; [apply nonneg_sqrt|].
  reflexivity.
Qed.

Lemma sample_nonneg (ro rd : vec3) (t : float) :
  nonneg (sample ro rd t) = true.
Proof. apply sierpinskiSDF_nonneg. Qed.

Lemma sample_nan (ro rd : vec3) : sample ro rd S754_nan = S754_nan.
Proof.
  unfold sample, vmuls, vadd. cbn [vx vy vz].
  rewrite !mul_nan_r, !add_nan_r. vm_compute. reflexivity.
Qed.

(** From here on the estimator is used through the equations above. *)
Opaque sierpinskiSDF.

Lemma sample_unfold (ro rd : vec3) (t : float) :
  sierpinskiSDF (vadd ro (vmuls rd t)) = sample ro rd t.
Proof. reflexivity. Qed.

(** The marching loop is the walk over [sample]. *)
Lemma march_loop_walk (ro rd : vec3) (k : nat) (t : float) (n : Z) :
  match march_loop k ro rd t n with
  | Returned (d, t', _) =>
      walk (sample ro rd) epsilon (lit 1 2) maxDist k t = Returned t' /\
      d = sample ro rd t'
  | Broke (t', _) =>
      walk (sample ro rd) epsilon (lit 1 2) maxDist k t = Broke t'
  | Exhausted (t', _) =>
      walk (sample ro rd) epsilon (lit 1 2) maxDist k t = Exhausted t'
  end.
Proof.
  revert t n. induction k as [|k IH]; intros t n; cbn [march_loop walk].
  - reflexivity.
  - unfold advance. rewrite sample_unfold.
    destruct (sample ro rd t <? epsilon)%f32.
    + split; reflexivity.
    + destruct (t + sample ro rd t * lit 1 2 >? maxDist)%f32.
      * reflexivity.
      * apply IH.
Qed.

End SimpleSDF.

(** ** The enhanced distance estimator *)

Section EnhancedSDF.
Import Enhanced.

Lemma sd_body_counter_free (n n' : Z) (s : sd_locals) :
  sd_body n s = sd_body n' s.
Proof. reflexivity. Qed.

Lemma sd_after_iter (k : nat) (p orbitTrap : vec3) :
  sd_after k p orbitTrap = Nat.iter k (sd_body 0) (sd_init p orbitTrap).
Proof.
  unfold sd_after. apply (for_loop_state sd_body sd_body_counter_free).
Qed.

Lemma sd_after_S (k : nat) (p orbitTrap : vec3) :
  sd_after (S k) p orbitTrap = sd_body 0 (sd_after k p orbitTrap).
Proof. now rewrite !sd_after_iter, Nat.iter_succ. Qed.

(** The incoming content of the [out] parameter is overwritten at once. *)
Lemma sd_init_reset (p orbitTrap orbitTrap' : vec3) :
  sd_init p orbitTrap = sd_init p orbitTrap'.
Proof. reflexivity. Qed.

Lemma sd_after_reset (k : nat) (p orbitTrap orbitTrap' : vec3) :
  sd_after k p orbitTrap = sd_after k p orbitTrap'.
Proof. now rewrite !sd_after_iter, (sd_init_reset p orbitTrap orbitTrap'). Qed.

Lemma sd_body_z (n : Z) (s : sd_locals) : l_z (sd_body n s) = next_z (l_z s).
Proof. unfold sd_body. cbn [l_z]. reflexivity. Qed.

Lemma sd_body_dr (n : Z) (s : sd_locals) :
  l_dr (sd_body n s) = (l_dr s * FRACTAL_SCALE)%f32.
Proof. unfold sd_body. cbn [l_dr]. reflexivity. Qed.

(** The three assignments to the components of the trap are one
    component-wise minimum. *)
Lemma sd_body_trap (n : Z) (s : sd_locals) :
  l_orbitTrap (sd_body n s) =
  vmin (l_orbitTrap s) (trap_sample (next_z (l_z s))).
Proof.
  unfold sd_body, vmin, trap_sample. cbn [l_orbitTrap vx vy vz]. reflexivity.
Qed.

Lemma sd_after_z (k : nat) (p orbitTrap : vec3) :
  l_z (sd_after k p orbitTrap) = orbit_point p k.
Proof.
  induction k as [|k IH]; [reflexivity|].
  rewrite sd_after_S, sd_body_z, IH. unfold orbit_point.
  now rewrite Nat.iter_succ.
Qed.

Lemma sd_after_dr (k : nat) (p orbitTrap : vec3) :
  l_dr (sd_after k p orbitTrap) =
  Nat.iter k (fun dr => dr * FRACTAL_SCALE)%f32 (lit 1 1).
Proof.
  induction k as [|k IH]; [reflexivity|].
  now rewrite sd_after_S, sd_body_dr, IH, Nat.iter_succ.
Qed.

Lemma sd_after_trap (k : nat) (p orbitTrap : vec3) :
  l_orbitTrap (sd_after (S k) p orbitTrap) =
  vmin (l_orbitTrap (sd_after k p orbitTrap))
       (trap_sample (orbit_point p (S k))).
Proof.
  rewrite sd_after_S, sd_body_trap, sd_after_z. unfold orbit_point.
  now rewrite Nat.iter_succ.
Qed.

Lemma vmin_not_nan (a b : vec3) : not_nan3 a = true -> not_nan3 (vmin a b) = true.
Proof.
  unfold not_nan3, vmin. cbn [vx vy vz].
  rewrite !andb_true_iff, !negb_true_iff. intros [[Hx Hy] Hz].
  repeat split; now apply fmin_not_nan.
Qed.

Lemma vmin_leb (a b : vec3) : not_nan3 a = true -> vleb (vmin a b) a = true.
Proof.
  unfold not_nan3, vmin, vleb. cbn [vx vy vz].
  rewrite !andb_true_iff, !negb_true_iff. intros [[Hx Hy] Hz].
  repeat split; now apply fmin_leb.
Qed.

Lemma trap_not_nan (k : nat) (p orbitTrap : vec3) :
  not_nan3 (l_orbitTrap (sd_after k p orbitTrap)) = true.
Proof.
  induction k as [|k IH]; [reflexivity|].
  rewrite sd_after_trap. now apply vmin_not_nan.
Qed.

Lemma trap_running_minimum (k : nat) (p orbitTrap : vec3) :
  l_orbitTrap (sd_after k p orbitTrap) = running_minimum p k.
Proof.
  induction k as [|k IH]; [reflexivity|].
  rewrite sd_after_trap, IH. unfold running_minimum.
  rewrite seq_S, List.map_app, fold_left_app. reflexivity.
Qed.

Lemma sdSierpinski_eq (p orbitTrap : vec3) :
  sdSierpinski p orbitTrap =
  ((lit 1 2 * vlength (orbit_point p 14) / S754_finite false 8388608 (-9))%f32,
   running_minimum p 14).
Proof.
  unfold sdSierpinski. change (Z.to_nat (FRACTAL_ITERATIONS - 0)) with 14%nat.
  rewrite sd_after_z, sd_after_dr, trap_running_minimum.
  f_equal.
Qed.

Lemma sdSierpinski_nonneg (p orbitTrap : vec3) :
  nonneg (fst (sdSierpinski p orbitTrap)) = true.
Proof.
  rewrite sdSierpinski_eq. cbn [fst].
  apply nonneg_div, nonneg_mul; [reflexivity | apply nonneg_sqrt].
Qed.

Lemma enhanced_sample_nonneg (ro rd : vec3) (t : float) :
  nonneg (sample ro rd t) = true.
Proof. apply sdSierpinski_nonneg. Qed.

Lemma enhanced_sample_nan (ro rd : vec3) : sample ro rd S754_nan = S754_nan.
Proof.
  unfold sample, vmuls, vadd. cbn [vx vy vz].
  rewrite !mul_nan_r, !add_nan_r. vm_compute. reflexivity.
Qed.

(** From here on the estimator is used through the equations above. *)
Opaque sdSierpinski.

Lemma enhanced_sample_unfold (ro rd : vec3) (t : float) :
  fst (sdSierpinski (vadd ro (vmuls rd t)) undef3) = sample ro rd t.
Proof. reflexivity. Qed.

(** The marching loop is the walk over [sample]. *)
Lemma enhanced_march_loop_walk (ro rd : vec3) (k : nat) (t : float)
  (orbitTrap : vec3) :
  match march_loop k ro rd t orbitTrap with
  | Returned (t', _) =>
      walk (sample ro rd) HIT_THRESHOLD (lit 6 10) MAX_DIST k t = Returned t'
  | Broke (t', _) =>
      walk (sample ro rd) HIT_THRESHOLD (lit 6 10) MAX_DIST k t = Broke t'
  | Exhausted (t', _) =>
      walk (sample ro rd) HIT_THRESHOLD (lit 6 10) MAX_DIST k t = Exhausted t'
  end.
Proof.
  revert t orbitTrap.
  induction k as [|k IH]; intros t orbitTrap; cbn [march_loop walk].
  - reflexivity.
  - unfold advance. rewrite <- enhanced_sample_unfold.
    destruct (sdSierpinski (vadd ro (vmuls rd t)) undef3) as [d trap].
    cbn [fst]. destruct (d <? HIT_THRESHOLD)%f32.
    + reflexivity.
    + destruct (t + d * lit 6 10 >? MAX_DIST)%f32.
      * reflexivity.
      * apply IH.
Qed.

End EnhancedSDF.

(** ** The ray marchers *)

Section RayMarchers.

(** The field a hit of the simple marcher returns is the last sample: under
    the threshold and not below zero. *)
Lemma simple_rayMarch_cases (ro rd : vec3) :
  (exists t,
     walk (Simple.sample ro rd) Simple.epsilon (lit 1 2) Simple.maxDist
       Simple.maxSteps (lit 0 1) = Returned t /\
     Simple.ret (Simple.rayMarch ro rd) = Simple.sample ro rd t /\
     Simple.totalDist (Simple.rayMarch ro rd) = t) \/
  (exists t,
     (walk (Simple.sample ro rd) Simple.epsilon (lit 1 2) Simple.maxDist
        Simple.maxSteps (lit 0 1) = Broke t \/
      walk (Simple.sample ro rd) Simple.epsilon (lit 1 2) Simple.maxDist
        Simple.maxSteps (lit 0 1) = Exhausted t) /\
     Simple.ret (Simple.rayMarch ro rd) = (- lit 1 1)%f32 /\
     Simple.totalDist (Simple.rayMarch ro rd) = t).
Proof.
  unfold Simple.rayMarch.
  pose proof (march_loop_walk ro rd Simple.maxSteps (lit 0 1) 0) as H.
  destruct (Simple.march_loop Simple.maxSteps ro rd (lit 0 1) 0)
    as [[[d t] n] | [t n] | [t n]]; cbn [Simple.ret Simple.totalDist].
  - left. exists t. destruct H as [H ->]. auto.
  - right. exists t. auto.
  - right. exists t. auto.
Qed.

Lemma enhanced_rayMarch_cases (ro rd : vec3) :
  (exists t,
     walk (Enhanced.sample ro rd) Enhanced.HIT_THRESHOLD (lit 6 10)
       Enhanced.MAX_DIST Enhanced.MAX_MARCH_STEPS (lit 0 1) = Returned t /\
     fst (Enhanced.rayMarch ro rd) = t) \/
  (exists t,
     (walk (Enhanced.sample ro rd) Enhanced.HIT_THRESHOLD (lit 6 10)
        Enhanced.MAX_DIST Enhanced.MAX_MARCH_STEPS (lit 0 1) = Broke t \/
      walk (Enhanced.sample ro rd) Enhanced.HIT_THRESHOLD (lit 6 10)
        Enhanced.MAX_DIST Enhanced.MAX_MARCH_STEPS (lit 0 1) = Exhausted t) /\
     fst (Enhanced.rayMarch ro rd) = (- lit 1 1)%f32).
Proof.
  unfold Enhanced.rayMarch.
  pose proof (enhanced_march_loop_walk ro rd Enhanced.MAX_MARCH_STEPS
                (lit 0 1) Enhanced.trap_reset) as H.
  destruct (Enhanced.march_loop Enhanced.MAX_MARCH_STEPS ro rd (lit 0 1)
              Enhanced.trap_reset) as [[t ot] | [t ot] | [t ot]]; cbn [fst].
  - left. exists t. auto.
  - right. exists t. auto.
  - right. exists t. auto.
Qed.

Lemma simple_hit_number (ro rd : vec3) (t : float) :
  walk (Simple.sample ro rd) Simple.epsilon (lit 1 2) Simple.maxDist
    Simple.maxSteps (lit 0 1) = Returned t ->
  is_finite t = true /\ nonneg t = true /\
  (Simple.sample ro rd t <? Simple.epsilon)%f32 = true.
Proof.
  apply walk_returned_number.
  - apply sample_nonneg.
  - reflexivity.
  - apply sample_nan.
  - reflexivity.
Qed.

Lemma enhanced_hit_number (ro rd : vec3) (t : float) :
  walk (Enhanced.sample ro rd) Enhanced.HIT_THRESHOLD (lit 6 10)
    Enhanced.MAX_DIST Enhanced.MAX_MARCH_STEPS (lit 0 1) = Returned t ->
  is_finite t = true /\ nonneg t = true /\
  (Enhanced.sample ro rd t <? Enhanced.HIT_THRESHOLD)%f32 = true.
Proof.
  apply walk_returned_number.
  - apply enhanced_sample_nonneg.
  - reflexivity.
  - apply enhanced_sample_nan.
  - reflexivity.
Qed.

(** The walk lemmas, read on the two marchers. *)
Lemma simple_walk_hit (ro rd : vec3) (k : nat) :
  (k < Simple.maxSteps)%nat ->
  (forall i, (i < k)%nat ->
             Simple.hits ro rd i = false /\ Simple.leaves ro rd i = false) ->
  Simple.hits ro rd k = true ->
  walk (Simple.sample ro rd) Simple.epsilon (lit 1 2) Simple.maxDist
    Simple.maxSteps (lit 0 1) = Returned (Simple.t_at ro rd k).
Proof.
  unfold Simple.hits, Simple.leaves, Simple.t_at. intros Hk Hc Hh.
  apply walk_hit; [exact Hk | exact Hc | exact Hh].
Qed.

Lemma enhanced_walk_hit (ro rd : vec3) (k : nat) :
  (k < Enhanced.MAX_MARCH_STEPS)%nat ->
  (forall i, (i < k)%nat ->
             Enhanced.hits ro rd i = false /\
             Enhanced.leaves ro rd i = false) ->
  Enhanced.hits ro rd k = true ->
  walk (Enhanced.sample ro rd) Enhanced.HIT_THRESHOLD (lit 6 10)
    Enhanced.MAX_DIST Enhanced.MAX_MARCH_STEPS (lit 0 1) =
  Returned (Enhanced.t_at ro rd k).
Proof.
  unfold Enhanced.hits, Enhanced.leaves, Enhanced.t_at. intros Hk Hc Hh.
  apply walk_hit; [exact Hk | exact Hc | exact Hh].
Qed.

Lemma simple_walk_miss_iff (ro rd : vec3) :
  (exists t,
     walk (Simple.sample ro rd) Simple.epsilon (lit 1 2) Simple.maxDist
       Simple.maxSteps (lit 0 1) = Broke t \/
     walk (Simple.sample ro rd) Simple.epsilon (lit 1 2) Simple.maxDist
       Simple.maxSteps (lit 0 1) = Exhausted t) <->
  (exists k, (k < Simple.maxSteps)%nat /\
     (forall i, (i < k)%nat ->
        Simple.hits ro rd i = false /\ Simple.leaves ro rd i = false) /\
     Simple.hits ro rd k = false /\ Simple.leaves ro rd k = true) \/
  (forall i, (i < Simple.maxSteps)%nat ->
     Simple.hits ro rd i = false /\ Simple.leaves ro rd i = false).
Proof.
  unfold Simple.hits, Simple.leaves.
  exact (walk_miss_iff (Simple.sample ro rd) Simple.epsilon (lit 1 2)
           Simple.maxDist Simple.maxSteps (lit 0 1)).
Qed.

Lemma enhanced_walk_miss_iff (ro rd : vec3) :
  (exists t,
     walk (Enhanced.sample ro rd) Enhanced.HIT_THRESHOLD (lit 6 10)
       Enhanced.MAX_DIST Enhanced.MAX_MARCH_STEPS (lit 0 1) = Broke t \/
     walk (Enhanced.sample ro rd) Enhanced.HIT_THRESHOLD (lit 6 10)
       Enhanced.MAX_DIST Enhanced.MAX_MARCH_STEPS (lit 0 1) = Exhausted t) <->
  (exists k, (k < Enhanced.MAX_MARCH_STEPS)%nat /\
     (forall i, (i < k)%nat ->
        Enhanced.hits ro rd i = false /\ Enhanced.leaves ro rd i = false) /\
     Enhanced.hits ro rd k = false /\ Enhanced.leaves ro rd k = true) \/
  (forall i, (i < Enhanced.MAX_MARCH_STEPS)%nat ->
     Enhanced.hits ro rd i = false /\ Enhanced.leaves ro rd i = false).
Proof.
  unfold Enhanced.hits, Enhanced.leaves.
  exact (walk_miss_iff (Enhanced.sample ro rd) Enhanced.HIT_THRESHOLD
           (lit 6 10) Enhanced.MAX_DIST Enhanced.MAX_MARCH_STEPS (lit 0 1)).
Qed.

(** A boolean check of "nothing stopped the walk before pass [k]". *)
Lemma unstopped_check (h l : nat -> bool) (k : nat) :
  forallb (fun i => negb (h i) && negb (l i)) (seq 0 k) = true ->
  forall i, (i < k)%nat -> h i = false /\ l i = false.
Proof.
  intros H i Hi. rewrite forallb_forall in H.
  assert (Hin : In i (seq 0 k)) by (apply in_seq; lia).
  apply H, andb_true_iff in Hin. destruct Hin as [A B].
  now rewrite negb_true_iff in A, B.
Qed.

End RayMarchers.

(** C1.  Ray marcher contract.  For every ray the value a marcher returns is
    the sentinel -1 or a finite number that is not below zero.  When the
    sample at pass [k] is the first one under the hit threshold (1e-3 simple,
    1e-4 enhanced) and no earlier pass left the far bound, the marcher stops
    there and the hit distance it reports is the march parameter of that
    pass: [totalDist] in the simple variant (whose returned value is the
    sample itself), the returned value in the enhanced variant. *)
Theorem rayMarch_result_and_hit_distance :
  forall ro rd : vec3,
    (let r := Simple.rayMarch ro rd in
     (Simple.ret r = (- lit 1 1)%f32 \/
      (is_finite (Simple.ret r) = true /\
       (lit 0 1 <=? Simple.ret r)%f32 = true)) /\
     (forall k : nat,
        (k < Simple.maxSteps)%nat ->
        (forall i, (i < k)%nat ->
                   Simple.hits ro rd i = false /\
                   Simple.leaves ro rd i = false) ->
        Simple.hits ro rd k = true ->
        Simple.totalDist r = Simple.t_at ro rd k /\
        Simple.ret r = Simple.sample ro rd (Simple.t_at ro rd k) /\
        is_finite (Simple.totalDist r) = true /\
        (lit 0 1 <=? Simple.totalDist r)%f32 = true)) /\
    (let t := fst (Enhanced.rayMarch ro rd) in
     (t = (- lit 1 1)%f32 \/
      (is_finite t = true /\ (lit 0 1 <=? t)%f32 = true)) /\
     (forall k : nat,
        (k < Enhanced.MAX_MARCH_STEPS)%nat ->
        (forall i, (i < k)%nat ->
                   Enhanced.hits ro rd i = false /\
                   Enhanced.leaves ro rd i = false) ->
        Enhanced.hits ro rd k = true ->
        t = Enhanced.t_at ro rd k)).
Proof.
  intros ro rd. split.
  - cbv zeta. destruct (simple_rayMarch_cases ro rd)
      as [(t & Hw & Hr & Ht) | (t & Hw & Hr & Ht)].
    + destruct (simple_hit_number ro rd t Hw) as (Hf & Hn & Hlt).
      split.
      * right. rewrite Hr.
        pose proof (nonneg_ltb_finite _ _ (sample_nonneg ro rd t) Hlt) as Hfs.
        split; [exact Hfs|].
        exact (nonneg_finite_leb_zero _ (sample_nonneg ro rd t) Hfs).
      * intros k Hk Hc Hh.
        pose proof (simple_walk_hit ro rd k Hk Hc Hh) as Hw'.
        rewrite Hw in Hw'. injection Hw' as ->.
        rewrite Ht, Hr.
        split; [reflexivity|]. split; [reflexivity|]. split; [exact Hf|].
        exact (nonneg_finite_leb_zero _ Hn Hf).
    + split; [left; exact Hr|].
      intros k Hk Hc Hh.
      pose proof (simple_walk_hit ro rd k Hk Hc Hh) as Hw'.
      destruct Hw as [Hw | Hw]; rewrite Hw in Hw'; discriminate.
  - cbv zeta. destruct (enhanced_rayMarch_cases ro rd)
      as [(t & Hw & Hr) | (t & Hw & Hr)].
    + destruct (enhanced_hit_number ro rd t Hw) as (Hf & Hn & Hlt).
      split.
      * right. rewrite Hr. split; [exact Hf|].
        exact (nonneg_finite_leb_zero _ Hn Hf).
      * intros k Hk Hc Hh.
        pose proof (enhanced_walk_hit ro rd k Hk Hc Hh) as Hw'.
        rewrite Hw in Hw'. injection Hw' as ->. exact Hr.
    + split; [left; exact Hr|].
      intros k Hk Hc Hh.
      pose proof (enhanced_walk_hit ro rd k Hk Hc Hh) as Hw'.
      destruct Hw as [Hw | Hw]; rewrite Hw in Hw'; discriminate.
Qed.

(** Two rays that hit.  On the camera ray of the simple variant, (0,0,4.5)
    along (0,0,-1), the simple marcher stops at pass 12 and reports the march
    parameter of that pass.  From (1,1,1), the fixed point of the folding,
    the enhanced marcher stops at pass 0 and returns the parameter 0. *)
Lemma rayMarch_result_witness :
  let ro := Vec3 (lit 0 1) (lit 0 1) (lit 9 2) in
  let rd := Vec3 (lit 0 1) (lit 0 1) (lit (-1) 1) in
  let ro' := Vec3 (lit 1 1) (lit 1 1) (lit 1 1) in
  Simple.totalDist (Simple.rayMarch ro rd) = Simple.t_at ro rd 12 /\
  fst (Enhanced.rayMarch ro' rd) = Enhanced.t_at ro' rd 0.
Proof.
  intros ro rd ro'. split.
  - refine (proj1 (proj2 (proj1 (rayMarch_result_and_hit_distance ro rd))
                     12%nat _ _ _)).
    + apply Nat.ltb_lt. vm_compute. reflexivity.
    + apply unstopped_check. vm_compute. reflexivity.
    + vm_compute. reflexivity.
  - refine (proj2 (proj2 (rayMarch_result_and_hit_distance ro' rd))
              0%nat _ _ _).
    + apply Nat.ltb_lt. vm_compute. reflexivity.
    + apply unstopped_check. vm_compute. reflexivity.
    + vm_compute. reflexivity.
Defined.

(** C3.  Misses.  A marcher returns the sentinel -1 exactly when its walk
    ends without a hit: some pass [k] within the step budget (256 simple, 200
    enhanced) leaves [t] past the far bound (20 simple, 50 enhanced) while no
    sample up to that pass was under the hit threshold, or the whole budget
    is used with no sample under the threshold and [t] never past the bound.
    The simple marcher started at (0,0,100) along (0,0,1) returns -1. *)
Theorem rayMarch_miss_iff :
  (forall ro rd : vec3,
     Simple.ret (Simple.rayMarch ro rd) = (- lit 1 1)%f32 <->
     (exists k, (k < Simple.maxSteps)%nat /\
        (forall i, (i < k)%nat ->
           Simple.hits ro rd i = false /\ Simple.leaves ro rd i = false) /\
        Simple.hits ro rd k = false /\ Simple.leaves ro rd k = true) \/
     (forall i, (i < Simple.maxSteps)%nat ->
        Simple.hits ro rd i = false /\ Simple.leaves ro rd i = false)) /\
  (forall ro rd : vec3,
     fst (Enhanced.rayMarch ro rd) = (- lit 1 1)%f32 <->
     (exists k, (k < Enhanced.MAX_MARCH_STEPS)%nat /\
        (forall i, (i < k)%nat ->
           Enhanced.hits ro rd i = false /\ Enhanced.leaves ro rd i = false) /\
        Enhanced.hits ro rd k = false /\ Enhanced.leaves ro rd k = true) \/
     (forall i, (i < Enhanced.MAX_MARCH_STEPS)%nat ->
        Enhanced.hits ro rd i = false /\ Enhanced.leaves ro rd i = false)) /\
  Simple.ret
    (Simple.rayMarch (Vec3 (lit 0 1) (lit 0 1) (lit 100 1))
       (Vec3 (lit 0 1) (lit 0 1) (lit 1 1))) = (- lit 1 1)%f32.
Proof.
  split; [|split].
  - intros ro rd. rewrite <- simple_walk_miss_iff.
    destruct (simple_rayMarch_cases ro rd)
      as [(t & Hw & Hr & Ht) | (t & Hw & Hr & Ht)].
    + split.
      * intros Hm. rewrite Hr in Hm.
        destruct (nonneg_not_minus_one _ (sample_nonneg ro rd t) Hm).
      * intros [t' [H | H]]; rewrite Hw in H; discriminate.
    + split; [|intros _; exact Hr]. intros _. exists t. exact Hw.
  - intros ro rd. rewrite <- enhanced_walk_miss_iff.
    destruct (enhanced_rayMarch_cases ro rd)
      as [(t & Hw & Hr) | (t & Hw & Hr)].
    + split.
      * intros Hm. rewrite Hr in Hm.
        destruct (enhanced_hit_number ro rd t Hw) as (_ & Hn & _).
        destruct (nonneg_not_minus_one _ Hn Hm).
      * intros [t' [H | H]]; rewrite Hw in H; discriminate.
    + split; [|intros _; exact Hr]. intros _. exists t. exact Hw.
  - vm_compute. reflexivity.
Qed.

(** C4.  The camera ray of the simple variant.  Started at (0,0,4.5) along
    (0,0,-1) the simple marcher does not return the sentinel; the hit
    distance it reports is a finite number strictly between 0 and 4.5. *)
Theorem simple_rayMarch_camera_ray_hits :
  let r := Simple.rayMarch (Vec3 (lit 0 1) (lit 0 1) (lit 9 2))
             (Vec3 (lit 0 1) (lit 0 1) (lit (-1) 1)) in
  Simple.ret r <> (- lit 1 1)%f32 /\
  (Simple.ret r <? Simple.epsilon)%f32 = true /\
  is_finite (Simple.totalDist r) = true /\
  (lit 0 1 <? Simple.totalDist r)%f32 = true /\
  (Simple.totalDist r <? lit 9 2)%f32 = true /\
  Simple.steps r = 12.
Proof.
  vm_compute. repeat split; try reflexivity. discriminate.
Qed.

(** C2.  The simple distance estimator.  For every point, and whatever the
    uninitialised locals hold, the loop makes exactly twelve passes and
    leaves [n = 12]; a pass replaces [p] by
    [scale * p - nearestVertex * (scale - 1)] with [scale = 2.0], where the
    selected vertex is one of the four, none of the four is strictly nearer,
    and a vertex as near as the selected one does not precede it in the
    order a1, a2, a3, a4; the result is the length of the twelfth point
    times 2 to the power -12, which is 1/4096. *)
Theorem sierpinskiSDF_twelve_contractions :
  forall (p c : vec3) (dist d : float),
    let s := {| Simple.l_p := p; Simple.l_c := c;
                Simple.l_dist := dist; Simple.l_d := d |} in
    for_loop (Z.to_nat (Simple.iterations - 0)) 0 Simple.sdf_body s =
      (Nat.iter 12 (Simple.sdf_body 0) s, 12) /\
    (forall n s', Simple.l_p (Simple.sdf_body n s') =
                  Simple.contraction (Simple.l_p s')) /\
    (forall q,
       Simple.contraction q =
       vsub (smulv (lit 2 1) q)
            (vmuls (Simple.nearestVertex q) (lit 2 1 - lit 1 1)%f32) /\
       (Simple.nearest_index q < 4)%nat /\
       (forall i, (i < 4)%nat ->
          (Simple.dist_to q (nth i Simple.vertices Simple.a1) <?
           Simple.dist_to q (Simple.nearestVertex q))%f32 = false) /\
       (forall i, (i < 4)%nat ->
          eqb (Simple.dist_to q (nth i Simple.vertices Simple.a1))
              (Simple.dist_to q (Simple.nearestVertex q)) = true ->
          (Simple.nearest_index q <= i)%nat)) /\
    Simple.sierpinskiSDF_from s =
      (vlength (Nat.iter 12 Simple.contraction p) * pow2 (-12))%f32 /\
    Simple.sierpinskiSDF p =
      (vlength (Nat.iter 12 Simple.contraction p) * pow2 (-12))%f32 /\
    pow2 (-12) = lit 1 4096.
Proof.
  intros p c dist d s.
  split; [|split; [|split; [|split; [|split]]]].
  - exact (for_loop_unfold Simple.sdf_body sdf_body_counter_free 12 0 s).
  - intros n s'. apply sdf_body_point.
  - intros q. split; [reflexivity|]. split; [apply nearest_index_range|].
    split.
    + intros i Hi. now apply nearest_is_nearest.
    + intros i Hi. now apply nearest_first_wins.
  - apply sierpinskiSDF_from_eq.
  - apply sierpinskiSDF_eq.
  - vm_compute. reflexivity.
Qed.

(** C8.  The orbit trap.  Whatever the [out] parameter held at the call, the
    trap is [vec3(1e10)] when the loop is entered; each of the fourteen passes
    leaves every component less than or equal to what it was; after [k]
    passes the trap is the running minimum, started from the reset value, of
    the samples (length, sum of absolute values, squared length) of the first
    [k] passes; and the trap handed back is the one after pass fourteen. *)
Theorem orbitTrap_running_minimum :
  forall p orbitTrap : vec3,
    Enhanced.l_orbitTrap (Enhanced.sd_after 0 p orbitTrap) =
      vec3_of (of_Z (10 ^ 10)) /\
    (forall k : nat,
       vleb (Enhanced.l_orbitTrap (Enhanced.sd_after (S k) p orbitTrap))
            (Enhanced.l_orbitTrap (Enhanced.sd_after k p orbitTrap)) = true) /\
    (forall k : nat,
       Enhanced.l_orbitTrap (Enhanced.sd_after (S k) p orbitTrap) =
       vmin (Enhanced.l_orbitTrap (Enhanced.sd_after k p orbitTrap))
            (Enhanced.trap_sample (Enhanced.orbit_point p (S k)))) /\
    (forall k : nat,
       Enhanced.l_orbitTrap (Enhanced.sd_after k p orbitTrap) =
       Enhanced.running_minimum p k) /\
    snd (Enhanced.sdSierpinski p orbitTrap) =
      Enhanced.l_orbitTrap (Enhanced.sd_after 14 p orbitTrap).
Proof.
  intros p orbitTrap. split; [reflexivity|]. split; [|split; [|split]].
  - intros k. rewrite sd_after_trap. apply vmin_leb, trap_not_nan.
  - intros k. apply sd_after_trap.
  - intros k. apply trap_running_minimum.
  - rewrite sdSierpinski_eq, trap_running_minimum. reflexivity.
Qed.

(** C9.  Purity.  The result of either distance estimator is a function of
    the point alone: the values its uninitialised locals (simple variant) or
    its [out] parameter (enhanced variant) hold at the call do not reach the
    distance, nor the orbit trap that is handed back. *)
Theorem distance_estimators_pure :
  (forall (p c c' : vec3) (dist dist' d d' : float),
     Simple.sierpinskiSDF_from
       {| Simple.l_p := p; Simple.l_c := c;
          Simple.l_dist := dist; Simple.l_d := d |} =
     Simple.sierpinskiSDF_from
       {| Simple.l_p := p; Simple.l_c := c';
          Simple.l_dist := dist'; Simple.l_d := d' |}) /\
  (forall p c dist d,
     Simple.sierpinskiSDF_from
       {| Simple.l_p := p; Simple.l_c := c;
          Simple.l_dist := dist; Simple.l_d := d |} =
     Simple.sierpinskiSDF p) /\
  (forall p orbitTrap orbitTrap' : vec3,
     Enhanced.sdSierpinski p orbitTrap = Enhanced.sdSierpinski p orbitTrap') /\
  (forall p orbitTrap : vec3,
     fst (Enhanced.sdSierpinski p orbitTrap) = Enhanced.map p).
Proof.
  split; [|split; [|split]].
  - intros. now rewrite !sierpinskiSDF_from_eq.
  - intros. now rewrite sierpinskiSDF_from_eq, sierpinskiSDF_eq.
  - intros. now rewrite !sdSierpinski_eq.
  - intros. unfold Enhanced.map. now rewrite !sdSierpinski_eq.
Qed.

(** C10.  The hit test of the enhanced [main].  A sample is shaded exactly
    when the value the marcher returned is strictly above zero.  When the
    very first sample is under the hit threshold the marcher returns [t = 0],
    and the pixel gets the sky colour plus the glow up to [MAX_DIST]: the
    same colour, by the same branch, as when the marcher returns -1. *)
Theorem sample_color_hit_test :
  forall (getSkyColor : vec3 -> vec3)
         (getVolumetricGlow : vec3 -> vec3 -> float -> vec3)
         (shade : vec3 -> vec3 -> float -> vec3 -> vec3)
         (ro rd : vec3),
    let background :=
      vadd (getSkyColor rd)
           (vmuls (getVolumetricGlow ro rd Enhanced.MAX_DIST) (lit 2 1)) in
    let t := fst (Enhanced.rayMarch ro rd) in
    Enhanced.sample_color getSkyColor getVolumetricGlow shade ro rd =
      (if (t >? lit 0 1)%f32
       then vadd (shade ro rd t (snd (Enhanced.rayMarch ro rd)))
                 (vmuls (getVolumetricGlow ro rd t) (lit 2 1))
       else background) /\
    (Enhanced.hits ro rd 0 = true ->
     t = lit 0 1 /\
     Enhanced.sample_color getSkyColor getVolumetricGlow shade ro rd =
       background) /\
    (t = (- lit 1 1)%f32 ->
     Enhanced.sample_color getSkyColor getVolumetricGlow shade ro rd =
       background).
Proof.
  intros sky glow shade ro rd background t.
  assert (Hs : Enhanced.sample_color sky glow shade ro rd =
               (if (t >? lit 0 1)%f32
                then vadd (shade ro rd t (snd (Enhanced.rayMarch ro rd)))
                          (vmuls (glow ro rd t) (lit 2 1))
                else background)).
  { unfold Enhanced.sample_color, t, background.
    destruct (Enhanced.rayMarch ro rd) as [t' ot]. cbn [fst snd].
    destruct (t' >? lit 0 1)%f32; reflexivity. }
  split; [exact Hs|]. split.
  - intros Hh.
    assert (Ht : t = lit 0 1).
    { unfold t. destruct (enhanced_rayMarch_cases ro rd)
        as [(t' & Hw & Hr) | (t' & Hw & Hr)].
      - rewrite Hr.
        assert (H0 : (0 < Enhanced.MAX_MARCH_STEPS)%nat)
          by (unfold Enhanced.MAX_MARCH_STEPS; lia).
        assert (Hc : forall i, (i < 0)%nat ->
                  Enhanced.hits ro rd i = false /\
                  Enhanced.leaves ro rd i = false) by (intros i Hi; lia).
        pose proof (enhanced_walk_hit ro rd 0 H0 Hc Hh) as Hw'.
        rewrite Hw in Hw'. now injection Hw' as ->.
      - assert (H0 : (0 < Enhanced.MAX_MARCH_STEPS)%nat)
          by (unfold Enhanced.MAX_MARCH_STEPS; lia).
        assert (Hc : forall i, (i < 0)%nat ->
                  Enhanced.hits ro rd i = false /\
                  Enhanced.leaves ro rd i = false) by (intros i Hi; lia).
        pose proof (enhanced_walk_hit ro rd 0 H0 Hc Hh) as Hw'.
        destruct Hw as [Hw | Hw]; rewrite Hw in Hw'; discriminate. }
    split; [exact Ht|]. rewrite Hs, Ht. reflexivity.
  - intros Ht. rewrite Hs, Ht. reflexivity.
Qed.

(** A ray whose origin is the fixed point (1,1,1) of the folding: the first
    sample is already under the threshold, the marcher returns 0 and the
    pixel is drawn as background. *)
Lemma sample_color_hit_test_witness :
  let ro := Vec3 (lit 1 1) (lit 1 1) (lit 1 1) in
  let rd := Vec3 (lit 0 1) (lit 0 1) (lit (-1) 1) in
  let sky := fun _ : vec3 => vec3_of (lit 1 10) in
  let glow := fun (_ _ : vec3) (_ : float) => vec3_of (lit 0 1) in
  let shade := fun (_ _ : vec3) (_ : float) (_ : vec3) => vec3_of (lit 1 1) in
  Enhanced.hits ro rd 0 = true /\
  fst (Enhanced.rayMarch ro rd) = lit 0 1 /\
  Enhanced.sample_color sky glow shade ro rd =
    vadd (sky rd) (vmuls (glow ro rd Enhanced.MAX_DIST) (lit 2 1)).
Proof.
  intros ro rd sky glow shade.
  assert (Hh : Enhanced.hits ro rd 0 = true) by (vm_compute; reflexivity).
  split; [exact Hh|].
  exact (proj1 (proj2 (sample_color_hit_test sky glow shade ro rd)) Hh).
Defined.

(** ** The host program: camera and palette state *)

Section HostState.
Import Enhanced.

Lemma mem_float_In (x : float) (l : list float) :
  mem_float x l = true -> In x l.
Proof.
  unfold mem_float. rewrite existsb_exists. intros (y & Hy & H).
  destruct x as [| | |s m e]; try discriminate.
  destruct y as [| | |s' m' e']; try discriminate.
  apply andb_true_iff in H. destruct H as [H He].
  apply andb_true_iff in H. destruct H as [Hs Hm].
  apply Bool.eqb_prop in Hs. apply Pos.eqb_eq in Hm. apply Z.eqb_eq in He.
  now subst.
Qed.

Lemma zoom_in_eq (s : app_state) :
  cameraDistance (handle_key SDLK_PLUS s) = zoom_in (cameraDistance s).
Proof. reflexivity. Qed.

Lemma zoom_out_eq (s : app_state) :
  cameraDistance (handle_key SDLK_MINUS s) = zoom_out (cameraDistance s).
Proof. reflexivity. Qed.

(** The list of reachable distances is closed under both zoom handlers, holds
    the reset value, and lies between 2.0 and 10.0. *)
Lemma reachable_closed (d : float) :
  In d reachable_distances ->
  In (zoom_in d) reachable_distances /\ In (zoom_out d) reachable_distances.
Proof.
  assert (H : forallb (fun d =>
                mem_float (zoom_in d) reachable_distances &&
                mem_float (zoom_out d) reachable_distances)
                reachable_distances = true) by (vm_compute; reflexivity).
  rewrite forallb_forall in H. intros Hd.
  apply H, andb_true_iff in Hd. destruct Hd as [Hi Ho].
  split; now apply mem_float_In.
Qed.

Lemma reachable_reset : In (lit 9 2) reachable_distances.
Proof. apply mem_float_In. vm_compute. reflexivity. Qed.

Lemma reachable_bounds (d : float) :
  In d reachable_distances ->
  (lit 2 1 <=? d)%f32 = true /\ (d <=? lit 10 1)%f32 = true.
Proof.
  assert (H : forallb (fun d => (lit 2 1 <=? d)%f32 && (d <=? lit 10 1)%f32)
                reachable_distances = true) by (vm_compute; reflexivity).
  rewrite forallb_forall in H. intros Hd.
  now apply H, andb_true_iff in Hd.
Qed.

Lemma palette_step (c : Z) :
  0 <= c <= 3 -> 0 <= Z.rem (wrap_int (c + 1)) 4 <= 3.
Proof.
  intros Hc.
  assert (H : c = 0 \/ c = 1 \/ c = 2 \/ c = 3) by lia.
  destruct H as [-> | [-> | [-> | ->]]]; vm_compute; split; discriminate.
Qed.

Lemma initial_invariant : camera_invariant initial_state.
Proof. split; [exact reachable_reset | simpl; lia]. Qed.

Lemma handle_key_invariant (sym : keysym) (s : app_state) :
  camera_invariant s -> camera_invariant (handle_key sym s).
Proof.
  intros [Hd Hp]. destruct (reachable_closed _ Hd) as [Hi Ho].
  destruct sym; split;
    try exact Hd; try exact Hp;
    try (rewrite zoom_in_eq; exact Hi);
    try (rewrite zoom_out_eq; exact Ho).
  - now apply palette_step.
  - exact Hi.
  - exact reachable_reset.
Qed.

Lemma handle_event_invariant (s : app_state) (e : event) :
  camera_invariant s -> camera_invariant (handle_event s e).
Proof.
  intros H. destruct e; try exact H.
  now apply handle_key_invariant.
Qed.

Lemma poll_events_invariant (pending : list event) (s : app_state) :
  camera_invariant s -> camera_invariant (poll_events s pending).
Proof.
  revert s. induction pending as [|e l IH]; intros s H; [exact H|].
  apply IH. now apply handle_event_invariant.
Qed.

Lemma main_loop_invariant (frames : list (list event)) (s : app_state) :
  camera_invariant s -> camera_invariant (main_loop frames s).
Proof.
  revert s. induction frames as [|f l IH]; intros s H; [exact H|].
  cbn [main_loop]. destruct (running s); [|exact H].
  apply IH. now apply poll_events_invariant.
Qed.

End HostState.

(** C5.  Camera and palette bounds.  After any finite sequence of events
    handled from the initial state (palette 0, distance 4.5), whether given
    as one batch or frame by frame through the main loop, the camera distance
    lies between 2.0 and 10.0 and the palette index between 0 and 3; each
    event handler keeps the invariant that gives these bounds. *)
Theorem camera_distance_and_palette_bounds :
  (forall pending : list Enhanced.event,
     let s := Enhanced.poll_events Enhanced.initial_state pending in
     (lit 2 1 <=? Enhanced.cameraDistance s)%f32 = true /\
     (Enhanced.cameraDistance s <=? lit 10 1)%f32 = true /\
     0 <= Enhanced.colorPalette s <= 3) /\
  (forall frames : list (list Enhanced.event),
     let s := Enhanced.main_loop frames Enhanced.initial_state in
     (lit 2 1 <=? Enhanced.cameraDistance s)%f32 = true /\
     (Enhanced.cameraDistance s <=? lit 10 1)%f32 = true /\
     0 <= Enhanced.colorPalette s <= 3) /\
  Enhanced.camera_invariant Enhanced.initial_state /\
  (forall s e,
     Enhanced.camera_invariant s ->
     Enhanced.camera_invariant (Enhanced.handle_event s e)).
Proof.
  split; [|split; [|split]].
  - intros pending s.
    destruct (poll_events_invariant pending _ initial_invariant) as [Hd Hp].
    destruct (reachable_bounds _ Hd) as [Hlo Hhi]. auto.
  - intros frames s.
    destruct (main_loop_invariant frames _ initial_invariant) as [Hd Hp].
    destruct (reachable_bounds _ Hd) as [Hlo Hhi]. auto.
  - exact initial_invariant.
  - exact handle_event_invariant.
Qed.

(** C6.  The clamps.  A hundred '+' presses from distance 4.5 leave the
    distance at exactly 2.0: the thirteenth press reaches the clamp and every
    further press keeps it.  A hundred '-' presses from distance 2.0 leave it
    at exactly 10.0: in binary32 the fortieth press gives a value just under
    10.0, the forty-first reaches the clamp and every further press keeps it. *)
Theorem zoom_clamps_after_hundred_presses :
  let plus := Enhanced.SDL_KEYDOWN Enhanced.SDLK_PLUS in
  let minus := Enhanced.SDL_KEYDOWN Enhanced.SDLK_MINUS in
  let at_two := Enhanced.set_cameraDistance Enhanced.initial_state (lit 2 1) in
  Enhanced.cameraDistance Enhanced.initial_state = lit 9 2 /\
  Enhanced.cameraDistance
    (Enhanced.poll_events Enhanced.initial_state (repeat plus 100)) = lit 2 1 /\
  (forall n : nat,
     Enhanced.cameraDistance
       (Enhanced.poll_events Enhanced.initial_state (repeat plus (13 + n))) =
     lit 2 1) /\
  Enhanced.cameraDistance
    (Enhanced.poll_events at_two (repeat minus 100)) = lit 10 1 /\
  (forall n : nat,
     Enhanced.cameraDistance
       (Enhanced.poll_events at_two (repeat minus (41 + n))) = lit 10 1).
Proof.
  intros plus minus at_two.
  assert (Hplus : forall n s,
            Enhanced.cameraDistance s = lit 2 1 ->
            Enhanced.cameraDistance
              (Enhanced.poll_events s (repeat plus n)) = lit 2 1).
  { induction n as [|n IH]; intros s Hs; [exact Hs|].
    cbn [repeat Enhanced.poll_events fold_left]. apply IH.
    unfold plus. cbn [Enhanced.handle_event]. rewrite zoom_in_eq, Hs.
    vm_compute. reflexivity. }
  assert (Hminus : forall n s,
            Enhanced.cameraDistance s = lit 10 1 ->
            Enhanced.cameraDistance
              (Enhanced.poll_events s (repeat minus n)) = lit 10 1).
  { induction n as [|n IH]; intros s Hs; [exact Hs|].
    cbn [repeat Enhanced.poll_events fold_left]. apply IH.
    unfold minus. cbn [Enhanced.handle_event]. rewrite zoom_out_eq, Hs.
    vm_compute. reflexivity. }
  split; [reflexivity|]. split; [vm_compute; reflexivity|]. split.
  - intros n. rewrite repeat_app. unfold Enhanced.poll_events.
    rewrite fold_left_app. apply Hplus. vm_compute. reflexivity.
  - split; [vm_compute; reflexivity|].
    intros n. rewrite repeat_app. unfold Enhanced.poll_events.
    rewrite fold_left_app. apply Hminus. vm_compute. reflexivity.
Qed.

(** * Further properties of the code *)

(** ** More facts about binary32: no NaN out of rounding, order, clamp *)

Section FloatNumbers.

Lemma iter_pos_invariant {A : Type} (P : A -> Prop) (f : A -> A) :
  (forall x, P x -> P (f x)) ->
  forall (n : positive) (x : A), P x -> P (SpecFloat.iter_pos f n x).
Proof.
  intros Hf. induction n as [n IH | n IH |]; intros x Hx; cbn [SpecFloat.iter_pos].
  - apply IH, IH, Hf, Hx.
  - apply IH, IH, Hx.
  - apply Hf, Hx.
Qed.

Lemma shr_1_nonneg (mrs : shr_record) : 0 <= shr_m mrs -> 0 <= shr_m (shr_1 mrs).
Proof.
  destruct mrs as [m r s]. cbn [shr_m]. intros Hm.
  destruct m as [|[p | p |]|p]; cbn; lia.
Qed.

Lemma shr_fexp_nonneg (m e : Z) (l : location) :
  0 <= m -> 0 <= shr_m (fst (shr_fexp prec emax m e l)).
Proof.
  intros Hm. unfold shr_fexp, shr.
  assert (H0 : 0 <= shr_m (shr_record_of_loc m l))
    by (destruct l as [|[| |]]; exact Hm).
  destruct (fexp prec emax (Zdigits2 m + e) - e) as [|p|p]; cbn [fst];
    try exact H0.
  now apply (iter_pos_invariant (fun r => 0 <= shr_m r) shr_1 shr_1_nonneg).
Qed.

Lemma round_nearest_even_nonneg (m : Z) (l : location) :
  0 <= m -> 0 <= round_nearest_even m l.
Proof.
  intros Hm. unfold round_nearest_even.
  destruct l as [|[| |]]; try destruct (Z.even m); lia.
Qed.

(** Rounding a mantissa that is not negative never gives a NaN. *)
Lemma round_aux_not_nan (s : bool) (m e : Z) (l : location) :
  0 <= m -> is_nan (binary_round_aux prec emax s m e l) = false.
Proof.
  intros Hm. unfold binary_round_aux.
  pose proof (shr_fexp_nonneg m e l Hm) as H1.
  destruct (shr_fexp prec emax m e l) as [mrs e']. cbn [fst] in H1.
  pose proof (shr_fexp_nonneg _ e' loc_Exact
                (round_nearest_even_nonneg _ (loc_of_shr_record mrs) H1))
    as H2.
  destruct (shr_fexp prec emax _ e' loc_Exact) as [mrs' e'']. cbn [fst] in H2.
  destruct (shr_m mrs') as [|p|p]; [reflexivity | | lia].
  destruct (e'' <=? emax - prec); reflexivity.
Qed.

Lemma round_not_nan (s : bool) (m : positive) (e : Z) :
  is_nan (binary_round prec emax s m e) = false.
Proof.
  unfold binary_round. destruct (shl_align m e _) as [mz ez].
  apply round_aux_not_nan. lia.
Qed.

Lemma normalize_not_nan (m e : Z) (sz : bool) :
  is_nan (binary_normalize prec emax m e sz) = false.
Proof. destruct m; [reflexivity | apply round_not_nan ..]. Qed.

Lemma mul_finite_not_nan (x : float) (s : bool) (m : positive) (e : Z) :
  is_nan x = false ->
  is_nan (x * S754_finite s m e)%f32 = false /\
  is_nan (S754_finite s m e * x)%f32 = false.
Proof.
  destruct x as [sx | sx | | sx mx ex]; intros Hx; try discriminate;
    split; try reflexivity; apply round_aux_not_nan; lia.
Qed.

Lemma square_not_nan (x : float) : is_nan x = false -> is_nan (x * x)%f32 = false.
Proof.
  destruct x as [sx | sx | | sx mx ex]; intros Hx; try discriminate;
    try reflexivity.
  apply round_aux_not_nan. lia.
Qed.

Lemma nonneg_square (x : float) : nonneg (x * x)%f32 = true.
Proof.
  destruct x as [sx | sx | | sx mx ex]; try reflexivity;
    try (destruct sx; reflexivity).
  unfold mul, SFmul. rewrite xorb_nilpotent. apply round_aux_nonneg.
Qed.

Lemma sub_finite_not_nan (x c : float) :
  is_nan x = false -> is_finite c = true -> is_nan (x - c)%f32 = false.
Proof.
  destruct x as [sx | sx | | sx mx ex], c as [sc | sc | | sc mc ec];
    intros Hx Hc; try discriminate; try reflexivity;
    try (destruct sx, sc; reflexivity).
  apply normalize_not_nan.
Qed.

Lemma add_finite_not_nan (x c : float) :
  is_nan x = false -> is_finite c = true -> is_nan (x + c)%f32 = false.
Proof.
  destruct x as [sx | sx | | sx mx ex], c as [sc | sc | | sc mc ec];
    intros Hx Hc; try discriminate; try reflexivity;
    try (destruct sx, sc; reflexivity).
  apply normalize_not_nan.
Qed.

Lemma add_nonneg_not_nan (x y : float) :
  nonneg x = true -> nonneg y = true ->
  is_nan x = false -> is_nan y = false -> is_nan (x + y)%f32 = false.
Proof.
  destruct x as [sx | sx | | sx mx ex], y as [sy | sy | | sy my ey];
    cbn [nonneg is_nan]; intros Hx Hy Nx Ny; try discriminate;
    try (apply negb_true_iff in Hx; subst sx);
    try (apply negb_true_iff in Hy; subst sy);
    try reflexivity; try (destruct sx, sy; reflexivity).
  apply normalize_not_nan.
Qed.

Lemma sqrt_not_nan (x : float) :
  nonneg x = true -> is_nan x = false -> is_nan (sqrt x) = false.
Proof.
  destruct x as [sx | sx | | sx mx ex]; cbn [nonneg is_nan]; intros Hx Nx;
    try discriminate; try reflexivity;
    apply negb_true_iff in Hx; subst sx; try reflexivity.
  unfold sqrt, SFsqrt, SFsqrt_core_binary.
  set (m' := match _ - 2 * _ with Z.pos _ => _ | 0 => _ | Z.neg _ => 0 end).
  pose proof (Z.sqrtrem_spec m') as Hs.
  destruct (Z.sqrtrem m') as [q r].
  apply round_aux_not_nan.
  assert (Hm : 0 <= m').
  { unfold m'. destruct (_ - 2 * _); try lia. apply Z.shiftl_nonneg. lia. }
  specialize (Hs Hm). cbv zeta in Hs. nia.
Qed.

Lemma div_finite_not_nan (x : float) (s : bool) (m : positive) (e : Z) :
  is_nan x = false -> is_nan (x / S754_finite s m e)%f32 = false.
Proof.
  destruct x as [sx | sx | | sx mx ex]; intros Hx; try discriminate;
    try reflexivity.
  unfold div, SFdiv, SFdiv_core_binary.
  set (m' := match _ - _ - _ with Z.pos _ => _ | 0 => _ | Z.neg _ => 0 end).
  assert (Hm : 0 <= m').
  { unfold m'. destruct (_ - _ - _); try lia. apply Z.shiftl_nonneg. lia. }
  pose proof (Z_div_mod m' (Z.pos m) ltac:(lia)) as Hd.
  destruct (Z.div_eucl m' (Z.pos m)) as [q r].
  apply round_aux_not_nan. nia.
Qed.

Lemma opp_not_nan (x : float) : is_nan (- x)%f32 = is_nan x.
Proof. destruct x; reflexivity. Qed.

Lemma abs_nonneg_number (x : float) :
  nonneg (abs x) = true /\ is_nan (abs x) = is_nan x.
Proof. destruct x; split; reflexivity. Qed.

(** The comparison is total on the values that are not NaN. *)
Lemma not_ltb_leb (x y : float) :
  is_nan x = false -> is_nan y = false ->
  (x <? y)%f32 = false -> (y <=? x)%f32 = true.
Proof.
  unfold ltb, leb, SFltb, SFleb, SFcompare.
  destruct x as [sx | [|] | | [|] mx ex], y as [sy | [|] | | [|] my ey];
    intros Nx Ny; try discriminate; try reflexivity;
    rewrite (Z.compare_antisym ex ey);
    change (Pos.compare_cont Eq my mx) with (Pos.compare my mx);
    change (Pos.compare_cont Eq mx my) with (Pos.compare mx my);
    rewrite (Pos.compare_antisym mx my);
    destruct (ex ?= ey); cbn; try discriminate; try reflexivity;
    destruct (mx ?= my)%positive; cbn; try discriminate; reflexivity.
Qed.

Lemma ltb_leb_trans (x y z : float) :
  (x <? y)%f32 = true -> (y <=? z)%f32 = true -> (x <=? z)%f32 = true.
Proof.
  unfold ltb, leb, SFltb, SFleb, SFcompare.
  destruct x as [sx | [|] | | [|] mx ex], y as [sy | [|] | | [|] my ey],
    z as [sz | [|] | | [|] mz ez]; try discriminate; try reflexivity;
    intros H1 H2; revert H1 H2;
    repeat match goal with
    | |- context [Z.compare ?a ?b] =>
        let H := fresh in destruct (Z.compare_spec a b) as [H | H | H];
        [try subst | |]
    | |- context [Pos.compare_cont Eq ?a ?b] =>
        change (Pos.compare_cont Eq a b) with (Pos.compare a b)
    | |- context [Pos.compare ?a ?b] =>
        let H := fresh in destruct (Pos.compare_spec a b) as [H | H | H];
        [try subst | |]
    end; simpl in *; try discriminate; try reflexivity; try lia.
Qed.

Lemma nonneg_leb_zero (x : float) :
  nonneg x = true -> is_nan x = false -> (lit 0 1 <=? x)%f32 = true.
Proof.
  destruct x as [sx | sx | | sx mx ex]; cbn [nonneg is_nan]; intros Hx Nx;
    try discriminate; try reflexivity;
    apply negb_true_iff in Hx; subst sx; reflexivity.
Qed.

Lemma leb_not_nan (x y : float) :
  (x <=? y)%f32 = true -> is_nan x = false /\ is_nan y = false.
Proof. destruct x, y; try discriminate; split; reflexivity. Qed.

(** [clamp x 0.0 1.0] of a number is a number between 0 and 1. *)
Lemma clamp_unit_range (x : float) :
  is_nan x = false ->
  (lit 0 1 <=? clamp x (lit 0 1) (lit 1 1))%f32 = true /\
  (clamp x (lit 0 1) (lit 1 1) <=? lit 1 1)%f32 = true.
Proof.
  intros Nx. unfold clamp, fmax, fmin.
  destruct (x <? lit 0 1)%f32 eqn:E0.
  - split; reflexivity.
  - destruct (lit 1 1 <? x)%f32 eqn:E1.
    + split; reflexivity.
    + split; apply not_ltb_leb; auto.
Qed.

Lemma clamp_unit_nan : clamp S754_nan (lit 0 1) (lit 1 1) = S754_nan.
Proof. reflexivity. Qed.

End FloatNumbers.

(** ** The distance estimators on points without a NaN *)

Section EstimatorNumbers.

Lemma not_nan3_iff (v : vec3) :
  not_nan3 v = true <->
  is_nan (vx v) = false /\ is_nan (vy v) = false /\ is_nan (vz v) = false.
Proof.
  unfold not_nan3. rewrite !andb_true_iff, !negb_true_iff. tauto.
Qed.

Lemma finite3_iff (v : vec3) :
  finite3 v = true <->
  is_finite (vx v) = true /\ is_finite (vy v) = true /\
  is_finite (vz v) = true.
Proof. unfold finite3. rewrite !andb_true_iff. tauto. Qed.

Lemma vdot_self_number (v : vec3) :
  not_nan3 v = true ->
  nonneg (vdot v v) = true /\ is_nan (vdot v v) = false.
Proof.
  rewrite not_nan3_iff. intros (Hx & Hy & Hz). unfold vdot.
  pose proof (nonneg_square (vx v)). pose proof (nonneg_square (vy v)).
  pose proof (nonneg_square (vz v)).
  pose proof (square_not_nan _ Hx). pose proof (square_not_nan _ Hy).
  pose proof (square_not_nan _ Hz).
  assert (nonneg (vx v * vx v + vy v * vy v)%f32 = true)
    by now apply nonneg_add.
  assert (is_nan (vx v * vx v + vy v * vy v)%f32 = false)
    by now apply add_nonneg_not_nan.
  split; [now apply nonneg_add | now apply add_nonneg_not_nan].
Qed.

Lemma vlength_number (v : vec3) :
  not_nan3 v = true -> is_nan (vlength v) = false.
Proof.
  intros Hv. destruct (vdot_self_number v Hv) as [Hn Hnan].
  now apply sqrt_not_nan.
Qed.

Lemma vsub_finite_not_nan (p c : vec3) :
  not_nan3 p = true -> finite3 c = true -> not_nan3 (vsub p c) = true.
Proof.
  rewrite !not_nan3_iff, finite3_iff. cbn [vsub vx vy vz].
  intros (Hx & Hy & Hz) (Cx & Cy & Cz).
  repeat split; now apply sub_finite_not_nan.
Qed.

Lemma contraction_not_nan (p : vec3) :
  not_nan3 p = true -> not_nan3 (Simple.contraction p) = true.
Proof.
  intros Hp. unfold Simple.contraction.
  apply vsub_finite_not_nan.
  - apply not_nan3_iff in Hp. destruct Hp as (Hx & Hy & Hz).
    apply not_nan3_iff. cbn [smulv vx vy vz].
    assert (E : Simple.scale = S754_finite false 8388608 (-22))
      by (vm_compute; reflexivity).
    rewrite E. repeat split; now apply mul_finite_not_nan.
  - unfold Simple.nearestVertex.
    pose proof (nearest_index_range p) as Hi.
    destruct (Simple.nearest_index p) as [|[|[|[|i]]]]; try lia;
      vm_compute; reflexivity.
Qed.

Lemma contractions_not_nan (k : nat) (p : vec3) :
  not_nan3 p = true -> not_nan3 (Nat.iter k Simple.contraction p) = true.
Proof.
  intros Hp. induction k as [|k IH]; [exact Hp|].
  rewrite Nat.iter_succ. now apply contraction_not_nan.
Qed.

Lemma fold_not_nan (z : vec3) :
  not_nan3 z = true ->
  not_nan3 (Enhanced.fold_xy z) = true /\
  not_nan3 (Enhanced.fold_xz z) = true /\
  not_nan3 (Enhanced.fold_zy z) = true /\
  not_nan3 (Enhanced.fold_swap z) = true.
Proof.
  intros Hz. pose proof Hz as Hz'.
  apply not_nan3_iff in Hz'. destruct Hz' as (Hx & Hy & Hw).
  unfold Enhanced.fold_xy, Enhanced.fold_xz, Enhanced.fold_zy,
    Enhanced.fold_swap.
  repeat split;
    match goal with |- context [if ?b then _ else _] => destruct b end;
    try exact Hz; apply not_nan3_iff; cbn [vx vy vz];
    rewrite ?opp_not_nan; auto.
Qed.

Lemma next_z_not_nan (z : vec3) :
  not_nan3 z = true -> not_nan3 (Enhanced.next_z z) = true.
Proof.
  intros Hz. unfold Enhanced.next_z.
  set (w := Enhanced.fold_swap _).
  assert (Hw : not_nan3 w = true).
  { unfold w. apply fold_not_nan, fold_not_nan, fold_not_nan, fold_not_nan.
    exact Hz. }
  clearbody w. apply not_nan3_iff in Hw. destruct Hw as (Hx & Hy & Hv).
  assert (E : Enhanced.FRACTAL_SCALE = S754_finite false 8388608 (-22))
    by (vm_compute; reflexivity).
  assert (F : is_finite (lit 1 1 * (Enhanced.FRACTAL_SCALE - lit 1 1))%f32
              = true) by (vm_compute; reflexivity).
  apply not_nan3_iff. cbn [vsubs vmuls vx vy vz]. rewrite E in *.
  repeat split; apply sub_finite_not_nan; try exact F;
    now apply mul_finite_not_nan.
Qed.

Lemma orbit_not_nan (k : nat) (p : vec3) :
  not_nan3 p = true -> not_nan3 (Enhanced.orbit_point p k) = true.
Proof.
  intros Hp. unfold Enhanced.orbit_point.
  induction k as [|k IH]; [exact Hp|].
  rewrite Nat.iter_succ. now apply next_z_not_nan.
Qed.

End EstimatorNumbers.

(** X1.  Non-negativity of the simple distance estimator.  On a point none
    of whose components is NaN (infinite components included) the estimator
    returns a value that is not NaN and not below zero. *)
Theorem sierpinskiSDF_number_not_below_zero :
  forall p : vec3,
    not_nan3 p = true ->
    is_nan (Simple.sierpinskiSDF p) = false /\
    (lit 0 1 <=? Simple.sierpinskiSDF p)%f32 = true.
Proof.
  intros p Hp.
  assert (Hnan : is_nan (Simple.sierpinskiSDF p) = false).
  { rewrite sierpinskiSDF_eq.
    assert (E : pow2 (-12) = S754_finite false 8388608 (-35))
      by (vm_compute; reflexivity).
    rewrite E. apply mul_finite_not_nan, vlength_number.
    now apply contractions_not_nan. }
  split; [exact Hnan|].
  apply nonneg_leb_zero; [apply sierpinskiSDF_nonneg | exact Hnan].
Qed.

Lemma sierpinskiSDF_number_witness :
  let p := Vec3 (lit 0 1) (lit 0 1) (lit 9 2) in
  is_nan (Simple.sierpinskiSDF p) = false /\
  (lit 0 1 <=? Simple.sierpinskiSDF p)%f32 = true.
Proof.
  intros p. apply (sierpinskiSDF_number_not_below_zero p).
  vm_compute. reflexivity.
Defined.

(** X2.  Non-negativity of the enhanced distance estimator.  On a point none
    of whose components is NaN, [sdSierpinski] and [map] return a distance
    that is not NaN and not below zero, whatever the [out] parameter held. *)
Theorem sdSierpinski_number_not_below_zero :
  forall p orbitTrap : vec3,
    not_nan3 p = true ->
    is_nan (fst (Enhanced.sdSierpinski p orbitTrap)) = false /\
    (lit 0 1 <=? fst (Enhanced.sdSierpinski p orbitTrap))%f32 = true /\
    Enhanced.map p = fst (Enhanced.sdSierpinski p orbitTrap).
Proof.
  intros p orbitTrap Hp.
  assert (Hnan : is_nan (fst (Enhanced.sdSierpinski p orbitTrap)) = false).
  { rewrite sdSierpinski_eq. cbn [fst].
    apply div_finite_not_nan.
    assert (E : lit 1 2 = S754_finite false 8388608 (-24))
      by (vm_compute; reflexivity).
    rewrite E. apply mul_finite_not_nan, vlength_number.
    now apply orbit_not_nan. }
  split; [exact Hnan|]. split.
  - apply nonneg_leb_zero; [apply sdSierpinski_nonneg | exact Hnan].
  - unfold Enhanced.map. now rewrite !sdSierpinski_eq.
Qed.

Lemma sdSierpinski_number_witness :
  let p := Vec3 (lit 0 1) (lit 0 1) (lit 9 2) in
  is_nan (fst (Enhanced.sdSierpinski p undef3)) = false /\
  (lit 0 1 <=? fst (Enhanced.sdSierpinski p undef3))%f32 = true /\
  Enhanced.map p = fst (Enhanced.sdSierpinski p undef3).
Proof.
  intros p. apply (sdSierpinski_number_not_below_zero p undef3).
  vm_compute. reflexivity.
Defined.

(** ** Ranges of the orbit trap, the shadow and the occlusion *)

Section ShaderRanges.

(** One more minimum keeps a component between 0 and a bound when the value
    offered is not below zero. *)
Lemma fmin_in_range (x y hi : float) :
  (lit 0 1 <=? x)%f32 = true -> (x <=? hi)%f32 = true ->
  nonneg y = true ->
  (lit 0 1 <=? fmin x y)%f32 = true /\ (fmin x y <=? hi)%f32 = true.
Proof.
  intros Hlo Hhi Hy. unfold fmin. destruct (y <? x)%f32 eqn:E.
  - split.
    + apply nonneg_leb_zero; [exact Hy | now apply ltb_not_nan_l in E].
    + now apply ltb_leb_trans with (y := x).
  - now split.
Qed.

Lemma in_trap_range_iff (v : vec3) :
  Enhanced.in_trap_range v = true <->
  ((lit 0 1 <=? vx v)%f32 = true /\ (vx v <=? of_Z (10 ^ 10))%f32 = true) /\
  ((lit 0 1 <=? vy v)%f32 = true /\ (vy v <=? of_Z (10 ^ 10))%f32 = true) /\
  ((lit 0 1 <=? vz v)%f32 = true /\ (vz v <=? of_Z (10 ^ 10))%f32 = true).
Proof. unfold Enhanced.in_trap_range. rewrite !andb_true_iff. tauto. Qed.

Lemma vmin_in_range (a b : vec3) :
  Enhanced.in_trap_range a = true -> nonneg3 b ->
  Enhanced.in_trap_range (vmin a b) = true.
Proof.
  rewrite !in_trap_range_iff. cbn [vmin vx vy vz].
  intros ([? ?] & [? ?] & [? ?]) (? & ? & ?).
  split; [|split]; now apply fmin_in_range.
Qed.

Lemma trap_sample_nonneg (z : vec3) : nonneg3 (Enhanced.trap_sample z).
Proof.
  unfold nonneg3, Enhanced.trap_sample. cbn [vx vy vz]. repeat split.
  - apply nonneg_sqrt.
  - repeat apply nonneg_add; apply abs_nonneg_number.
  - unfold vdot. repeat apply nonneg_add; apply nonneg_square.
Qed.

Lemma in_trap_range_nonneg (v : vec3) :
  Enhanced.in_trap_range v = true -> nonneg3 v.
Proof.
  rewrite in_trap_range_iff. intros ([Hx _] & [Hy _] & [Hz _]).
  unfold nonneg3.
  repeat split;
    match goal with
    | H : (_ <=? ?c)%f32 = true |- nonneg ?c = true =>
        destruct c as [| [|] | | [|] ? ?]; try reflexivity; discriminate H
    end.
Qed.

Lemma running_minimum_in_range (p : vec3) (k : nat) :
  Enhanced.in_trap_range (Enhanced.running_minimum p k) = true.
Proof.
  rewrite <- (trap_running_minimum k p undef3).
  induction k as [|k IH]; [vm_compute; reflexivity|].
  rewrite sd_after_trap. apply vmin_in_range; [exact IH|].
  apply trap_sample_nonneg.
Qed.

Lemma sdSierpinski_trap_in_range (p orbitTrap : vec3) :
  Enhanced.in_trap_range (snd (Enhanced.sdSierpinski p orbitTrap)) = true.
Proof. rewrite sdSierpinski_eq. apply running_minimum_in_range. Qed.

Lemma march_loop_trap_in_range (ro rd : vec3) (k : nat) (t : float)
  (orbitTrap : vec3) :
  Enhanced.in_trap_range orbitTrap = true ->
  match Enhanced.march_loop k ro rd t orbitTrap with
  | Returned (_, ot) | Broke (_, ot) | Exhausted (_, ot) =>
      Enhanced.in_trap_range ot = true
  end.
Proof.
  revert t orbitTrap.
  induction k as [|k IH]; intros t orbitTrap Hot; cbn [Enhanced.march_loop].
  - exact Hot.
  - pose proof (sdSierpinski_trap_in_range (vadd ro (vmuls rd t)) undef3)
      as Htrap.
    destruct (Enhanced.sdSierpinski (vadd ro (vmuls rd t)) undef3)
      as [d trap]. cbn [snd] in Htrap.
    assert (Hmin : Enhanced.in_trap_range (vmin orbitTrap trap) = true)
      by (apply vmin_in_range; [exact Hot | now apply in_trap_range_nonneg]).
    destruct (d <? Enhanced.HIT_THRESHOLD)%f32; [exact Hmin|].
    destruct (t + d * lit 6 10 >? Enhanced.MAX_DIST)%f32; [exact Hmin|].
    now apply IH.
Qed.

(** The result of the shadow loop that reaches the clamp is never NaN. *)
Lemma shadow_loop_not_nan (ro rd : vec3) (maxt k : float) (i : nat)
  (res t : float) :
  is_nan res = false ->
  match Enhanced.shadow_loop i ro rd maxt k res t with
  | Returned v => v = lit 0 1
  | Broke r | Exhausted r => is_nan r = false
  end.
Proof.
  revert res t.
  induction i as [|i IH]; intros res t Hres; cbn [Enhanced.shadow_loop].
  - exact Hres.
  - destruct (Enhanced.map (vadd ro (vmuls rd t)) <? Enhanced.HIT_THRESHOLD)%f32;
      [reflexivity|].
    pose proof (fmin_not_nan res
      (k * Enhanced.map (vadd ro (vmuls rd t)) / t)%f32 Hres) as Hmin.
    destruct (t + Enhanced.map (vadd ro (vmuls rd t)) >? maxt)%f32;
      [exact Hmin|].
    now apply IH.
Qed.

Lemma shadow_loop_first_hit (ro rd : vec3) (maxt k : float) (i : nat)
  (res t : float) :
  (Enhanced.map (vadd ro (vmuls rd t)) <? Enhanced.HIT_THRESHOLD)%f32 = true ->
  Enhanced.shadow_loop (S i) ro rd maxt k res t = Returned (lit 0 1).
Proof. intros H. cbn [Enhanced.shadow_loop]. now rewrite H. Qed.

End ShaderRanges.

(** X3.  Range of the orbit trap.  For every point and every ray, hit or
    miss, each component of the orbit trap that [sdSierpinski] and [rayMarch]
    hand back is a number between 0 and the reset value 1e10: the values the
    colouring reads are never NaN, negative or infinite. *)
Theorem orbitTrap_in_range :
  (forall p orbitTrap : vec3,
     Enhanced.in_trap_range (snd (Enhanced.sdSierpinski p orbitTrap)) = true) /\
  (forall ro rd : vec3,
     Enhanced.in_trap_range (snd (Enhanced.rayMarch ro rd)) = true).
Proof.
  split; [exact sdSierpinski_trap_in_range|].
  intros ro rd. unfold Enhanced.rayMarch.
  pose proof (march_loop_trap_in_range ro rd Enhanced.MAX_MARCH_STEPS
                (lit 0 1) Enhanced.trap_reset) as H.
  destruct (Enhanced.march_loop Enhanced.MAX_MARCH_STEPS ro rd (lit 0 1)
              Enhanced.trap_reset) as [[t ot] | [t ot] | [t ot]];
    cbn [snd]; apply H; vm_compute; reflexivity.
Qed.

(** X4.  Range of the soft shadow.  For all arguments, NaN and infinities
    included, [calcShadow] returns a number between 0 and 1; when the first
    sample is under the hit threshold it returns exactly 0. *)
Theorem calcShadow_unit_range :
  forall (ro rd : vec3) (mint maxt k : float),
    (lit 0 1 <=? Enhanced.calcShadow ro rd mint maxt k)%f32 = true /\
    (Enhanced.calcShadow ro rd mint maxt k <=? lit 1 1)%f32 = true /\
    ((Enhanced.map (vadd ro (vmuls rd mint)) <? Enhanced.HIT_THRESHOLD)%f32
       = true ->
     Enhanced.calcShadow ro rd mint maxt k = lit 0 1).
Proof.
  intros ro rd mint maxt k. unfold Enhanced.calcShadow.
  split; [|split].
  - pose proof (shadow_loop_not_nan ro rd maxt k 32 (lit 1 1) mint eq_refl)
      as H.
    destruct (Enhanced.shadow_loop 32 ro rd maxt k (lit 1 1) mint)
      as [v | r | r]; [rewrite H; reflexivity | |];
      now apply clamp_unit_range.
  - pose proof (shadow_loop_not_nan ro rd maxt k 32 (lit 1 1) mint eq_refl)
      as H.
    destruct (Enhanced.shadow_loop 32 ro rd maxt k (lit 1 1) mint)
      as [v | r | r]; [rewrite H; reflexivity | |];
      now apply clamp_unit_range.
  - intros Hh. now rewrite (shadow_loop_first_hit ro rd maxt k 31 _ _ Hh).
Qed.

(** X5.  Range of the ambient occlusion.  In both variants, for all
    arguments, [calcAO] returns NaN or a number between 0 and 1. *)
Theorem calcAO_unit_range :
  (forall p n : vec3,
     let r := Simple.calcAO p n in
     is_nan r = true \/
     ((lit 0 1 <=? r)%f32 = true /\ (r <=? lit 1 1)%f32 = true)) /\
  (forall p n : vec3,
     let r := Enhanced.calcAO p n in
     is_nan r = true \/
     ((lit 0 1 <=? r)%f32 = true /\ (r <=? lit 1 1)%f32 = true)).
Proof.
  split; intros p n; cbv zeta.
  - unfold Simple.calcAO.
    destruct (for_loop _ 0 (Simple.ao_body p n) _) as [s m].
    destruct (is_nan (lit 1 1 - lit 3 1 * Simple.ao_occ s)%f32) eqn:E.
    + left. destruct (lit 1 1 - lit 3 1 * Simple.ao_occ s)%f32;
        try discriminate. reflexivity.
    + right. now apply clamp_unit_range.
  - unfold Enhanced.calcAO.
    destruct (for_loop _ 0 (Enhanced.ao_body p n) _) as [s m].
    destruct (is_nan (lit 1 1 - lit 3 1 * Enhanced.ao_ao s)%f32) eqn:E.
    + left. destruct (lit 1 1 - lit 3 1 * Enhanced.ao_ao s)%f32;
        try discriminate. reflexivity.
    + right. now apply clamp_unit_range.
Qed.

(** ** The simple marcher seen from [main]: hit test and step count *)

Section SimpleMain.

Lemma nonneg_number_above_minus_half (x : float) :
  nonneg x = true -> is_nan x = false -> (x >? (- lit 5 10))%f32 = true.
Proof.
  destruct x as [sx | sx | | sx mx ex]; cbn [nonneg is_nan]; intros Hx Nx;
    try discriminate; try reflexivity;
    apply negb_true_iff in Hx; subst sx; reflexivity.
Qed.

Lemma hit_at_O (sample : float -> float) (threshold relaxation t : float) :
  hit_at sample threshold relaxation 0 t = (sample t <? threshold)%f32.
Proof. reflexivity. Qed.

(** The loop counts its advances: from [steps = n], a hit at pass [j] that
    nothing stopped earlier comes back with [steps = n + j]. *)
Lemma march_loop_hit_steps (ro rd : vec3) (j k : nat) (t : float) (n : Z) :
  (j < k)%nat ->
  unstopped (Simple.sample ro rd) Simple.epsilon (lit 1 2) Simple.maxDist j t ->
  hit_at (Simple.sample ro rd) Simple.epsilon (lit 1 2) j t = true ->
  Simple.march_loop k ro rd t n =
  Returned (Simple.sample ro rd (t_seq (Simple.sample ro rd) (lit 1 2) j t),
            t_seq (Simple.sample ro rd) (lit 1 2) j t, n + Z.of_nat j).
Proof.
  revert k t n. induction j as [|j IH]; intros k t n Hk Hc Hh;
    (destruct k as [|k]; [lia|]); cbn [Simple.march_loop];
    rewrite sample_unfold.
  - rewrite hit_at_O in Hh. rewrite Hh, Z.add_0_r. reflexivity.
  - apply unstopped_S in Hc. destruct Hc as (H0 & H1 & Hc).
    rewrite hit_at_shift in Hh. rewrite t_seq_shift.
    unfold advance in H1, Hc, Hh |- *.
    rewrite H0, H1.
    rewrite (IH k _ (n + 1) ltac:(lia) Hc Hh).
    f_equal. f_equal. lia.
Qed.

Lemma simple_march_hit_steps (ro rd : vec3) (k : nat) :
  (k < Simple.maxSteps)%nat ->
  (forall i, (i < k)%nat ->
     Simple.hits ro rd i = false /\ Simple.leaves ro rd i = false) ->
  Simple.hits ro rd k = true ->
  Simple.rayMarch ro rd =
  {| Simple.ret := Simple.sample ro rd (Simple.t_at ro rd k);
     Simple.steps := Z.of_nat k;
     Simple.totalDist := Simple.t_at ro rd k |}.
Proof.
  unfold Simple.hits, Simple.leaves, Simple.t_at, Simple.rayMarch.
  intros Hk Hc Hh.
  rewrite (march_loop_hit_steps ro rd k Simple.maxSteps (lit 0 1) 0 Hk Hc Hh).
  reflexivity.
Qed.

Lemma simple_t_at_O (ro rd : vec3) : Simple.t_at ro rd 0 = lit 0 1.
Proof. unfold Simple.t_at. reflexivity. Qed.

Lemma march_loop_steps_bound (ro rd : vec3) (k : nat) (t : float) (n : Z) :
  match Simple.march_loop k ro rd t n with
  | Returned (_, _, n') | Broke (_, n') | Exhausted (_, n') =>
      n <= n' <= n + Z.of_nat k
  end.
Proof.
  revert t n. induction k as [|k IH]; intros t n; cbn [Simple.march_loop].
  - lia.
  - destruct (Simple.sierpinskiSDF (vadd ro (vmuls rd t)) <? Simple.epsilon)%f32;
      [lia|].
    destruct (_ >? Simple.maxDist)%f32; [lia|].
    specialize (IH (t + Simple.sierpinskiSDF (vadd ro (vmuls rd t)) * lit 1 2)%f32
                  (n + 1)).
    destruct (Simple.march_loop k ro rd _ (n + 1)) as [[[d t'] n'] | [t' n'] | [t' n']];
      lia.
Qed.

End SimpleMain.

(** X6.  The hit test of the simple [main].  The test [hit > -0.5] separates
    the two outcomes of [rayMarch] exactly: the pixel is shaded whenever the
    marcher did not return the sentinel, and left black (before gamma) when
    it did.  In particular a hit at the very first sample, with hit distance
    0, is shaded. *)
Theorem simple_main_hit_test :
  forall (shade : vec3 -> vec3 -> Z -> float -> vec3) (gamma : vec3 -> vec3)
         (ro rd : vec3),
    let r := Simple.rayMarch ro rd in
    (Simple.ret r = (- lit 1 1)%f32 ->
     Simple.main_color shade gamma ro rd = gamma (vec3_of (lit 0 1))) /\
    (Simple.ret r <> (- lit 1 1)%f32 ->
     Simple.main_color shade gamma ro rd =
     gamma (shade ro rd (Simple.steps r) (Simple.totalDist r))) /\
    (Simple.hits ro rd 0 = true ->
     Simple.main_color shade gamma ro rd =
     gamma (shade ro rd 0 (lit 0 1))).
Proof.
  intros shade gamma ro rd. cbv zeta.
  assert (Hu : Simple.main_color shade gamma ro rd =
               gamma (if (Simple.ret (Simple.rayMarch ro rd) >?
                          (- lit 5 10))%f32
                      then shade ro rd (Simple.steps (Simple.rayMarch ro rd))
                             (Simple.totalDist (Simple.rayMarch ro rd))
                      else vec3_of (lit 0 1)))
    by (unfold Simple.main_color; reflexivity).
  assert (Hm : ((- lit 1 1) >? (- lit 5 10))%f32 = false)
    by (vm_compute; reflexivity).
  assert (Hhit : Simple.ret (Simple.rayMarch ro rd) <> (- lit 1 1)%f32 ->
            Simple.main_color shade gamma ro rd =
            gamma (shade ro rd (Simple.steps (Simple.rayMarch ro rd))
                     (Simple.totalDist (Simple.rayMarch ro rd)))).
  { intros H. rewrite Hu.
    destruct (simple_rayMarch_cases ro rd)
      as [(t & Hw & Hr & Ht) | (t & Hw & Hr & Ht)]; [|contradiction].
    destruct (simple_hit_number ro rd t Hw) as (_ & _ & Hlt).
    rewrite Hr at 1.
    rewrite (nonneg_number_above_minus_half _ (sample_nonneg ro rd t)
               (ltb_not_nan_l _ _ Hlt)).
    reflexivity. }
  split; [|split; [exact Hhit|]].
  - intros H. rewrite Hu, H, Hm. reflexivity.
  - intros H0.
    assert (Hk : (0 < Simple.maxSteps)%nat) by (unfold Simple.maxSteps; lia).
    assert (Hc : forall i, (i < 0)%nat ->
              Simple.hits ro rd i = false /\ Simple.leaves ro rd i = false)
      by (intros i Hi; lia).
    pose proof (simple_march_hit_steps ro rd 0 Hk Hc H0) as Hr.
    rewrite simple_t_at_O in Hr. cbn [Z.of_nat] in Hr.
    rewrite Hhit.
    + rewrite Hr. reflexivity.
    + rewrite Hr. cbn [Simple.ret].
      apply nonneg_not_minus_one, sample_nonneg.
Qed.

(** X7.  The step count of the simple marcher.  The [out] parameter [steps]
    is the number of advances made: it lies between 0 and 256, and when pass
    [k] is the first whose sample is under the threshold it is [k]. *)
Theorem simple_rayMarch_steps :
  forall ro rd : vec3,
    0 <= Simple.steps (Simple.rayMarch ro rd) <= 256 /\
    (forall k : nat,
       (k < Simple.maxSteps)%nat ->
       (forall i, (i < k)%nat ->
          Simple.hits ro rd i = false /\ Simple.leaves ro rd i = false) ->
       Simple.hits ro rd k = true ->
       Simple.steps (Simple.rayMarch ro rd) = Z.of_nat k).
Proof.
  intros ro rd. split.
  - unfold Simple.rayMarch.
    pose proof (march_loop_steps_bound ro rd Simple.maxSteps (lit 0 1) 0) as H.
    destruct (Simple.march_loop Simple.maxSteps ro rd (lit 0 1) 0)
      as [[[d t] n] | [t n] | [t n]]; cbn [Simple.steps];
      unfold Simple.maxSteps in H; lia.
  - intros k Hk Hc Hh.
    now rewrite (simple_march_hit_steps ro rd k Hk Hc Hh).
Qed.

(** ** The event handlers: what each part of the state depends on *)

Section EventFrames.
Import Enhanced.

Lemma palette_step_mod (c : Z) :
  0 <= c <= 3 -> Z.rem (wrap_int (c + 1)) 4 = (c + 1) mod 4.
Proof.
  intros Hc.
  assert (H : c = 0 \/ c = 1 \/ c = 2 \/ c = 3) by lia.
  destruct H as [-> | [-> | [-> | ->]]]; reflexivity.
Qed.

Lemma handle_event_palette (s : app_state) (e : event) :
  0 <= colorPalette s <= 3 ->
  colorPalette (handle_event s e) =
  (colorPalette s + (if is_space e then 1 else 0)) mod 4.
Proof.
  intros Hc. destruct e as [|[]| |]; cbn [handle_event handle_key is_space];
    try (cbn; rewrite Z.add_0_r, Z.mod_small; lia).
  cbn [set_colorPalette colorPalette]. now apply palette_step_mod.
Qed.

Lemma poll_events_palette (pending : list event) (s : app_state) :
  0 <= colorPalette s <= 3 ->
  colorPalette (poll_events s pending) =
  (colorPalette s + Z.of_nat (List.length (filter is_space pending))) mod 4.
Proof.
  revert s. induction pending as [|e l IH]; intros s Hc.
  - cbn. rewrite Z.add_0_r, Z.mod_small; lia.
  - change (poll_events s (e :: l)) with (poll_events (handle_event s e) l).
    pose proof (handle_event_palette s e Hc) as He.
    assert (Hc' : 0 <= colorPalette (handle_event s e) <= 3).
    { rewrite He. pose proof (Z.mod_pos_bound
        (colorPalette s + (if is_space e then 1 else 0)) 4 ltac:(lia)). lia. }
    rewrite (IH _ Hc'), He. cbn [filter].
    destruct (is_space e); cbn [List.length].
    + rewrite Zplus_mod_idemp_l. f_equal. lia.
    + rewrite Zplus_mod_idemp_l. f_equal. lia.
Qed.

(** The handler of an event reads, of the old state, only the field it
    writes. *)
Lemma handle_event_distance (s s' : app_state) (e : event) :
  cameraDistance s = cameraDistance s' ->
  cameraDistance (handle_event s e) = cameraDistance (handle_event s' e) /\
  (moves_distance e = false ->
   cameraDistance (handle_event s e) = cameraDistance s).
Proof.
  intros H. destruct e as [|[]| |]; cbn; rewrite ?H; split; auto;
    discriminate.
Qed.

Lemma handle_event_offsetX (s s' : app_state) (e : event) :
  cameraOffsetX s = cameraOffsetX s' ->
  cameraOffsetX (handle_event s e) = cameraOffsetX (handle_event s' e) /\
  (moves_offsetX e = false ->
   cameraOffsetX (handle_event s e) = cameraOffsetX s).
Proof.
  intros H. destruct e as [|[]| |]; cbn; rewrite ?H; split; auto;
    discriminate.
Qed.

Lemma handle_event_offsetY (s s' : app_state) (e : event) :
  cameraOffsetY s = cameraOffsetY s' ->
  cameraOffsetY (handle_event s e) = cameraOffsetY (handle_event s' e) /\
  (moves_offsetY e = false ->
   cameraOffsetY (handle_event s e) = cameraOffsetY s).
Proof.
  intros H. destruct e as [|[]| |]; cbn; rewrite ?H; split; auto;
    discriminate.
Qed.

Lemma handle_event_window (s s' : app_state) (e : event) :
  (windowWidth s, windowHeight s) = (windowWidth s', windowHeight s') ->
  (windowWidth (handle_event s e), windowHeight (handle_event s e)) =
  (windowWidth (handle_event s' e), windowHeight (handle_event s' e)) /\
  (is_resize e = false ->
   (windowWidth (handle_event s e), windowHeight (handle_event s e)) =
   (windowWidth s, windowHeight s)).
Proof.
  intros H. injection H as H1 H2.
  destruct e as [|[]| |]; cbn; rewrite ?H1, ?H2; split; auto; discriminate.
Qed.

(** A field that only the events selected by [touches] can change has, after
    any list of events, the value the selected events alone give it. *)
Lemma poll_events_filter {A : Type} (field : app_state -> A)
  (touches : event -> bool) :
  (forall s s' e, field s = field s' ->
     field (handle_event s e) = field (handle_event s' e) /\
     (touches e = false -> field (handle_event s e) = field s)) ->
  forall pending s s', field s = field s' ->
    field (poll_events s pending) =
    field (poll_events s' (filter touches pending)).
Proof.
  intros Hstep. induction pending as [|e l IH]; intros s s' H; [exact H|].
  change (poll_events s (e :: l)) with (poll_events (handle_event s e) l).
  cbn [filter]. destruct (touches e) eqn:E.
  - change (poll_events s' (e :: filter touches l))
      with (poll_events (handle_event s' e) (filter touches l)).
    apply IH. now apply Hstep.
  - apply IH. destruct (Hstep s s e eq_refl) as [_ Hs].
    now rewrite (Hs E).
Qed.

Lemma handle_event_running (s : app_state) (e : event) :
  running (handle_event s e) = running s && negb (is_quit e).
Proof.
  destruct e as [|[]| |]; cbn; rewrite ?andb_true_r, ?andb_false_r;
    reflexivity.
Qed.

Lemma poll_events_running (pending : list event) (s : app_state) :
  running (poll_events s pending) =
  running s && negb (existsb is_quit pending).
Proof.
  revert s. induction pending as [|e l IH]; intros s.
  - cbn. now rewrite andb_true_r.
  - change (poll_events s (e :: l)) with (poll_events (handle_event s e) l).
    rewrite IH, handle_event_running. cbn [existsb].
    rewrite negb_orb. now rewrite andb_assoc.
Qed.

Lemma main_loop_frames_run (frames : list (list event)) (s : app_state) :
  running s = true ->
  main_loop frames s = poll_events s (concat (frames_run frames)).
Proof.
  revert s. induction frames as [|f l IH]; intros s Hs; [reflexivity|].
  cbn [main_loop frames_run]. rewrite Hs.
  destruct (existsb is_quit f) eqn:E.
  - cbn [concat]. rewrite app_nil_r.
    destruct l as [|g l']; [reflexivity|].
    cbn [main_loop]. now rewrite poll_events_running, Hs, E.
  - cbn [concat]. unfold poll_events at 2. rewrite fold_left_app.
    apply IH. now rewrite poll_events_running, Hs, E.
Qed.

End EventFrames.

(** X8.  The palette index counts the SPACE presses.  After any list of
    events handled from a state whose index is one of 0..3, the index is the
    old one plus the number of SPACE key presses, modulo 4; four presses
    bring it back. *)
Theorem palette_counts_space_presses :
  forall (pending : list Enhanced.event) (s : Enhanced.app_state),
    0 <= Enhanced.colorPalette s <= 3 ->
    Enhanced.colorPalette (Enhanced.poll_events s pending) =
    (Enhanced.colorPalette s +
     Z.of_nat (List.length (filter Enhanced.is_space pending))) mod 4.
Proof. exact poll_events_palette. Qed.

Lemma palette_counts_space_presses_witness :
  Enhanced.colorPalette
    (Enhanced.poll_events Enhanced.initial_state
       [Enhanced.SDL_KEYDOWN Enhanced.SDLK_SPACE;
        Enhanced.SDL_KEYDOWN Enhanced.SDLK_UP;
        Enhanced.SDL_KEYDOWN Enhanced.SDLK_SPACE;
        Enhanced.SDL_other;
        Enhanced.SDL_KEYDOWN Enhanced.SDLK_SPACE;
        Enhanced.SDL_KEYDOWN Enhanced.SDLK_SPACE;
        Enhanced.SDL_KEYDOWN Enhanced.SDLK_SPACE]) = 1.
Proof.
  rewrite (palette_counts_space_presses _ Enhanced.initial_state).
  - reflexivity.
  - cbn. lia.
Defined.

(** X9.  What each camera field depends on.  After any list of events, the
    camera distance is what the '+', '=', '-' and 'r' presses alone give,
    the horizontal offset what Left, Right and 'r' alone give, the vertical
    offset what Up, Down and 'r' alone give, and the window size what the
    resize events alone give: no handler touches a field that is not its
    own. *)
Theorem camera_fields_independent :
  forall (pending : list Enhanced.event) (s : Enhanced.app_state),
    Enhanced.cameraDistance (Enhanced.poll_events s pending) =
    Enhanced.cameraDistance
      (Enhanced.poll_events s (filter Enhanced.moves_distance pending)) /\
    Enhanced.cameraOffsetX (Enhanced.poll_events s pending) =
    Enhanced.cameraOffsetX
      (Enhanced.poll_events s (filter Enhanced.moves_offsetX pending)) /\
    Enhanced.cameraOffsetY (Enhanced.poll_events s pending) =
    Enhanced.cameraOffsetY
      (Enhanced.poll_events s (filter Enhanced.moves_offsetY pending)) /\
    (Enhanced.windowWidth (Enhanced.poll_events s pending),
     Enhanced.windowHeight (Enhanced.poll_events s pending)) =
    (Enhanced.windowWidth
       (Enhanced.poll_events s (filter Enhanced.is_resize pending)),
     Enhanced.windowHeight
       (Enhanced.poll_events s (filter Enhanced.is_resize pending))).
Proof.
  intros pending s. split; [|split; [|split]].
  - apply (poll_events_filter Enhanced.cameraDistance Enhanced.moves_distance
             handle_event_distance); reflexivity.
  - apply (poll_events_filter Enhanced.cameraOffsetX Enhanced.moves_offsetX
             handle_event_offsetX); reflexivity.
  - apply (poll_events_filter Enhanced.cameraOffsetY Enhanced.moves_offsetY
             handle_event_offsetY); reflexivity.
  - apply (poll_events_filter
             (fun s => (Enhanced.windowWidth s, Enhanced.windowHeight s))
             Enhanced.is_resize handle_event_window); reflexivity.
Qed.

(** X10.  Quitting.  [running] is cleared by a quit event (window close, ESC
    or 'q') and by nothing else, and no event sets it again.  The events
    that are pending behind a quit event in the same frame are still
    handled; the frames after that one are never reached: the main loop
    handles exactly the events of the frames up to and including the first
    one that holds a quit event. *)
Theorem quit_stops_after_the_frame :
  (forall (pending : list Enhanced.event) (s : Enhanced.app_state),
     Enhanced.running (Enhanced.poll_events s pending) =
     Enhanced.running s && negb (existsb Enhanced.is_quit pending)) /\
  (forall (frames : list (list Enhanced.event)),
     Enhanced.main_loop frames Enhanced.initial_state =
     Enhanced.poll_events Enhanced.initial_state
       (concat (Enhanced.frames_run frames))) /\
  (forall (frames : list (list Enhanced.event)) (s : Enhanced.app_state),
     Enhanced.running s = false -> Enhanced.main_loop frames s = s).
Proof.
  split; [exact poll_events_running|]. split.
  - intros frames. now apply main_loop_frames_run.
  - intros [|f l] s Hs; [reflexivity|]. cbn [Enhanced.main_loop].
    now rewrite Hs.
Qed.

(** ** The palette: rounding keeps a bound that is a power of two *)

Section RoundingBounds.

Lemma fexp_eq (x : Z) : fexp prec emax x = Z.max (x - 24) (-149).
Proof. reflexivity. Qed.

Lemma digits2_pos_bounds (p : positive) :
  2 ^ (Zpos (digits2_pos p) - 1) <= Zpos p < 2 ^ Zpos (digits2_pos p).
Proof.
  assert (E : forall d : positive, 2 ^ Zpos d = 2 * 2 ^ (Zpos d - 1)).
  { intros d. rewrite <- Z.pow_succ_r by lia. f_equal. lia. }
  induction p as [p IH | p IH |]; cbn [digits2_pos].
  - rewrite Pos2Z.inj_succ, Z.pow_succ_r by lia.
    replace (Z.succ (Zpos (digits2_pos p)) - 1) with (Zpos (digits2_pos p))
      by lia.
    rewrite E in *.
    set (a := 2 ^ (Zpos (digits2_pos p) - 1)) in *. clearbody a. lia.
  - rewrite Pos2Z.inj_succ, Z.pow_succ_r by lia.
    replace (Z.succ (Zpos (digits2_pos p)) - 1) with (Zpos (digits2_pos p))
      by lia.
    rewrite E in *.
    set (a := 2 ^ (Zpos (digits2_pos p) - 1)) in *. clearbody a. lia.
  - cbn. lia.
Qed.

Lemma digits2_pos_unique (p : positive) (d : Z) :
  2 ^ (d - 1) <= Zpos p < 2 ^ d -> Zpos (digits2_pos p) = d.
Proof.
  intros [Hl Hu]. pose proof (digits2_pos_bounds p) as [Bl Bu].
  assert (Hd : 0 < d).
  { destruct (Z_lt_le_dec 0 d) as [H|H]; [exact H|].
    assert (2 ^ d <= 2 ^ 0) by (apply Z.pow_le_mono_r; lia).
    change (2 ^ 0) with 1 in *. lia. }
  destruct (Z.lt_trichotomy (Zpos (digits2_pos p)) d) as [H | [H | H]];
    [| exact H |].
  - assert (2 ^ Zpos (digits2_pos p) <= 2 ^ (d - 1))
      by (apply Z.pow_le_mono_r; lia). lia.
  - assert (2 ^ d <= 2 ^ (Zpos (digits2_pos p) - 1))
      by (apply Z.pow_le_mono_r; lia). lia.
Qed.

(** What [shr_1] does to a mantissa that is not negative: it halves it and
    records whether anything was lost. *)
Local Abbreviation inexact mrs := (shr_r mrs || shr_s mrs).

Lemma shr_1_spec (mrs : shr_record) :
  0 <= shr_m mrs ->
  shr_m (shr_1 mrs) = shr_m mrs / 2 /\
  (inexact (shr_1 mrs) = false <->
   inexact mrs = false /\ shr_m mrs mod 2 = 0).
Proof.
  destruct mrs as [m r s]. cbn [shr_m shr_r shr_s].
  intros Hm.
  destruct m as [|[p | p |]|p]; try lia; cbn [shr_1 shr_m shr_r shr_s].
  - split; [reflexivity|]. destruct r, s; cbn; intuition congruence.
  - assert (D : Zpos p~1 / 2 = Zpos p)
      by (symmetry; apply Z.div_unique with (r := 1); lia).
    assert (M : Zpos p~1 mod 2 = 1)
      by (symmetry; apply Z.mod_unique with (q := Zpos p); lia).
    rewrite D, M. split; [reflexivity|].
    destruct r, s; cbn; intuition (try congruence; try lia).
  - assert (D : Zpos p~0 / 2 = Zpos p)
      by (symmetry; apply Z.div_unique with (r := 0); lia).
    assert (M : Zpos p~0 mod 2 = 0)
      by (symmetry; apply Z.mod_unique with (q := Zpos p); lia).
    rewrite D, M. split; [reflexivity|].
    destruct r, s; cbn; intuition congruence.
  - split; [reflexivity|].
    destruct r, s; cbn; intuition (try congruence; try lia).
Qed.

Lemma shr_iter_spec (n : positive) :
  forall mrs : shr_record,
    0 <= shr_m mrs ->
    shr_m (SpecFloat.iter_pos shr_1 n mrs) = shr_m mrs / 2 ^ Zpos n /\
    (inexact (SpecFloat.iter_pos shr_1 n mrs) = false <->
     inexact mrs = false /\ shr_m mrs mod 2 ^ Zpos n = 0).
Proof.
  assert (Hstep : forall (f g : shr_record -> shr_record) (a b : Z),
            0 < a -> 0 < b ->
            (forall mrs, 0 <= shr_m mrs ->
               shr_m (f mrs) = shr_m mrs / a /\
               (inexact (f mrs) = false <->
                inexact mrs = false /\ shr_m mrs mod a = 0)) ->
            (forall mrs, 0 <= shr_m mrs ->
               shr_m (g mrs) = shr_m mrs / b /\
               (inexact (g mrs) = false <->
                inexact mrs = false /\ shr_m mrs mod b = 0)) ->
            forall mrs, 0 <= shr_m mrs ->
              shr_m (g (f mrs)) = shr_m mrs / (a * b) /\
              (inexact (g (f mrs)) = false <->
               inexact mrs = false /\ shr_m mrs mod (a * b) = 0)).
  { intros f g a b Ha Hb Hf Hg mrs Hm.
    destruct (Hf mrs Hm) as [F1 F2].
    assert (Hfm : 0 <= shr_m (f mrs))
      by (rewrite F1; apply Z.div_pos; lia).
    destruct (Hg (f mrs) Hfm) as [G1 G2].
    split.
    - rewrite G1, F1. apply Z.div_div; lia.
    - rewrite G2, F2, F1. rewrite (Z.rem_mul_r (shr_m mrs) a b) by lia.
      pose proof (Z.mod_pos_bound (shr_m mrs) a Ha).
      pose proof (Z.mod_pos_bound (shr_m mrs / a) b Hb).
      split.
      + intros [[H1 H2] H3]. split; [exact H1|]. rewrite H2, H3. lia.
      + intros [H1 H2]. split; [split; [exact H1|]|]; nia. }
  induction n as [n IH | n IH |]; intros mrs Hm; cbn [SpecFloat.iter_pos].
  - assert (Hp : 0 < 2 ^ Zpos n) by (apply Z.pow_pos_nonneg; lia).
    pose proof (Hstep _ _ _ _ Hp Hp IH IH) as H2.
    assert (Hpp : 0 < 2 ^ Zpos n * 2 ^ Zpos n) by (apply Z.mul_pos_pos; lia).
    pose proof (Hstep shr_1 _ 2 _ ltac:(lia) Hpp shr_1_spec H2 mrs Hm) as H3.
    replace (2 ^ Zpos n~1) with (2 * (2 ^ Zpos n * 2 ^ Zpos n)); [exact H3|].
    rewrite <- Z.pow_add_r, <- Z.pow_succ_r by lia. f_equal. lia.
  - assert (Hp : 0 < 2 ^ Zpos n) by (apply Z.pow_pos_nonneg; lia).
    pose proof (Hstep _ _ _ _ Hp Hp IH IH mrs Hm) as H2.
    replace (2 ^ Zpos n~0) with (2 ^ Zpos n * 2 ^ Zpos n); [exact H2|].
    rewrite <- Z.pow_add_r by lia. f_equal. lia.
  - change (2 ^ 1) with 2. apply shr_1_spec, Hm.
Qed.

Lemma round_nearest_even_spec (m : Z) (mrs : shr_record) :
  m <= round_nearest_even m (loc_of_shr_record mrs) <= m + 1 /\
  (inexact mrs = false ->
   round_nearest_even m (loc_of_shr_record mrs) = m).
Proof.
  destruct mrs as [m0 [|] [|]]; cbn; try destruct (Z.even m);
    split; try lia; intros H; try discriminate H; reflexivity.
Qed.

(** The first shift of [binary_round_aux]: the mantissa is cut down to the
    exponent [fexp] asks for. *)
Lemma shr_fexp_first (M : positive) (e : Z) :
  e <= fexp prec emax (Zpos (digits2_pos M) + e) ->
  exists mrs : shr_record,
    shr_fexp prec emax (Zpos M) e loc_Exact =
    (mrs, fexp prec emax (Zpos (digits2_pos M) + e)) /\
    shr_m mrs =
    Zpos M / 2 ^ (fexp prec emax (Zpos (digits2_pos M) + e) - e) /\
    (Zpos M mod 2 ^ (fexp prec emax (Zpos (digits2_pos M) + e) - e) = 0 ->
     inexact mrs = false).
Proof.
  intros Hal. unfold shr_fexp, shr. cbn [Zdigits2 shr_record_of_loc].
  set (e1 := fexp prec emax (Zpos (digits2_pos M) + e)) in *.
  destruct (e1 - e) as [|p|p] eqn:En; [| |lia].
  - exists (Build_shr_record (Zpos M) false false).
    replace e1 with e by lia. cbn [shr_m shr_r shr_s]. split; [reflexivity|].
    split; [|reflexivity]. change (2 ^ 0) with 1. now rewrite Z.div_1_r.
  - exists (SpecFloat.iter_pos shr_1 p (Build_shr_record (Zpos M) false false)).
    destruct (shr_iter_spec p (Build_shr_record (Zpos M) false false))
      as [H1 H2]; [cbn; lia|].
    cbn [shr_m shr_r shr_s] in H1, H2.
    split; [f_equal; lia|]. split; [exact H1|].
    intros H. apply H2. now split.
Qed.

(** The second shift: at most one more bit, when rounding carried. *)
Lemma shr_fexp_second (m2 e1 : Z) :
  -149 <= e1 -> 0 <= m2 <= 2 ^ 24 ->
  shr_fexp prec emax m2 e1 loc_Exact =
  if m2 =? 2 ^ 24 then (Build_shr_record (2 ^ 23) false false, e1 + 1)
  else (Build_shr_record m2 false false, e1).
Proof.
  intros He Hm. destruct (Z.eqb_spec m2 (2 ^ 24)) as [-> | Hne].
  - unfold shr_fexp. cbn [Zdigits2 shr_record_of_loc].
    change (Zdigits2 (2 ^ 24)) with 25. rewrite fexp_eq.
    replace (Z.max (25 + e1 - 24) (-149) - e1) with 1 by lia.
    reflexivity.
  - unfold shr_fexp, shr. cbn [shr_record_of_loc]. rewrite fexp_eq.
    assert (Hd : Zdigits2 m2 <= 24).
    { destruct m2 as [|q|q]; cbn [Zdigits2]; [lia | | lia].
      pose proof (digits2_pos_bounds q) as [Bl _].
      destruct (Z_le_gt_dec (Zpos (digits2_pos q)) 24) as [H|H];
        [exact H|].
      assert (2 ^ 24 <= 2 ^ (Zpos (digits2_pos q) - 1))
        by (apply Z.pow_le_mono_r; lia). lia. }
    destruct (Z.max (Zdigits2 m2 + e1 - 24) (-149) - e1) as [|p|p] eqn:En;
      [reflexivity | lia | reflexivity].
Qed.

(** Rounding keeps a bound that is a power of two, and gives a canonical
    number of the sign asked for. *)
Lemma round_aux_bound (s : bool) (M : positive) (e k : Z) :
  e <= fexp prec emax (Zpos (digits2_pos M) + e) ->
  -149 <= k <= 127 -> e <= k -> Zpos M <= 2 ^ (k - e) ->
  match binary_round_aux prec emax s (Zpos M) e loc_Exact with
  | S754_zero s' => s' = s
  | S754_finite s' m' e' =>
    s' = s /\ SpecFloat.bounded prec emax m' e' = true /\ e' <= k /\
    Zpos m' <= 2 ^ (k - e')
  | _ => False
  end.
Proof.
  intros Hal Hk Hek Hb.
  destruct (shr_fexp_first M e Hal) as (mrs & E1 & Hm1 & Hex).
  unfold binary_round_aux. rewrite E1.
  pose proof (digits2_pos_bounds M) as [Dl Du].
  set (d := Zpos (digits2_pos M)) in *.
  assert (Hd : 0 < d) by (unfold d; lia).
  rewrite fexp_eq in *.
  set (e1 := Z.max (d + e - 24) (-149)) in *.
  set (n := e1 - e) in *.
  assert (Hn : 0 <= n) by (unfold n; lia).
  assert (Hx : 0 < 2 ^ n) by (apply Z.pow_pos_nonneg; lia).
  (* the exponent the bound allows *)
  assert (Hdk : d - 1 <= k - e).
  { apply (Z.pow_le_mono_r_iff 2); [lia | lia | lia]. }
  assert (Hke : e1 <= k) by (unfold e1; lia).
  assert (Hy : 2 ^ (k - e) = 2 ^ (k - e1) * 2 ^ n).
  { rewrite <- Z.pow_add_r by (unfold n; lia). f_equal. unfold n. lia. }
  assert (Hy0 : 0 < 2 ^ (k - e1)) by (apply Z.pow_pos_nonneg; lia).
  (* the truncated mantissa *)
  pose proof (Z.div_mod (Zpos M) (2 ^ n) ltac:(lia)) as Hdm.
  pose proof (Z.mod_pos_bound (Zpos M) (2 ^ n) Hx) as Hmod.
  set (m1 := shr_m mrs) in *. rewrite <- Hm1 in Hdm.
  assert (H1 : 0 <= m1) by (rewrite Hm1; apply Z.div_pos; lia).
  assert (H24 : m1 < 2 ^ 24).
  { assert (Hu : 2 ^ d <= 2 ^ 24 * 2 ^ n).
    { rewrite <- Z.pow_add_r by lia. apply Z.pow_le_mono_r; unfold n, e1; lia. }
    nia. }
  assert (H23 : -149 < e1 -> 2 ^ 23 <= m1).
  { intros Hn1.
    assert (Hl : 2 ^ 23 * 2 ^ n = 2 ^ (d - 1)).
    { rewrite <- Z.pow_add_r by lia. f_equal. unfold n, e1. lia. }
    nia. }
  destruct (round_nearest_even_spec m1 mrs) as [[R1 R2] R3].
  set (m2 := round_nearest_even m1 (loc_of_shr_record mrs)) in *.
  assert (Hm2 : m2 <= 2 ^ (k - e1)).
  { destruct (Z.eq_dec (Zpos M mod 2 ^ n) 0) as [Hz|Hz].
    - rewrite (R3 (Hex Hz)). nia.
    - nia. }
  rewrite (shr_fexp_second m2 e1) by (unfold e1; lia).
  destruct (Z.eqb_spec m2 (2 ^ 24)) as [E24 | N24]; cbn [shr_m].
  - assert (H24k : 24 <= k - e1).
    { apply (Z.pow_le_mono_r_iff 2); lia. }
    change (2 ^ 23) with (Zpos 8388608).
    destruct (Z.leb_spec (e1 + 1) (emax - prec)) as [Hle|Hgt];
      [|unfold emax, prec in Hgt; lia].
    split; [reflexivity|]. split; [|split; [lia|]].
    + unfold SpecFloat.bounded, canonical_mantissa. rewrite fexp_eq.
      change (Zpos (digits2_pos 8388608)) with 24.
      apply andb_true_intro. split; [apply Z.eqb_eq; lia|].
      apply Z.leb_le. unfold emax, prec. lia.
    + change (Zpos 8388608) with (2 ^ 23). apply Z.pow_le_mono_r; lia.
  - destruct m2 as [|q|q] eqn:Eq; [reflexivity | | lia].
    assert (Hq : Zpos q < 2 ^ 24) by lia.
    assert (Hcan : Z.max (Zpos (digits2_pos q) + e1 - 24) (-149) = e1).
    { pose proof (digits2_pos_bounds q) as [Ql Qu].
      destruct (Z.eq_dec e1 (-149)) as [Ee|Ne].
      - assert (Zpos (digits2_pos q) <= 24); [|lia].
        destruct (Z_le_gt_dec (Zpos (digits2_pos q)) 24) as [H|H];
          [exact H|].
        assert (2 ^ 24 <= 2 ^ (Zpos (digits2_pos q) - 1))
          by (apply Z.pow_le_mono_r; lia). lia.
      - assert (Zpos (digits2_pos q) = 24); [|lia].
        apply digits2_pos_unique. change (2 ^ (24 - 1)) with (2 ^ 23).
        assert (2 ^ 23 <= m1) by (apply H23; unfold e1 in *; lia). lia. }
    assert (Hle : e1 <= 104).
    { destruct (Z.eq_dec e1 (-149)) as [Ee|Ne]; [lia|].
      assert (2 ^ 23 <= m1) by (apply H23; unfold e1 in *; lia).
      assert (23 <= k - e1); [|lia].
      apply (Z.pow_le_mono_r_iff 2); lia. }
    destruct (Z.leb_spec e1 (emax - prec)) as [Hl|Hg];
      [|unfold emax, prec in Hg; lia].
    split; [reflexivity|]. split; [|split; [exact Hke | lia]].
    unfold SpecFloat.bounded, canonical_mantissa. rewrite fexp_eq.
    apply andb_true_intro. split; [apply Z.eqb_eq; exact Hcan|].
    apply Z.leb_le. unfold emax, prec. lia.
Qed.


Lemma iter_xO_value (d m : positive) :
  Zpos (Pos.iter xO m d) = Zpos m * 2 ^ Zpos d.
Proof.
  induction d as [|d IH] using Pos.peano_ind.
  - cbn [Pos.iter]. rewrite Pos2Z.inj_xO. change (2 ^ 1) with 2. lia.
  - rewrite Pos.iter_succ, Pos2Z.inj_xO, IH, Pos2Z.inj_succ,
      Z.pow_succ_r by lia. ring.
Qed.

Lemma shl_align_value (mx : positive) (ex ez : Z) :
  ez <= ex ->
  snd (shl_align mx ex ez) = ez /\
  Zpos (fst (shl_align mx ex ez)) = Zpos mx * 2 ^ (ex - ez).
Proof.
  intros H. unfold shl_align.
  destruct (ez - ex) as [|d|d] eqn:E; cbn [fst snd]; [| lia |].
  - replace (ex - ez) with 0 by lia. change (2 ^ 0) with 1. lia.
  - split; [reflexivity|]. rewrite iter_xO_value. f_equal. f_equal. lia.
Qed.

Lemma digits2_pos_shift (m : positive) (j : Z) (q : positive) :
  0 <= j -> Zpos q = Zpos m * 2 ^ j ->
  Zpos (digits2_pos q) = Zpos (digits2_pos m) + j.
Proof.
  intros Hj Hq. pose proof (digits2_pos_bounds m) as [Bl Bu].
  apply digits2_pos_unique. rewrite Hq.
  replace (Zpos (digits2_pos m) + j - 1) with (Zpos (digits2_pos m) - 1 + j)
    by lia.
  rewrite !Z.pow_add_r by lia.
  assert (0 < 2 ^ j) by (apply Z.pow_pos_nonneg; lia). nia.
Qed.

(** [binary_round] first aligns the mantissa, then rounds. *)
Lemma round_bound (s : bool) (M : positive) (e k : Z) :
  -149 <= k <= 127 -> e <= k -> Zpos M <= 2 ^ (k - e) ->
  at_most_pow2 k (binary_round prec emax s M e) = true /\
  (forall s' m' e',
     binary_round prec emax s M e = S754_finite s' m' e' -> s' = s).
Proof.
  intros Hk Hek Hb. unfold binary_round.
  set (f := fexp prec emax (Zpos (digits2_pos M) + e)).
  destruct (Z_le_gt_dec e f) as [Hle | Hgt].
  - assert (Es : shl_align M e f = (M, e)).
    { unfold shl_align. destruct (f - e) as [|p|p] eqn:E; try reflexivity.
      lia. }
    rewrite Es.
    pose proof (round_aux_bound s M e k Hle Hk Hek Hb) as H.
    destruct (binary_round_aux prec emax s (Zpos M) e loc_Exact)
      as [s0 | s0 | | s0 m0 e0]; try contradiction.
    + split; [reflexivity | intros ? ? ? E; discriminate E].
    + destruct H as (Hs & Hbd & He0 & Hm0). split.
      * cbn [at_most_pow2]. rewrite Hbd. cbn [andb].
        apply andb_true_intro. split; [apply Z.leb_le; exact He0|].
        apply Z.leb_le. exact Hm0.
      * intros ? ? ? E. injection E as <- _ _. exact Hs.
  - destruct (shl_align_value M e f ltac:(lia)) as [A1 A2].
    destruct (shl_align M e f) as [mz ez]. cbn [fst snd] in A1, A2. subst ez.
    pose proof (digits2_pos_shift M (e - f) mz ltac:(lia) A2) as Hdz.
    assert (Hal : f <= fexp prec emax (Zpos (digits2_pos mz) + f)).
    { rewrite Hdz. replace (Zpos (digits2_pos M) + (e - f) + f)
        with (Zpos (digits2_pos M) + e) by lia. fold f. lia. }
    assert (Hbz : Zpos mz <= 2 ^ (k - f)).
    { rewrite A2. replace (k - f) with (k - e + (e - f)) by lia.
      rewrite Z.pow_add_r by lia.
      assert (0 < 2 ^ (e - f)) by (apply Z.pow_pos_nonneg; lia). nia. }
    pose proof (round_aux_bound s mz f k Hal Hk ltac:(lia) Hbz) as H.
    destruct (binary_round_aux prec emax s (Zpos mz) f loc_Exact)
      as [s0 | s0 | | s0 m0 e0]; try contradiction.
    + split; [reflexivity | intros ? ? ? E; discriminate E].
    + destruct H as (Hs & Hbd & He0 & Hm0). split.
      * cbn [at_most_pow2]. rewrite Hbd. cbn [andb].
        apply andb_true_intro. split; [apply Z.leb_le; exact He0|].
        apply Z.leb_le. exact Hm0.
      * intros ? ? ? E. injection E as <- _ _. exact Hs.
Qed.


Lemma canonical_digits (m : positive) (e : Z) :
  SpecFloat.bounded prec emax m e = true ->
  Zpos (digits2_pos m) <= 24 /\ -149 <= e /\
  (-149 < e -> 2 ^ 23 <= Zpos m).
Proof.
  unfold SpecFloat.bounded, canonical_mantissa. rewrite fexp_eq.
  intros H. apply andb_prop in H. destruct H as [H _].
  apply Z.eqb_eq in H. split; [lia|]. split; [lia|].
  intros He. assert (Hd : Zpos (digits2_pos m) = 24) by lia.
  pose proof (digits2_pos_bounds m) as [Bl _]. rewrite Hd in Bl.
  exact Bl.
Qed.

Lemma canonical_below (m : positive) (e : Z) :
  SpecFloat.bounded prec emax m e = true -> Zpos m < 2 ^ 24.
Proof.
  intros H. destruct (canonical_digits m e H) as (Hd & _ & _).
  pose proof (digits2_pos_bounds m) as [_ Bu].
  assert (2 ^ Zpos (digits2_pos m) <= 2 ^ 24)
    by (apply Z.pow_le_mono_r; lia). lia.
Qed.

Lemma cosine_value_at_most (c : float) :
  cosine_value c = true -> at_most_pow2 0 c = true.
Proof.
  unfold cosine_value. intros H.
  apply andb_prop in H. destruct H as [H Hu].
  apply andb_prop in H. destruct H as [Hv Hl].
  assert (E1 : lit 1 1 = S754_finite false 8388608 (-23))
    by (vm_compute; reflexivity).
  rewrite E1 in *.
  destruct c as [s | s | | s m e];
    [reflexivity | destruct s; discriminate | discriminate |].
  cbn [valid_binary] in Hv. cbn [at_most_pow2]. rewrite Hv. cbn [andb].
  pose proof (canonical_below m e Hv) as H24.
  assert (He : e < -23 \/ (e = -23 /\ Zpos m <= 2 ^ 23)).
  { destruct s.
    - unfold leb, SFleb, opp, SFopp, SFcompare in Hl. cbn [negb] in Hl.
      destruct (Z.compare_spec (-23) e) as [E | E | E]; try discriminate Hl.
      + right. split; [lia|].
        rewrite Pos.compare_cont_spec in Hl. cbn [Pos.switch_Eq] in Hl.
        change (2 ^ 23) with (Zpos 8388608).
        destruct (Pos.compare 8388608 m) eqn:C; try discriminate Hl; clear Hl.
        * apply Pos.compare_eq in C. rewrite <- C. apply Z.le_refl.
        * apply Pos.compare_gt_iff in C.
          apply Pos2Z.pos_le_pos, Pos.lt_le_incl, C.
      + left. lia.
    - unfold leb, SFleb, SFcompare in Hu.
      destruct (Z.compare_spec e (-23)) as [E | E | E]; try discriminate Hu.
      + right. split; [lia|].
        rewrite Pos.compare_cont_spec in Hu. cbn [Pos.switch_Eq] in Hu.
        change (2 ^ 23) with (Zpos 8388608).
        destruct (Pos.compare m 8388608) eqn:C; try discriminate Hu; clear Hu.
        * apply Pos.compare_eq in C. rewrite C. apply Z.le_refl.
        * apply Pos.compare_lt_iff in C.
          apply Pos2Z.pos_le_pos, Pos.lt_le_incl, C.
      + left. lia. }
  apply andb_true_intro. split; [apply Z.leb_le; lia|].
  apply Z.leb_le. replace (0 - e) with (- e) by lia.
  destruct He as [He | [-> He]]; [|exact He].
  assert (2 ^ 24 <= 2 ^ (- e)) by (apply Z.pow_le_mono_r; lia). lia.
Qed.

Lemma at_most_pow2_finite (k : Z) (s : bool) (m : positive) (e : Z) :
  at_most_pow2 k (S754_finite s m e) = true ->
  SpecFloat.bounded prec emax m e = true /\ e <= k /\ Zpos m <= 2 ^ (k - e).
Proof.
  cbn [at_most_pow2]. intros H.
  apply andb_prop in H. destruct H as [H H3].
  apply andb_prop in H. destruct H as [H1 H2].
  apply Z.leb_le in H2, H3. now repeat split.
Qed.

(** Half of a number of magnitude at most 1 has magnitude at most 1/2. *)
Lemma half_times (c : float) :
  at_most_pow2 0 c = true -> at_most_pow2 (-1) (lit 5 10 * c)%f32 = true.
Proof.
  intros H.
  assert (E : lit 5 10 = S754_finite false 8388608 (-24))
    by (vm_compute; reflexivity).
  rewrite E. destruct c as [s | s | | s m e]; try discriminate H;
    [reflexivity|].
  destruct (at_most_pow2_finite _ _ _ _ H) as (Hb & He & Hm).
  unfold mul, SFmul.
  pose proof (digits2_pos_shift m 23 (8388608 * m) ltac:(lia) ltac:(lia))
    as Hd.
  assert (Hal : -24 + e <=
                fexp prec emax (Zpos (digits2_pos (8388608 * m)) + (-24 + e))).
  { rewrite fexp_eq, Hd. pose proof (Pos2Z.is_pos (digits2_pos m)). lia. }
  assert (Hbd : Zpos (8388608 * m) <= 2 ^ (-1 - (-24 + e))).
  { replace (-1 - (-24 + e)) with (23 + (0 - e)) by lia.
    rewrite Z.pow_add_r by lia. change (2 ^ 23) with 8388608. lia. }
  pose proof (round_aux_bound (xorb false s) (8388608 * m) (-24 + e) (-1)
                Hal ltac:(lia) ltac:(lia) Hbd) as R.
  destruct (binary_round_aux prec emax (xorb false s)
              (Zpos (8388608 * m)) (-24 + e) loc_Exact)
    as [s0 | s0 | | s0 m0 e0]; try contradiction; [reflexivity|].
  destruct R as (_ & R1 & R2 & R3). cbn [at_most_pow2].
  rewrite R1. cbn [andb]. apply andb_true_intro.
  split; apply Z.leb_le; assumption.
Qed.

(** A number of magnitude at most 1 that is not negative lies between 0
    and 1. *)
Lemma at_most_one_unit (r : float) :
  at_most_pow2 0 r = true ->
  (forall s m e, r = S754_finite s m e -> s = false) ->
  in_unit_range r = true.
Proof.
  intros H Hs. unfold in_unit_range.
  assert (E0 : lit 0 1 = S754_zero false) by (vm_compute; reflexivity).
  assert (E1 : lit 1 1 = S754_finite false 8388608 (-23))
    by (vm_compute; reflexivity).
  rewrite E0, E1.
  destruct r as [s | s | | s m e]; try discriminate H; [reflexivity|].
  rewrite (Hs s m e eq_refl). cbn [andb].
  destruct (at_most_pow2_finite _ _ _ _ H) as (Hb & He & Hm).
  destruct (canonical_digits m e Hb) as (Hd & Hmin & Hn).
  unfold leb, SFleb, SFcompare. cbn [andb].
  replace (0 - e) with (- e) in Hm by lia.
  destruct (Z.compare_spec e (-23)) as [E | E | E]; [|reflexivity|].
  - subst e. rewrite Pos.compare_cont_spec. cbn [Pos.switch_Eq].
    change (2 ^ (- (-23))) with (Zpos 8388608) in Hm.
    destruct (Pos.compare m 8388608) eqn:C; try reflexivity.
    apply Pos.compare_gt_iff in C. apply Pos2Z.pos_lt_pos in C.
    exfalso. apply (Z.lt_irrefl (Zpos m)).
    eapply Z.le_lt_trans; [exact Hm | exact C].
  - exfalso. assert (H23 : 2 ^ 23 <= Zpos m) by (apply Hn; lia).
    assert (2 ^ (- e) < 2 ^ 23) by (apply Z.pow_lt_mono_r; lia). lia.
Qed.

(** One half plus a number of magnitude at most one half lies between 0
    and 1. *)
Lemma half_plus (y : float) :
  at_most_pow2 (-1) y = true -> in_unit_range (lit 5 10 + y)%f32 = true.
Proof.
  intros H.
  assert (E : lit 5 10 = S754_finite false 8388608 (-24))
    by (vm_compute; reflexivity).
  destruct y as [s | s | | s m e]; try discriminate H.
  - rewrite E. vm_compute. reflexivity.
  - destruct (at_most_pow2_finite _ _ _ _ H) as (Hb & He & Hm).
    destruct (canonical_digits m e Hb) as (Hd & Hmin & Hn).
    assert (He24 : e <= -24).
    { destruct (Z.eq_dec e (-149)) as [->|Ne]; [lia|].
      assert (H23 : 2 ^ 23 <= Zpos m) by (apply Hn; lia).
      assert (23 <= -1 - e); [|lia].
      apply (Z.pow_le_mono_r_iff 2); lia. }
    rewrite E. unfold add, SFadd.
    replace (Z.min (-24) e) with e by lia.
    destruct (shl_align_value 8388608 (-24) e He24) as [_ A].
    destruct (shl_align_value m e e ltac:(lia)) as [_ B].
    replace (e - e) with 0 in B by lia. change (2 ^ 0) with 1 in B.
    rewrite Z.mul_1_r in B.
    set (a := fst (shl_align 8388608 (-24) e)) in *.
    set (b := fst (shl_align m e e)) in *.
    assert (Ha : Zpos a = 2 ^ (-1 - e)).
    { rewrite A. change (Zpos 8388608) with (2 ^ 23).
      rewrite <- Z.pow_add_r by lia. f_equal. lia. }
    assert (Hp : 2 ^ (0 - e) = 2 * 2 ^ (-1 - e)).
    { rewrite <- Z.pow_succ_r by lia. f_equal. lia. }
    cbn [cond_Zopp].
    assert (Hsum : 0 <= Zpos a + cond_Zopp s (Zpos b) <= 2 ^ (0 - e)).
    { destruct s; cbn [cond_Zopp]; lia. }
    destruct (Zpos a + cond_Zopp s (Zpos b)) as [|p|p] eqn:Es;
      [vm_compute; reflexivity | | lia].
    cbn [binary_normalize].
    destruct (round_bound false p e 0 ltac:(lia) ltac:(lia) ltac:(lia))
      as [R1 R2].
    apply at_most_one_unit; [exact R1|].
    intros s' m' e' Er. exact (R2 s' m' e' Er).
Qed.


Lemma channel_unit (c : float) :
  cosine_value c = true ->
  in_unit_range (lit 5 10 + lit 5 10 * c)%f32 = true.
Proof. intros H. now apply half_plus, half_times, cosine_value_at_most. Qed.

Lemma channel_nan (c : float) :
  is_nan c = true -> is_nan (lit 5 10 + lit 5 10 * c)%f32 = true.
Proof.
  destruct c; intros H; try discriminate H.
  now rewrite mul_nan_r, add_nan_r.
Qed.


Lemma getColorPalette_eq (cos : float -> float) (t : float) (palette : Z) :
  Palette.getColorPalette cos t palette =
  saddv (lit 5 10)
    (smulv (lit 5 10) (Palette.vcos cos (Palette.cos_argument t palette))).
Proof.
  unfold Palette.getColorPalette, Palette.cos_argument.
  destruct (palette =? 0); [reflexivity|].
  destruct (palette =? 1); [reflexivity|].
  destruct (palette =? 2); reflexivity.
Qed.

End RoundingBounds.

(** X11.  The palette stays between 0 and 1.  [getColorPalette] hands three
    binary32 arguments to [cos]; whatever [cos] is, a channel lies between 0
    and 1 whenever [cos] answers its argument with a binary32 number
    between -1 and 1: the two roundings of [0.5 + 0.5 * c] never leave the
    unit interval.  A NaN answer makes the channel NaN.  This holds for
    every hue, NaN and the infinities included, and for every palette
    index, also one outside 0..3, which selects the last palette. *)
Theorem getColorPalette_unit_range :
  forall (cos : float -> float) (t : float) (palette : Z),
    let x := Palette.cos_argument t palette in
    let c := Palette.getColorPalette cos t palette in
    (cosine_value (cos (vx x)) = true -> in_unit_range (vx c) = true) /\
    (cosine_value (cos (vy x)) = true -> in_unit_range (vy c) = true) /\
    (cosine_value (cos (vz x)) = true -> in_unit_range (vz c) = true) /\
    (is_nan (cos (vx x)) = true -> is_nan (vx c) = true) /\
    (is_nan (cos (vy x)) = true -> is_nan (vy c) = true) /\
    (is_nan (cos (vz x)) = true -> is_nan (vz c) = true).
Proof.
  intros cos t palette x c. subst x c. rewrite getColorPalette_eq.
  cbn [saddv smulv Palette.vcos vx vy vz].
  repeat split; first [apply channel_unit | apply channel_nan].
Qed.

(** The hypothesis of X11 is met, for one, by the first two terms of the
    cosine series at hue 0 and palette 1, where the arguments are 0,
    [TAU * 0.1] and [TAU * 0.2]. *)
Lemma getColorPalette_unit_range_witness :
  let cos := fun x : float => (lit 1 1 - x * x / lit 2 1)%f32 in
  in_unit_range (vx (Palette.getColorPalette cos (lit 0 1) 1)) = true /\
  in_unit_range (vy (Palette.getColorPalette cos (lit 0 1) 1)) = true /\
  in_unit_range (vz (Palette.getColorPalette cos (lit 0 1) 1)) = true.
Proof.
  intros cos.
  destruct (getColorPalette_unit_range cos (lit 0 1) 1)
    as (Hx & Hy & Hz & _).
  split; [apply Hx; vm_compute; reflexivity|].
  split; [apply Hy; vm_compute; reflexivity|].
  apply Hz; vm_compute; reflexivity.
Defined.

(** ** The palette: how far rounding moves a number *)

Section RoundingErrors.


End RoundingErrors.

Section RealValues.

Lemma pow2_pos (z : Z) : (0 < powerRZ 2 z)%R.
Proof. apply powerRZ_lt. lra. Qed.

Lemma pow2_add (a b : Z) : powerRZ 2 (a + b) = (powerRZ 2 a * powerRZ 2 b)%R.
Proof. apply powerRZ_add. lra. Qed.

Lemma pow2_IZR (z : Z) : 0 <= z -> IZR (2 ^ z) = powerRZ 2 z.
Proof.
  intros Hz. destruct z as [|p|p]; [reflexivity | | lia].
  cbn [powerRZ]. rewrite <- (positive_nat_Z p) at 1.
  now rewrite <- pow_IZR.
Qed.

Lemma pow2_le (a b : Z) : a <= b -> (powerRZ 2 a <= powerRZ 2 b)%R.
Proof.
  intros H. replace b with (a + (b - a)) by lia. rewrite pow2_add.
  rewrite <- (pow2_IZR (b - a)) by lia.
  assert (0 < 2 ^ (b - a)) by (apply Z.pow_pos_nonneg; lia).
  assert (1 <= 2 ^ (b - a)) by lia.
  assert (1 <= IZR (2 ^ (b - a)))%R by (now apply IZR_le).
  pose proof (pow2_pos a). nra.
Qed.

Lemma pow2_lt_inv (a b : Z) : (powerRZ 2 a < powerRZ 2 b)%R -> a < b.
Proof.
  intros H. destruct (Z_lt_le_dec a b) as [L|L]; [exact L|].
  pose proof (pow2_le b a L). lra.
Qed.








End RealValues.

Section RealOperations.






End RealOperations.

Section PalettePeriod.
Local Open Scope R_scope.

















End PalettePeriod.

Section PaletteClaim.
Local Open Scope R_scope.








End PaletteClaim.




(** ** The matrix product *)

Section MatrixProduct.
Import Enhanced.

Lemma store_same (m : memory) (a : Z) (v : float) : store m a v a = v.
Proof. unfold store. now rewrite Z.eqb_refl. Qed.

Lemma store_other (m : memory) (a x : Z) (v : float) :
  x <> a -> store m a v x = m x.
Proof. unfold store. intros H. apply Z.eqb_neq in H. now rewrite H. Qed.

(** The copy loop writes [temp[0..count)] to [result[n..n+count)] and
    nothing else. *)
Lemma copy_loop (temp : memory) (result : Z) (count : nat) (n : Z)
  (mem : memory) (x : Z) :
  fst (for_loop count n (fun (i : Z) (mem : memory) =>
         store mem (result + i) (temp i)) mem) x =
  if (result + n <=? x) && (x <? result + n + Z.of_nat count)
  then temp (x - result) else mem x.
Proof.
  revert n mem. induction count as [|k IH]; intros n mem.
  - cbn [for_loop fst].
    destruct (Z.leb_spec (result + n) x),
             (Z.ltb_spec x (result + n + Z.of_nat 0));
      try reflexivity. lia.
  - cbn [for_loop]. rewrite IH.
    destruct (Z.eq_dec x (result + n)) as [-> | Hne].
    + rewrite store_same.
      replace (result + n - result) with n by lia.
      destruct (Z.leb_spec (result + (n + 1)) (result + n)); [lia|].
      destruct (Z.leb_spec (result + n) (result + n)); [|lia].
      destruct (Z.ltb_spec (result + n) (result + n + Z.of_nat (S k)));
        [|lia].
      reflexivity.
    + rewrite (store_other _ _ _ _ Hne).
      destruct (Z.leb_spec (result + (n + 1)) x),
               (Z.ltb_spec x (result + (n + 1) + Z.of_nat k)),
               (Z.leb_spec (result + n) x),
               (Z.ltb_spec x (result + n + Z.of_nat (S k)));
        try reflexivity; lia.
Qed.


Ltac run_loops :=
  lazy beta iota zeta delta
    [for_loop fst store Z.eqb Z.mul Z.add Z.sub Z.opp Z.pos_sub Z.to_nat
     Z.succ_double Z.pred_double Z.double
     Pos.eqb Pos.mul Pos.add Pos.succ Pos.add_carry Pos.to_nat Pos.iter_op
     Pos.pred_double Nat.add].

Lemma temp_cell (mem : memory) (a b : Z) (temp0 : memory) (i j : Z) :
  0 <= i < 3 -> 0 <= j < 3 ->
  fst (for_loop (Z.to_nat (3 - 0)) 0 (fun (i : Z) (temp : memory) =>
      fst (for_loop (Z.to_nat (3 - 0)) 0 (fun (j : Z) (temp : memory) =>
        let temp := store temp (i * 3 + j) (lit 0 1) in
        fst (for_loop (Z.to_nat (3 - 0)) 0 (fun (k : Z) (temp : memory) =>
          store temp (i * 3 + j)
            (add (temp (i * 3 + j))
               (mul (mem (a + (i * 3 + k))) (mem (b + (k * 3 + j))))))
          temp)) temp)) temp0) (i * 3 + j) =
  add (add (add (lit 0 1)
              (mul (mem (a + (i * 3 + 0))) (mem (b + (0 * 3 + j)))))
         (mul (mem (a + (i * 3 + 1))) (mem (b + (1 * 3 + j)))))
    (mul (mem (a + (i * 3 + 2))) (mem (b + (2 * 3 + j)))).
Proof.
  intros Hi Hj.
  assert (Hi' : i = 0 \/ i = 1 \/ i = 2) by lia.
  assert (Hj' : j = 0 \/ j = 1 \/ j = 2) by lia.
  destruct Hi' as [-> | [-> | ->]], Hj' as [-> | [-> | ->]];
    run_loops; reflexivity.
Qed.

End MatrixProduct.

(** X12.  [multiplyMat3] computes the product in its local array before it
    writes [result], so it is right for any placement of the three arrays,
    also when [result] is [a] or [b] or overlaps them: cell [i * 3 + j] of
    [result] ends as
    [((0 + a[i*3] * b[j]) + a[i*3+1] * b[3+j]) + a[i*3+2] * b[6+j]],
    rounded to binary32 at every operation in this order and read from the
    memory as it was at the call; no cell outside [result[0..8]] changes. *)
Theorem multiplyMat3_any_aliasing :
  forall (mem : Enhanced.memory) (result a b : Z),
    (forall i j : Z, 0 <= i < 3 -> 0 <= j < 3 ->
       Enhanced.multiplyMat3 mem result a b (result + (i * 3 + j)) =
       add (add (add (lit 0 1)
                   (mul (mem (a + (i * 3 + 0))) (mem (b + (0 * 3 + j)))))
              (mul (mem (a + (i * 3 + 1))) (mem (b + (1 * 3 + j)))))
         (mul (mem (a + (i * 3 + 2))) (mem (b + (2 * 3 + j))))) /\
    (forall x : Z, x < result \/ result + 9 <= x ->
       Enhanced.multiplyMat3 mem result a b x = mem x).
Proof.
  intros mem result a b. split.
  - intros i j Hi Hj.
    pose proof (temp_cell mem a b (fun _ => undef) i j Hi Hj) as Hc.
    unfold Enhanced.multiplyMat3. cbv zeta.
    match goal with
    | |- (let '(temp, _) := ?X in _) _ = _ =>
      rewrite (surjective_pairing X)
    end.
    rewrite copy_loop. change (Z.of_nat (Z.to_nat (9 - 0))) with 9.
    destruct (Z.leb_spec (result + 0) (result + (i * 3 + j))); [|lia].
    destruct (Z.ltb_spec (result + (i * 3 + j)) (result + 0 + 9)); [|lia].
    cbn [andb].
    replace (result + (i * 3 + j) - result) with (i * 3 + j) by lia.
    exact Hc.
  - intros x Hx. unfold Enhanced.multiplyMat3. cbv zeta.
    match goal with
    | |- (let '(temp, _) := ?X in _) _ = _ =>
      rewrite (surjective_pairing X)
    end.
    rewrite copy_loop. change (Z.of_nat (Z.to_nat (9 - 0))) with 9.
    destruct (Z.leb_spec (result + 0) x),
             (Z.ltb_spec x (result + 0 + 9)); try reflexivity; lia.
Qed.

(** ** The host programs *)

Ltac run :=
  cbn [bind do ret calls_of value_of fst snd app sdl_run sdl_step
       needs_context existsb is_context gl_live fold_left gl_step created
       deleted name_of remove_one gl_object_eqb orb negb andb In].

Ltac tests_to_props :=
  repeat match goal with
  | H : (_ =? _) = true |- _ => apply Z.eqb_eq in H
  | H : (_ =? _) = false |- _ => apply Z.eqb_neq in H
  | H : (_ <? _) = true |- _ => apply Z.ltb_lt in H
  | H : (_ <? _) = false |- _ => apply Z.ltb_ge in H
  | H : _ || _ = true |- _ => apply orb_true_iff in H
  | H : _ || _ = false |- _ => apply orb_false_iff in H; destruct H
  | H : negb _ = true |- _ => apply negb_true_iff in H
  | H : negb _ = false |- _ => apply negb_false_iff in H
  end.

Ltac conj_split := repeat match goal with |- _ /\ _ => split end.

Ltac not_among :=
  let H := fresh "H" in
  intros H; repeat (destruct H as [H|H]; [discriminate H|]); exact H.

Ltac split_tests :=
  repeat (run; rewrite ?Z.eqb_refl;
          match goal with
          | |- context [if ?b then _ else _] => destruct b eqn:?
          end);
  run.

(** X13.  [createShaderProgram] of the enhanced variant, for every answer
    of the OpenGL library.  A value other than 0 is handed back only when
    both shaders compiled and the program linked; it is then the name that
    [glCreateProgram] gave, nothing was written to [stderr], and both shader
    objects have been deleted, so that the program is the one object left.
    When a shader fails to compile, or both shaders have a name other than 0
    and the program fails to link, the value is 0, the failure is reported
    on [stderr], and none of the objects created so far is deleted.  A
    shader is attached only when both shaders compiled, and never under the
    name 0. *)
Theorem enhanced_createShaderProgram_outcomes :
  forall gl : platform,
    let m := EnhancedHost.createShaderProgram gl in
    (value_of m <> 0 ->
       COMPILE_STATUS gl GL_VERTEX_SHADER <> 0 /\
       COMPILE_STATUS gl GL_FRAGMENT_SHADER <> 0 /\
       LINK_STATUS gl <> 0 /\
       value_of m = program_name gl /\
       (forall text, ~ In (fprintf_stderr text) (calls_of m)) /\
       gl_live (calls_of m) = [A_program (program_name gl)]) /\
    (COMPILE_STATUS gl GL_VERTEX_SHADER = 0 \/
     COMPILE_STATUS gl GL_FRAGMENT_SHADER = 0 \/
     (shader_name gl GL_VERTEX_SHADER <> 0 /\
      shader_name gl GL_FRAGMENT_SHADER <> 0 /\ LINK_STATUS gl = 0) ->
       value_of m = 0 /\
       (exists text, In (fprintf_stderr text) (calls_of m)) /\
       (forall c, In c (calls_of m) -> deleted c = None)) /\
    (forall program shader, In (glAttachShader program shader) (calls_of m) ->
       COMPILE_STATUS gl GL_VERTEX_SHADER <> 0 /\
       COMPILE_STATUS gl GL_FRAGMENT_SHADER <> 0 /\
       shader <> 0).
Proof.
  intros gl m. subst m.
  unfold EnhancedHost.createShaderProgram, EnhancedHost.compileShader.
  split; [|split].
  - split_tests; intros Hv; tests_to_props; try (exfalso; lia);
      conj_split; try assumption; try lia;
      try (rewrite ?Z.eqb_refl; reflexivity);
      intros text; not_among.
  - intros Hf. split_tests; tests_to_props;
      try (exfalso; lia);
      (split; [reflexivity|]); (split;
        [eexists; cbn [In]; eauto 20
        | intros c Hc; cbn [In] in Hc;
          repeat (destruct Hc as [<-|Hc]; [reflexivity|]); destruct Hc]).
  - intros program shader.
    split_tests; intros Hc; tests_to_props; try discriminate;
      repeat (destruct Hc as [Hc|Hc]; [try discriminate Hc|]);
      try (exfalso; exact Hc);
      injection Hc as <- <-; repeat split; lia.
Qed.

Section SimpleShaderSetup.

Lemma simple_createShaderProgram_run (gl : platform) :
  SimpleHost.createShaderProgram gl =
  (compile_calls gl GL_VERTEX_SHADER ++ compile_report gl GL_VERTEX_SHADER ++
   compile_calls gl GL_FRAGMENT_SHADER ++
   compile_report gl GL_FRAGMENT_SHADER ++
   link_calls gl ++ link_report gl ++
   [glDeleteShader (shader_name gl GL_VERTEX_SHADER);
    glDeleteShader (shader_name gl GL_FRAGMENT_SHADER)],
   program_name gl).
Proof.
  unfold SimpleHost.createShaderProgram, SimpleHost.compileShader,
    compile_report, link_report, compile_calls, link_calls.
  destruct (COMPILE_STATUS gl GL_VERTEX_SHADER =? 0),
           (COMPILE_STATUS gl GL_FRAGMENT_SHADER =? 0),
           (LINK_STATUS gl =? 0); reflexivity.
Qed.

(** Calls that neither create nor delete an OpenGL object leave the live
    objects as they are. *)
Lemma gl_steps_neutral (calls : list call) (live : list gl_object) :
  (forall c, In c calls -> created c = None /\ deleted c = None) ->
  fold_left gl_step calls live = live.
Proof.
  revert live. induction calls as [|c l IH]; intros live H; [reflexivity|].
  cbn [fold_left]. destruct (H c (or_introl eq_refl)) as [Hc Hd].
  unfold gl_step at 2. rewrite Hc, Hd. apply IH.
  intros c' Hc'. apply H. now right.
Qed.

Lemma compile_report_neutral (gl : platform) (type : shader_type)
  (live : list gl_object) :
  fold_left gl_step (compile_report gl type) live = live.
Proof.
  apply gl_steps_neutral. unfold compile_report.
  destruct (COMPILE_STATUS gl type =? 0); intros c Hc; cbn [In] in Hc;
    repeat (destruct Hc as [<-|Hc]; [split; reflexivity|]); destruct Hc.
Qed.

Lemma link_report_neutral (gl : platform) (live : list gl_object) :
  fold_left gl_step (link_report gl) live = live.
Proof.
  apply gl_steps_neutral. unfold link_report.
  destruct (LINK_STATUS gl =? 0); intros c Hc; cbn [In] in Hc;
    repeat (destruct Hc as [<-|Hc]; [split; reflexivity|]); destruct Hc.
Qed.

Lemma simple_createShaderProgram_live (gl : platform) :
  gl_live (calls_of (SimpleHost.createShaderProgram gl)) =
  (if program_name gl =? 0 then [] else [A_program (program_name gl)]).
Proof.
  rewrite simple_createShaderProgram_run. unfold gl_live, calls_of.
  cbn [fst]. rewrite !fold_left_app, !compile_report_neutral,
    link_report_neutral.
  unfold compile_calls, link_calls.
  cbn [fold_left gl_step created deleted name_of].
  destruct (Z.eqb_spec (shader_name gl GL_VERTEX_SHADER) 0) as [Ev|Ev],
           (Z.eqb_spec (shader_name gl GL_FRAGMENT_SHADER) 0) as [Ef|Ef],
           (Z.eqb_spec (program_name gl) 0) as [Ep|Ep];
    cbn [remove_one gl_object_eqb]; rewrite ?Z.eqb_refl; try reflexivity;
    destruct (Z.eqb_spec (shader_name gl GL_VERTEX_SHADER)
                (shader_name gl GL_FRAGMENT_SHADER)) as [E|E];
    cbn [remove_one gl_object_eqb]; rewrite ?Z.eqb_refl; try reflexivity;
    rewrite E, Z.eqb_refl; reflexivity.
Qed.

Lemma in_compile_report (gl : platform) (type : shader_type) (text : message) :
  In (fprintf_stderr text) (compile_report gl type) <->
  text = Shader_compilation_failed /\ COMPILE_STATUS gl type = 0.
Proof.
  unfold compile_report. destruct (Z.eqb_spec (COMPILE_STATUS gl type) 0).
  - cbn [In]. split.
    + intros [H|[H|[]]]; [discriminate H|]. injection H as <-. now split.
    + intros [-> _]. right. now left.
  - cbn [In]. split; [tauto | intros [_ H]; contradiction].
Qed.

Lemma in_link_report (gl : platform) (text : message) :
  In (fprintf_stderr text) (link_report gl) <->
  text = Program_linking_failed /\ LINK_STATUS gl = 0.
Proof.
  unfold link_report. destruct (Z.eqb_spec (LINK_STATUS gl) 0).
  - cbn [In]. split.
    + intros [H|[H|[]]]; [discriminate H|]. injection H as <-. now split.
    + intros [-> _]. right. now left.
  - cbn [In]. split; [tauto | intros [_ H]; contradiction].
Qed.

Lemma simple_createShaderProgram_reports (gl : platform) (text : message) :
  In (fprintf_stderr text) (calls_of (SimpleHost.createShaderProgram gl)) <->
  (text = Shader_compilation_failed /\
   (COMPILE_STATUS gl GL_VERTEX_SHADER = 0 \/
    COMPILE_STATUS gl GL_FRAGMENT_SHADER = 0)) \/
  (text = Program_linking_failed /\ LINK_STATUS gl = 0).
Proof.
  rewrite simple_createShaderProgram_run. unfold calls_of. cbn [fst].
  rewrite !in_app_iff, !in_compile_report, in_link_report.
  unfold compile_calls, link_calls. cbn [In]. split.
  - intros [H|[H|[H|[H|[H|[H|H]]]]]]; try tauto;
      repeat (destruct H as [H|H]; [discriminate H|]); destruct H.
  - tauto.
Qed.

End SimpleShaderSetup.

(** X14.  [createShaderProgram] of the simple variant, for every answer of
    the OpenGL library.  A failure to compile or to link is written to
    [stderr] and has no other effect: whatever the statuses are, both
    shaders are attached, the program is linked, both shader objects are
    deleted, and the value handed back is the name that [glCreateProgram]
    gave.  The caller cannot tell a failure from a success. *)
Theorem simple_createShaderProgram_outcomes :
  forall gl : platform,
    let m := SimpleHost.createShaderProgram gl in
    value_of m = program_name gl /\
    In (glAttachShader (program_name gl) (shader_name gl GL_VERTEX_SHADER))
       (calls_of m) /\
    In (glAttachShader (program_name gl) (shader_name gl GL_FRAGMENT_SHADER))
       (calls_of m) /\
    In (glLinkProgram (program_name gl)) (calls_of m) /\
    (In (fprintf_stderr Shader_compilation_failed) (calls_of m) <->
     COMPILE_STATUS gl GL_VERTEX_SHADER = 0 \/
     COMPILE_STATUS gl GL_FRAGMENT_SHADER = 0) /\
    (In (fprintf_stderr Program_linking_failed) (calls_of m) <->
     LINK_STATUS gl = 0) /\
    gl_live (calls_of m) =
    (if program_name gl =? 0 then [] else [A_program (program_name gl)]).
Proof.
  intros gl m. subst m.
  split; [now rewrite simple_createShaderProgram_run|].
  assert (Hl : forall c, In c (link_calls gl) ->
            In c (calls_of (SimpleHost.createShaderProgram gl))).
  { intros c Hc. rewrite simple_createShaderProgram_run. unfold calls_of.
    cbn [fst]. rewrite !in_app_iff. tauto. }
  split; [apply Hl; cbn [link_calls In]; tauto|].
  split; [apply Hl; cbn [link_calls In]; tauto|].
  split; [apply Hl; cbn [link_calls In]; tauto|].
  split; [|split].
  - rewrite simple_createShaderProgram_reports. split.
    + intros [[_ H]|[H _]]; [exact H | discriminate H].
    + intros H. left. now split.
  - rewrite simple_createShaderProgram_reports. split.
    + intros [[H _]|[_ H]]; [discriminate H | exact H].
    + intros H. right. now split.
  - apply simple_createShaderProgram_live.
Qed.

Ltac rewrite_tests :=
  repeat match goal with
  | H : ?b = true |- context [?b] => rewrite H
  | H : ?b = false |- context [?b] => rewrite H
  end.

Section MainRuns.

Lemma sdl_run_app (calls calls' : list call) (live : list resource) :
  sdl_run live (calls ++ calls') =
  match sdl_run live calls with
  | Some live' => sdl_run live' calls'
  | None => None
  end.
Proof.
  revert live. induction calls as [|c l IH]; intros live; [reflexivity|].
  cbn [app sdl_run]. destruct (sdl_step live c); [apply IH | reflexivity].
Qed.

Lemma sdl_run_neutral (calls : list call) (live : list resource) :
  (forall c, In c calls -> sdl_step live c = Some live) ->
  sdl_run live calls = Some live.
Proof.
  induction calls as [|c l IH]; intros H; [reflexivity|].
  cbn [sdl_run]. rewrite (H c (or_introl eq_refl)). apply IH.
  intros c' Hc'. apply H. now right.
Qed.

Lemma gl_live_app (calls calls' : list call) :
  gl_live (calls ++ calls') = fold_left gl_step calls' (gl_live calls).
Proof. unfold gl_live. apply fold_left_app. Qed.

(** The shader set-up makes no SDL call: with a context live, it leaves the
    SDL objects as they are. *)
Lemma enhanced_createShaderProgram_sdl (gl : platform) (context : Z)
  (rest : list resource) :
  sdl_run (The_context context :: rest)
    (calls_of (EnhancedHost.createShaderProgram gl)) =
  Some (The_context context :: rest).
Proof.
  apply sdl_run_neutral.
  unfold EnhancedHost.createShaderProgram, EnhancedHost.compileShader.
  split_tests; intros c Hc;
    repeat (destruct Hc as [<-|Hc]; [reflexivity|]); destruct Hc.
Qed.

Lemma simple_createShaderProgram_sdl (gl : platform) (context : Z)
  (rest : list resource) :
  sdl_run (The_context context :: rest)
    (calls_of (SimpleHost.createShaderProgram gl)) =
  Some (The_context context :: rest).
Proof.
  apply sdl_run_neutral. rewrite simple_createShaderProgram_run.
  unfold calls_of, compile_calls, compile_report, link_calls, link_report.
  cbn [fst]. intros c. rewrite !in_app_iff.
  destruct (COMPILE_STATUS gl GL_VERTEX_SHADER =? 0),
           (COMPILE_STATUS gl GL_FRAGMENT_SHADER =? 0),
           (LINK_STATUS gl =? 0); cbn [In];
    intros Hc; repeat (destruct Hc as [Hc|Hc]);
    try (subst c; reflexivity); exfalso; exact Hc.
Qed.

Lemma enhanced_createShaderProgram_success (gl : platform) :
  value_of (EnhancedHost.createShaderProgram gl) <> 0 ->
  value_of (EnhancedHost.createShaderProgram gl) = program_name gl /\
  gl_live (calls_of (EnhancedHost.createShaderProgram gl)) =
  [A_program (program_name gl)].
Proof.
  unfold EnhancedHost.createShaderProgram, EnhancedHost.compileShader.
  split_tests; intros Hv; tests_to_props; try (exfalso; lia);
    conj_split; try assumption; try lia;
    rewrite ?Z.eqb_refl; reflexivity.
Qed.

Lemma simple_poll_events_running (pending : list Enhanced.event)
  (running : bool) :
  SimpleHost.poll_events running pending =
  running && negb (existsb SimpleHost.is_quit pending).
Proof.
  revert running. induction pending as [|e l IH]; intros running.
  - cbn. now rewrite andb_true_r.
  - unfold SimpleHost.poll_events in *. cbn [fold_left existsb].
    rewrite IH, negb_orb, andb_assoc. f_equal.
    destruct e as [|[]| |], running; reflexivity.
Qed.

Lemma simple_main_loop_stopped (frames : list (list Enhanced.event)) :
  SimpleHost.main_loop frames false = false.
Proof. destruct frames; reflexivity. Qed.

Lemma simple_main_loop_running (frames : list (list Enhanced.event)) :
  SimpleHost.main_loop frames true =
  negb (existsb (existsb SimpleHost.is_quit) frames).
Proof.
  induction frames as [|f l IH]; [reflexivity|].
  cbn [SimpleHost.main_loop existsb].
  rewrite simple_poll_events_running. cbn [andb].
  destruct (existsb SimpleHost.is_quit f); cbn [negb orb].
  - apply simple_main_loop_stopped.
  - exact IH.
Qed.

Lemma simple_quit_event (frames : list (list Enhanced.event)) :
  existsb (existsb SimpleHost.is_quit) frames = true <->
  exists pending e, In pending frames /\ In e pending /\
    (e = Enhanced.SDL_QUIT \/
     e = Enhanced.SDL_KEYDOWN Enhanced.SDLK_ESCAPE).
Proof.
  rewrite existsb_exists. split.
  - intros (pending & Hp & He). apply existsb_exists in He.
    destruct He as (e & He & Hq). exists pending, e.
    split; [exact Hp|]. split; [exact He|].
    destruct e as [|[]| |]; try discriminate Hq; auto.
  - intros (pending & e & Hp & He & Hq). exists pending.
    split; [exact Hp|]. apply existsb_exists. exists e.
    split; [exact He|]. destruct Hq as [-> | ->]; reflexivity.
Qed.

End MainRuns.

(** X15.  [main] of the enhanced variant, for every answer of the libraries
    and every sequence of frames.  It ends with status 1 exactly when a
    start-up step fails: [SDL_Init] answers a negative value, the window or
    the context is null, [glewInit] does not answer [GLEW_OK], or
    [createShaderProgram] hands back 0.  It ends with status 0 exactly when
    the start-up succeeds and an event clears [running]; until then it does
    not end.  Whenever it ends, the SDL objects it acquired have been
    released, each once, in the reverse order of acquisition, and none of
    the recorded OpenGL calls was made without a live context; while it
    runs, the library, the window and the context are live.  When it ends
    with status 0, every OpenGL object it created has been deleted. *)
Theorem enhanced_main_exit_and_cleanup :
  forall (gl : platform) (frames : list (list Enhanced.event)),
    let m := EnhancedHost.main gl frames in
    let failed :=
      SDL_Init_result gl < 0 \/ window gl = 0 \/ glContext gl = 0 \/
      glewError gl <> 0 \/
      value_of (EnhancedHost.createShaderProgram gl) = 0 in
    let running :=
      Enhanced.running (Enhanced.main_loop frames Enhanced.initial_state) in
    (value_of m = Some 1 <-> failed) /\
    (value_of m = Some 0 <-> ~ failed /\ running = false) /\
    (value_of m = None <-> ~ failed /\ running = true) /\
    (value_of m <> None -> sdl_run [] (calls_of m) = Some []) /\
    (value_of m = None ->
     sdl_run [] (calls_of m) =
     Some [The_context (glContext gl); The_window (window gl); The_library]) /\
    (value_of m = Some 0 -> gl_live (calls_of m) = []).
Proof.
  intros gl frames m failed running. subst m failed running.
  pose proof (enhanced_createShaderProgram_sdl gl) as Hsdl.
  pose proof (enhanced_createShaderProgram_success gl) as Hok.
  unfold EnhancedHost.main. unfold calls_of, value_of in *.
  destruct (EnhancedHost.createShaderProgram gl) as [cs v].
  cbn [fst snd] in Hsdl, Hok.
  repeat (cbn [bind do ret fst snd app negb];
          match goal with
          | |- context [if ?b then _ else _] => destruct b eqn:?
          end).
  all: cbn [bind do ret fst snd app negb]; conj_split.
  all: try (intros _;
       repeat (progress (cbn [sdl_run sdl_step needs_context existsb
                              is_context orb];
                         rewrite_tests;
                         rewrite ?Z.eqb_refl, ?sdl_run_app, ?Hsdl));
       reflexivity).
  all: try (intros H; discriminate H).
  all: try (split; [intros _|intros _; reflexivity]).
  all: try (split; [intros H; discriminate H|intros [Hn Hr]]).
  all: tests_to_props; try tauto; try lia; try congruence.
  all: try (split; [intros H; discriminate H | intros Hf; exfalso; lia]).
  intros _. destruct Hok as [-> Hl]; [assumption|]. unfold gl_live in *.
  cbn [fold_left gl_step created deleted name_of].
  rewrite fold_left_app, Hl.
  cbn [fold_left gl_step created deleted name_of].
  destruct (Z.eqb_spec (vao gl) 0), (Z.eqb_spec (vbo gl) 0);
    repeat (progress (cbn [remove_one gl_object_eqb]; rewrite ?Z.eqb_refl));
    reflexivity.
Qed.

(** X16.  [main] of the simple variant, for every answer of the libraries
    and every sequence of frames.  It ends with status 1 exactly when
    [SDL_Init] answers a negative value, the window or the context is null,
    or [glewInit] does not answer [GLEW_OK]; a shader that does not compile
    or a program that does not link does not stop it.  It ends with status 0
    exactly when the start-up succeeds and some frame holds a window-close
    event or an ESC key press (the key 'q' does not end this variant);
    until then it does not end.  Whenever it ends, the SDL objects it
    acquired have been released, each once, in the reverse order of
    acquisition, and none of the recorded OpenGL calls was made without a
    live context; while it runs, the library, the window and the context
    are live.  When it ends with status 0, every OpenGL object it created
    has been deleted. *)
Theorem simple_main_exit_and_cleanup :
  forall (gl : platform) (frames : list (list Enhanced.event)),
    let m := SimpleHost.main gl frames in
    let failed :=
      SDL_Init_result gl < 0 \/ window gl = 0 \/ glContext gl = 0 \/
      glewError gl <> 0 in
    let quit :=
      exists pending e, In pending frames /\ In e pending /\
        (e = Enhanced.SDL_QUIT \/
         e = Enhanced.SDL_KEYDOWN Enhanced.SDLK_ESCAPE) in
    (value_of m = Some 1 <-> failed) /\
    (value_of m = Some 0 <-> ~ failed /\ quit) /\
    (value_of m = None <-> ~ failed /\ ~ quit) /\
    (value_of m <> None -> sdl_run [] (calls_of m) = Some []) /\
    (value_of m = None ->
     sdl_run [] (calls_of m) =
     Some [The_context (glContext gl); The_window (window gl); The_library]) /\
    (value_of m = Some 0 -> gl_live (calls_of m) = []).
Proof.
  intros gl frames m failed quit. subst m failed quit.
  rewrite <- simple_quit_event.
  pose proof (simple_createShaderProgram_sdl gl) as Hsdl.
  pose proof (simple_createShaderProgram_live gl) as Hl.
  unfold SimpleHost.main. rewrite simple_main_loop_running.
  unfold calls_of, value_of in *.
  rewrite simple_createShaderProgram_run in *.
  match type of Hl with gl_live (fst (?l, _)) = _ => set (cs := l) in * end.
  cbn [fst snd] in Hsdl, Hl.
  repeat (cbn [bind do ret fst snd app negb];
          match goal with
          | |- context [if ?b then _ else _] => destruct b eqn:?
          end).
  all: cbn [bind do ret fst snd app negb]; conj_split.
  all: try (intros _;
       repeat (progress (cbn [sdl_run sdl_step needs_context existsb
                              is_context orb];
                         rewrite_tests;
                         rewrite ?Z.eqb_refl, ?sdl_run_app, ?Hsdl));
       reflexivity).
  all: try (intros H; discriminate H).
  all: try (split; [intros _|intros _; reflexivity]).
  all: try (split; [intros H; discriminate H|intros [Hn Hr]]).
  all: tests_to_props; try tauto; try lia; try congruence.
  all: try (split; [intros H; discriminate H | intros Hf; exfalso; lia]).
  all: try (split; [lia | congruence]).
  intros _. unfold gl_live in *.
  cbn [fold_left gl_step created deleted name_of].
  rewrite fold_left_app, Hl.
  cbn [fold_left gl_step created deleted name_of].
  destruct (Z.eqb_spec (program_name gl) 0), (Z.eqb_spec (vao gl) 0),
           (Z.eqb_spec (vbo gl) 0);
    repeat (progress (cbn [remove_one gl_object_eqb]; rewrite ?Z.eqb_refl));
    reflexivity.
Qed.
